(** * TurtLSystems: L-system expansion, palette and turtle interpreter

    A shallow embedding of [src/TurtLSystems/turtlsystems.py]: the helper
    functions [lsystem], [clamp], [conform_color], [make_rules],
    [make_colors], [orient] and [get_padding_rect], the interpreter [run]
    with its closures [save_frame], [gif_handler], [set_pensize],
    [set_color] and [increment_color], the frames of [save_gif], and the
    package functions [init], [draw] and [wait] with the module variables.

    Conventions.
    - A Python [str] is a Stdlib [string]; a character is an [ascii],
      which stands for the Python character of the same code point
      (0..255).  [isspace], [isalpha], [isupper], [lower] and [upper]
      are Python's on these characters, those above 127 included; the
      uppercase of three of them is not a character below 256 and is
      given as what it is ([Uppercase]).
    - A Python [int] is a [Z].  The numbers handed to the turtle (angle,
      length, thickness, coordinates) are Python floats or ints; they are
      kept abstract behind the class [Arith], so that every theorem holds
      whatever the arithmetic does.
    - Python's [turtle] module is not part of the repository.  The turtle
      is a record holding what the interpreter reads back from it (pose,
      pen, speed, width) and the list of calls made on it; how a pose
      changes when the turtle moves or turns is abstract ([Geometry]),
      while [setposition], [setheading], [speed] and [pensize] leave the
      turtle with exactly the value they are given.
    - An exception is a value of [Error]: [ZeroDivisionError] from ['/'],
      from [%] and from [//], [IndexError] from a palette that is too
      short and from an empty list of images. *)

From Stdlib Require Import ZArith QArith Lia Ascii String List Bool Sorted.
From stdpp Require Import base option list gmap strings.

Close Scope Q_scope.
Open Scope string_scope.
Open Scope list_scope.
Open Scope Z_scope.

(* ================================================================= *)
(** ** Grammar and expansion *)

(** [rules.get(c, c)] for a character [c] of the string. *)
Definition rules_get (rules : gmap string string) (c : ascii) : string :=
  default (String c "") (rules !! String c "").

(** [''.join(rules.get(c, c) for c in start)] *)
Fixpoint join_rules (rules : gmap string string) (start : string) : string :=
  match start with
  | EmptyString => ""
  | String c rest => (rules_get rules c ++ join_rules rules rest)%string
  end.

(** The body of [for _ in range(level)], run [n] times. *)
Fixpoint lsystem_loop (n : nat) (rules : gmap string string) (start : string) : string :=
  match n with
  | O => start
  | S n' => lsystem_loop n' rules (join_rules rules start)
  end.

(** [range(level)] has [max(level, 0)] elements. *)
Definition lsystem (start : string) (rules : gmap string string) (level : Z) : string :=
  lsystem_loop (Z.to_nat level) rules start.

(** Whitespace as [str.split()] sees it, for code points below 256. *)
Definition isspace (c : ascii) : bool :=
  let n := N_of_ascii c in
  ((9 <=? n) && (n <=? 13) || (28 <=? n) && (n <=? 32) || (n =? 133) || (n =? 160))%N.

(** [str.split()]: maximal runs of non-whitespace characters.  [cur] is
    the token being read. *)
Fixpoint split_from (cur : string) (s : string) : list string :=
  match s with
  | EmptyString => if String.eqb cur "" then [] else [cur]
  | String c rest =>
      if isspace c
      then (if String.eqb cur "" then split_from "" rest else cur :: split_from "" rest)
      else split_from (cur ++ String c "")%string rest
  end.

Definition split (s : string) : list string := split_from "" s.

(** The slice [l[::2]]. *)
Fixpoint every_other {A : Type} (l : list A) : list A :=
  match l with
  | [] => []
  | [x] => [x]
  | x :: _ :: rest => x :: every_other rest
  end.

(** [dict(pairs)]: a later pair overrides an earlier one with the same key. *)
Definition dict (pairs : list (string * string)) : gmap string string :=
  foldl (fun d kv => <[ kv.1 := kv.2 ]> d) ∅ pairs.

(** [make_rules]: a [str] is split and paired up, a [dict] is returned as it is. *)
Definition make_rules (rules : string + gmap string string) : gmap string string :=
  match rules with
  | inl s =>
      let split := split s in
      dict (zip (every_other split) (every_other (tail split)))
  | inr d => d
  end.

(** The pairing the specification speaks of: tokens taken two by two, by
    position; a last token without a partner is left out. *)
Fixpoint pair_by_position (tokens : list string) : list (string * string) :=
  match tokens with
  | symbol :: replacement :: rest => (symbol, replacement) :: pair_by_position rest
  | _ => []
  end.

(* ================================================================= *)
(** ** Palette *)

Definition Color : Type := Z * Z * Z.
Definition OpColor : Type := option Color.

Definition DEFAULT_COLORS : list Color :=
  [ (255, 255, 255);
    (128, 128, 128);
    (255, 0, 0);
    (255, 128, 0);
    (255, 255, 0);
    (0, 255, 0);
    (0, 255, 255);
    (0, 0, 255);
    (128, 0, 255);
    (255, 0, 255) ].

(** [max(minimum, min(value, maximum))] *)
Definition clamp (value minimum maximum : Z) : Z :=
  Z.max minimum (Z.min value maximum).

(** [conform_color]: [None] stays [None], a triplet is clamped channel by
    channel ([int] is the identity on an [int]). *)
Definition conform_color (color : option (Z * Z * Z)) : OpColor :=
  match color with
  | Some (r, g, b) => Some (clamp r 0 255, clamp g 0 255, clamp b 0 255)
  | None => None
  end.

(** [make_colors]; the tuple it returns is a list here. *)
Definition make_colors (color fill_color : option (Z * Z * Z))
    (colors : option (list (option (Z * Z * Z)))) : list OpColor :=
  match colors with
  | None =>
      conform_color color :: conform_color fill_color :: map Some (drop 2 DEFAULT_COLORS)
  | Some colors =>
      let colors :=
        map (fun c_ => conform_color c_.1) (zip colors (seq 0 (length DEFAULT_COLORS))) in
      colors ++ map Some (drop (length colors) DEFAULT_COLORS)
  end.

(* ================================================================= *)
(** ** Numbers and the turtle *)

(** The arithmetic of the numbers given to the turtle.  [div] is [None]
    where Python raises [ZeroDivisionError]; [half x] is [x / 2.0];
    [gt a b] is [a > b]; [truth x] is the truth value of [x] in a
    condition. *)
Class Arith : Type := {
  num : Type;
  zero : num;
  add : num -> num -> num;
  sub : num -> num -> num;
  mul : num -> num -> num;
  div : num -> num -> option num;
  half : num -> num;
  gt : num -> num -> bool;
  truth : num -> bool
}.

(** [max(a, b)]: the first argument unless the second is greater. *)
Definition pymax `{Arith} (a b : num) : num := if gt b a then b else a.

(** Where the turtle ends up: its position after [forward] from a position
    at a heading, and its heading after [left] and [right]. *)
Class Geometry (A : Arith) : Type := {
  after_forward : num * num -> num -> num -> num * num;
  after_left : num -> num -> num;
  after_right : num -> num -> num
}.

Inductive Error : Type := ZeroDivisionError | IndexError.

(** The three channels of a colour: indices 0, 1 and 2 of the triplet. *)
Inductive Channel : Type := Red | Green | Blue.

Definition get_channel (ch : Channel) (color : Color) : Z :=
  match ch, color with
  | Red, (r, _, _) => r
  | Green, (_, g, _) => g
  | Blue, (_, _, b) => b
  end.

Definition set_channel (ch : Channel) (v : Z) (color : Color) : Color :=
  match ch, color with
  | Red, (_, g, b) => (v, g, b)
  | Green, (r, _, b) => (r, v, b)
  | Blue, (r, g, _) => (r, g, v)
  end.

(** [str.isupper] and [str.isalpha] for a character below 256.  The
    uppercase letters are A to Z and U+00C0 to U+00DE without the sign
    U+00D7; the letters are these, a to z, U+00DF to U+00FF without the
    sign U+00F7, and the three characters U+00AA, U+00B5 and U+00BA. *)
Definition isupper (c : ascii) : bool :=
  let n := N_of_ascii c in
  ((65 <=? n) && (n <=? 90) || (192 <=? n) && (n <=? 214) || (216 <=? n) && (n <=? 222))%N.

Definition isalpha (c : ascii) : bool :=
  let n := N_of_ascii c in
  ((65 <=? n) && (n <=? 90) || (97 <=? n) && (n <=? 122)
   || (n =? 170) || (n =? 181) || (n =? 186)
   || (192 <=? n) && (n <=? 214) || (216 <=? n) && (n <=? 246)
   || (248 <=? n) && (n <=? 255))%N.

(** [c.lower()] for a character below 256: an uppercase letter has its
    lowercase letter 32 code points above it, and no other character
    changes. *)
Definition lower (c : ascii) : ascii :=
  if isupper c then ascii_of_N (N_of_ascii c + 32) else c.

(** The string [c.upper()] for a character [c] below 256.  It is one
    character below 256, but for three characters: U+00DF gives the two
    characters [SS], and U+00B5 and U+00FF give the characters U+039C and
    U+0178, which are beyond 255. *)
Inductive Uppercase : Type :=
| within (c : ascii)
| double_s
| beyond (code : N).

Definition upper (c : ascii) : Uppercase :=
  let n := N_of_ascii c in
  if (n =? 223)%N then double_s
  else if (n =? 181)%N then beyond 924
  else if (n =? 255)%N then beyond 376
  else if ((97 <=? n) && (n <=? 122) || (224 <=? n) && (n <=? 246)
           || (248 <=? n) && (n <=? 254))%N
  then within (ascii_of_N (n - 32))
  else within c.

(** The branch of the [if]/[elif] chain of [run] a character takes. *)
Inductive Symbol : Type :=
| Upper | Lower | Underscore | Caret | Percent | Star | Slash
| Plus | Minus | Amp | Bar | Tilde | RParen | LParen
| Equal | Greater | Less
| Digit (n : nat) | Hash | Dot | Comma | Colon | Semicolon | Bang | Question
| LBrace | RBrace | At | Backtick | DQuote | Quote | Dollar
| LBracket | RBracket | Backslash | Other.

(** The tests of the chain, in the order of the source. *)
Definition classify (c : ascii) : Symbol :=
  if (("A" <=? c) && (c <=? "Z"))%char then Upper
  else if (("a" <=? c) && (c <=? "z"))%char then Lower
  else if (c =? "_")%char then Underscore
  else if (c =? "^")%char then Caret
  else if (c =? "%")%char then Percent
  else if (c =? "*")%char then Star
  else if (c =? "/")%char then Slash
  else if (c =? "+")%char then Plus
  else if (c =? "-")%char then Minus
  else if (c =? "&")%char then Amp
  else if (c =? "|")%char then Bar
  else if (c =? "~")%char then Tilde
  else if (c =? ")")%char then RParen
  else if (c =? "(")%char then LParen
  else if (c =? "=")%char then Equal
  else if (c =? ">")%char then Greater
  else if (c =? "<")%char then Less
  else if (("0" <=? c) && (c <=? "9"))%char then Digit (N.to_nat (N_of_ascii c - 48))
  else if (c =? "#")%char then Hash
  else if (c =? ".")%char then Dot
  else if (c =? ",")%char then Comma
  else if (c =? ":")%char then Colon
  else if (c =? ";")%char then Semicolon
  else if (c =? "!")%char then Bang
  else if (c =? "?")%char then Question
  else if (c =? "{")%char then LBrace
  else if (c =? "}")%char then RBrace
  else if (c =? "@")%char then At
  else if (c =? "`")%char then Backtick
  else if (c =? "034")%char then DQuote
  else if (c =? "'")%char then Quote
  else if (c =? "$")%char then Dollar
  else if (c =? "[")%char then LBracket
  else if (c =? "]")%char then RBracket
  else if (c =? "\")%char then Backslash
  else Other.

(** The chain on the string [c.upper()].  As strings are compared, [SS]
    is between [A] and [Z]: it takes the first branch.  A character
    beyond 255 is above [z] and [9] and equal to no character of the
    chain: it takes no branch. *)
Definition classify_upper (u : Uppercase) : Symbol :=
  match u with
  | within c => classify c
  | double_s => Upper
  | beyond _ => Other
  end.

(** The branch a letter takes while the cases are swapped:
    [c = c.lower() if c.isupper() else c.upper()], then the chain. *)
Definition swapped (c : ascii) : Symbol :=
  if isupper c then classify (lower c) else classify_upper (upper c).

Section Interpreter.
Context {A : Arith} {G : Geometry A}.

(** The calls [run] and [orient] make on the turtle, and the capture of
    a frame ([save_eps] on the canvas, for the frame of that number). *)
Inductive Call : Type :=
| t_pensize (width : num)
| t_pencolor (c : Color)
| t_fillcolor (c : Color)
| t_pendown
| t_penup
| t_forward (distance : num)
| t_left (a : num)
| t_right (a : num)
| t_begin_fill
| t_end_fill
| t_dot (c : Color)
| t_clear
| t_speed (s : Z)
| t_setposition (p : num * num)
| t_setheading (h : num)
| save_eps (frame : nat).

(** What the interpreter reads back from the turtle ([xcor], [ycor],
    [heading], [isdown], [speed], [pensize]), and the calls made so far,
    oldest first. *)
Record Turtle : Type := {
  pos : num * num;
  hdg : num;
  isdown : bool;
  speed : Z;
  width : num;
  calls : list Call
}.

(** The effect of one call on the turtle. *)
Definition call (c : Call) (t : Turtle) : Turtle :=
  let log := calls t ++ [c] in
  match c with
  | t_pensize w => Build_Turtle (pos t) (hdg t) (isdown t) (speed t) w log
  | t_pendown => Build_Turtle (pos t) (hdg t) true (speed t) (width t) log
  | t_penup => Build_Turtle (pos t) (hdg t) false (speed t) (width t) log
  | t_forward d =>
      Build_Turtle (after_forward (pos t) (hdg t) d) (hdg t) (isdown t) (speed t) (width t) log
  | t_left a => Build_Turtle (pos t) (after_left (hdg t) a) (isdown t) (speed t) (width t) log
  | t_right a => Build_Turtle (pos t) (after_right (hdg t) a) (isdown t) (speed t) (width t) log
  | t_speed v => Build_Turtle (pos t) (hdg t) (isdown t) v (width t) log
  | t_setposition p => Build_Turtle p (hdg t) (isdown t) (speed t) (width t) log
  | t_setheading h => Build_Turtle (pos t) h (isdown t) (speed t) (width t) log
  | _ => Build_Turtle (pos t) (hdg t) (isdown t) (speed t) (width t) log
  end.

(** [orient]: both arguments are optional; a position, being a pair, is
    true whenever it is given. *)
Definition orient (position : option (num * num)) (heading : option num)
    (t : Turtle) : Turtle :=
  let speed_ := speed t in
  let down := isdown t in
  let t := call t_penup t in
  let t := call (t_speed 0) t in
  let t := match position with Some p => call (t_setposition p) t | None => t end in
  let t := match heading with Some h => call (t_setheading h) t | None => t end in
  let t := call (t_speed speed_) t in
  if down then call t_pendown t else t.

(** class [State] *)
Record State : Type := {
  s_position : num * num;
  s_heading : num;
  s_angle : num;
  s_length : num;
  s_thickness : num;
  s_pen_color : OpColor;
  s_fill_color : OpColor;
  s_swap_signs : bool;
  s_swap_cases : bool;
  s_modify_fill : bool
}.

(** The parameters of [run] that stay as they are; [initial_angle],
    [initial_length] and [initial_thickness] are the arguments [angle],
    [length] and [thickness].  [gif] is the file name, or [None]. *)
Record Config : Type := {
  colors : list OpColor;
  full_circle : num;
  position : num * num;
  heading : num;
  initial_angle : num;
  initial_length : num;
  initial_thickness : num;
  angle_increment : num;
  length_increment : num;
  length_scalar : num;
  thickness_increment : num;
  color_increments : Z * Z * Z;
  gif : option string;
  draws_per_frame : Z;
  max_frames : Z
}.

(** The turtle and the variables of [run] that its loop and closures
    change.  [stack] has the last pushed state first; [gif_data] holds
    the numbers of the stored frames, oldest first. *)
Record Locals : Type := {
  t : Turtle;
  angle : num;
  length' : num;
  thickness : num;
  pen_color : OpColor;
  fill_color : OpColor;
  swap_signs : bool;
  swap_cases : bool;
  modify_fill : bool;
  stack : list State;
  gif_data : list nat;
  draws : Z;
  frames_attempted : Z
}.

Definition on_t (f : Turtle -> Turtle) (s : Locals) : Locals :=
  Build_Locals (f (t s)) (angle s) (length' s) (thickness s) (pen_color s) (fill_color s)
    (swap_signs s) (swap_cases s) (modify_fill s) (stack s) (gif_data s) (draws s)
    (frames_attempted s).
Definition set_angle (v : num) (s : Locals) : Locals :=
  Build_Locals (t s) v (length' s) (thickness s) (pen_color s) (fill_color s)
    (swap_signs s) (swap_cases s) (modify_fill s) (stack s) (gif_data s) (draws s)
    (frames_attempted s).
Definition set_length (v : num) (s : Locals) : Locals :=
  Build_Locals (t s) (angle s) v (thickness s) (pen_color s) (fill_color s)
    (swap_signs s) (swap_cases s) (modify_fill s) (stack s) (gif_data s) (draws s)
    (frames_attempted s).
Definition set_thickness (v : num) (s : Locals) : Locals :=
  Build_Locals (t s) (angle s) (length' s) v (pen_color s) (fill_color s)
    (swap_signs s) (swap_cases s) (modify_fill s) (stack s) (gif_data s) (draws s)
    (frames_attempted s).
Definition set_pen_color (v : OpColor) (s : Locals) : Locals :=
  Build_Locals (t s) (angle s) (length' s) (thickness s) v (fill_color s)
    (swap_signs s) (swap_cases s) (modify_fill s) (stack s) (gif_data s) (draws s)
    (frames_attempted s).
Definition set_fill_color (v : OpColor) (s : Locals) : Locals :=
  Build_Locals (t s) (angle s) (length' s) (thickness s) (pen_color s) v
    (swap_signs s) (swap_cases s) (modify_fill s) (stack s) (gif_data s) (draws s)
    (frames_attempted s).
Definition set_swap_signs (v : bool) (s : Locals) : Locals :=
  Build_Locals (t s) (angle s) (length' s) (thickness s) (pen_color s) (fill_color s)
    v (swap_cases s) (modify_fill s) (stack s) (gif_data s) (draws s)
    (frames_attempted s).
Definition set_swap_cases (v : bool) (s : Locals) : Locals :=
  Build_Locals (t s) (angle s) (length' s) (thickness s) (pen_color s) (fill_color s)
    (swap_signs s) v (modify_fill s) (stack s) (gif_data s) (draws s)
    (frames_attempted s).
Definition set_modify_fill (v : bool) (s : Locals) : Locals :=
  Build_Locals (t s) (angle s) (length' s) (thickness s) (pen_color s) (fill_color s)
    (swap_signs s) (swap_cases s) v (stack s) (gif_data s) (draws s)
    (frames_attempted s).
Definition set_stack (v : list State) (s : Locals) : Locals :=
  Build_Locals (t s) (angle s) (length' s) (thickness s) (pen_color s) (fill_color s)
    (swap_signs s) (swap_cases s) (modify_fill s) v (gif_data s) (draws s)
    (frames_attempted s).
Definition set_gif_data (v : list nat) (s : Locals) : Locals :=
  Build_Locals (t s) (angle s) (length' s) (thickness s) (pen_color s) (fill_color s)
    (swap_signs s) (swap_cases s) (modify_fill s) (stack s) v (draws s)
    (frames_attempted s).
Definition set_draws (v : Z) (s : Locals) : Locals :=
  Build_Locals (t s) (angle s) (length' s) (thickness s) (pen_color s) (fill_color s)
    (swap_signs s) (swap_cases s) (modify_fill s) (stack s) (gif_data s) v
    (frames_attempted s).
Definition set_frames_attempted (v : Z) (s : Locals) : Locals :=
  Build_Locals (t s) (angle s) (length' s) (thickness s) (pen_color s) (fill_color s)
    (swap_signs s) (swap_cases s) (modify_fill s) (stack s) (gif_data s) (draws s) v.

(** What one character does to the loop: go on, [break], or raise. *)
Inductive Signal : Type :=
| Next (s : Locals)
| Break (s : Locals)
| Raise (e : Error).

(** What [run] does: return (here with all its variables, [gif_data]
    among them), or raise. *)
Inductive Result : Type :=
| Returned (s : Locals)
| Raised (e : Error).

Variable cfg : Config.

(** [if gif:] a file name is true unless it is empty. *)
Definition gif_on : bool :=
  match gif cfg with
  | Some name => negb (String.eqb name "")
  | None => false
  end.

(** [save_frame]: the frame is stored under the number [len(gif_data)]. *)
Definition save_frame (s : Locals) : Locals :=
  let s := set_frames_attempted (frames_attempted s + 1) s in
  if Z.of_nat (length (gif_data s)) <? max_frames cfg
  then
    let frame := length (gif_data s) in
    let s := on_t (call (save_eps frame)) s in
    set_gif_data (gif_data s ++ [frame]) s
  else s.

(** [gif_handler]; [%] raises when [draws_per_frame] is 0. *)
Definition gif_handler (s : Locals) : Signal :=
  if gif_on then
    let s := set_draws (draws s + 1) s in
    if draws_per_frame cfg =? 0 then Raise ZeroDivisionError
    else if draws s mod draws_per_frame cfg =? 0 then Next (save_frame s)
    else Next s
  else Next s.

(** [set_pensize]: [t.pensize(max(0, thickness))] *)
Definition set_pensize (s : Locals) : Locals :=
  on_t (call (t_pensize (pymax zero (thickness s)))) s.

(** [set_color] *)
Definition set_color (color : OpColor) (s : Locals) : Locals :=
  if modify_fill s then
    let s := set_modify_fill false s in
    let s := set_fill_color color s in
    match fill_color s with
    | Some c => on_t (call (t_fillcolor c)) s
    | None => s
    end
  else
    let s := set_pen_color color s in
    match pen_color s with
    | Some c => on_t (call (t_pencolor c)) s
    | None => s
    end.

(** The colour [increment_color] hands to [set_color]: [lst] with one
    channel moved by the increment and clamped. *)
Definition incremented (channel : Channel) (decrement : bool) (lst : Color) : Color :=
  let amount := (if decrement then -1 else 1) * get_channel channel (color_increments cfg) in
  set_channel channel (clamp (get_channel channel lst + amount) 0 255) lst.

(** [increment_color] *)
Definition increment_color (channel : Channel) (decrement : bool) (s : Locals) : Locals :=
  let color := if modify_fill s then fill_color s else pen_color s in
  match color with
  | Some lst => set_color (Some (incremented channel decrement lst)) s
  | None => s
  end.

(** The state that ['['] pushes. *)
Definition snapshot (s : Locals) : State :=
  {| s_position := pos (t s);
     s_heading := hdg (t s);
     s_angle := angle s;
     s_length := length' s;
     s_thickness := thickness s;
     s_pen_color := pen_color s;
     s_fill_color := fill_color s;
     s_swap_signs := swap_signs s;
     s_swap_cases := swap_cases s;
     s_modify_fill := modify_fill s |}.

(** The branch of the loop body taken by a character classified as [sym]. *)
Definition dispatch (sym : Symbol) (s : Locals) : Signal :=
  match sym with
  (* Length: *)
  | Upper =>
      let s :=
        if bool_decide (is_Some (pen_color s)) && truth (width (t s))
        then on_t (call t_pendown) s
        else on_t (call t_penup) s in
      let s := on_t (call (t_forward (length' s))) s in
      gif_handler s
  | Lower =>
      let s := on_t (call t_penup) s in
      Next (on_t (call (t_forward (length' s))) s)
  | Underscore => Next (set_length (initial_length cfg) s)
  | Caret => Next (set_length (add (length' s) (length_increment cfg)) s)
  | Percent => Next (set_length (sub (length' s) (length_increment cfg)) s)
  | Star => Next (set_length (mul (length' s) (length_scalar cfg)) s)
  | Slash =>
      match div (length' s) (length_scalar cfg) with
      | Some v => Next (set_length v s)
      | None => Raise ZeroDivisionError
      end
  (* Angle: *)
  | Plus => Next (on_t (call ((if swap_signs s then t_right else t_left) (angle s))) s)
  | Minus => Next (on_t (call ((if swap_signs s then t_left else t_right) (angle s))) s)
  | Amp => Next (set_swap_signs (negb (swap_signs s)) s)
  | Bar => Next (on_t (call (t_right (half (full_circle cfg)))) s)
  | Tilde => Next (set_angle (initial_angle cfg) s)
  | RParen => Next (set_angle (add (angle s) (angle_increment cfg)) s)
  | LParen => Next (set_angle (sub (angle s) (angle_increment cfg)) s)
  (* Thickness: *)
  | Equal => Next (set_pensize (set_thickness (initial_thickness cfg) s))
  | Greater => Next (set_pensize (set_thickness (add (thickness s) (thickness_increment cfg)) s))
  | Less => Next (set_pensize (set_thickness (sub (thickness s) (thickness_increment cfg)) s))
  (* Color: *)
  | Digit n =>
      match colors cfg !! n with
      | Some color => Next (set_color color s)
      | None => Raise IndexError
      end
  | Hash => Next (set_modify_fill true s)
  | Dot => Next (increment_color Red false s)
  | Comma => Next (increment_color Red true s)
  | Colon => Next (increment_color Green false s)
  | Semicolon => Next (increment_color Green true s)
  | Bang => Next (increment_color Blue false s)
  | Question => Next (increment_color Blue true s)
  (* Other: *)
  | LBrace =>
      Next (if bool_decide (is_Some (fill_color s)) then on_t (call t_begin_fill) s else s)
  | RBrace =>
      gif_handler (if bool_decide (is_Some (fill_color s)) then on_t (call t_end_fill) s else s)
  | At =>
      gif_handler (match fill_color s with
                   | Some c => on_t (call (t_dot c)) s
                   | None => s
                   end)
  | Backtick => Next (set_swap_cases (negb (swap_cases s)) s)
  | DQuote => Next (on_t (orient (Some (position cfg)) None) s)
  | Quote => Next (on_t (orient None (Some (heading cfg))) s)
  | Dollar => Next (on_t (call t_clear) (set_stack [] s))
  | LBracket => Next (set_stack (snapshot s :: stack s) s)
  | RBracket =>
      match stack s with
      | state :: rest =>
          let s := set_stack rest s in
          let s := on_t (orient (Some (s_position state)) (Some (s_heading state))) s in
          let s := set_length (s_length state) (set_angle (s_angle state) s) in
          let s := set_modify_fill (s_modify_fill state)
                     (set_swap_cases (s_swap_cases state)
                        (set_swap_signs (s_swap_signs state) s)) in
          Next (set_fill_color (s_fill_color state) (set_pen_color (s_pen_color state) s))
      | [] => Next s
      end
  | Backslash => Break s
  | Other => Next s
  end.

(** One turn of [for c in string]: the case swap, then the chain. *)
Definition step (c : ascii) (s : Locals) : Signal :=
  dispatch (if swap_cases s && isalpha c then swapped c else classify c) s.

(** [for c in string: ...] *)
Fixpoint loop (string : string) (s : Locals) : Signal :=
  match string with
  | EmptyString => Next s
  | String c rest =>
      match step c s with
      | Next s' => loop rest s'
      | Break s' => Break s'
      | Raise e => Raise e
      end
  end.

(** The variables of [run] when the loop is entered: after the first
    [set_pensize], the colours and, with a gif, the first frame. *)
Definition start (t0 : Turtle) (pen fill : OpColor) : Locals :=
  let s :=
    {| t := t0;
       angle := initial_angle cfg;
       length' := initial_length cfg;
       thickness := initial_thickness cfg;
       pen_color := pen;
       fill_color := fill;
       swap_signs := false;
       swap_cases := false;
       modify_fill := false;
       stack := [];
       gif_data := [];
       draws := 0;
       frames_attempted := 0 |} in
  let s := set_pensize s in
  let s := match pen_color s with Some c => on_t (call (t_pencolor c)) s | None => s end in
  let s := match fill_color s with Some c => on_t (call (t_fillcolor c)) s | None => s end in
  if gif_on then save_frame s else s.

(** The end of [run], after the loop. *)
Definition finish (s : Locals) : Result :=
  if gif_on then
    if draws_per_frame cfg =? 0 then Raised ZeroDivisionError
    else if negb (draws s mod draws_per_frame cfg =? 0) then Returned (save_frame s)
    else Returned s
  else Returned s.

(** [run] on the turtle [t0]. *)
Definition run (t0 : Turtle) (string : string) : Result :=
  match colors cfg !! 0%nat, colors cfg !! 1%nat with
  | Some pen, Some fill =>
      match loop string (start t0 pen fill) with
      | Next s => finish s
      | Break s => finish s
      | Raise e => Raised e
      end
  | _, _ => Raised IndexError
  end.

End Interpreter.

(* ================================================================= *)
(** ** A turtle on the rationals

    An instance of the arithmetic and of the geometry on which the
    interpreter can be evaluated: exact rational arithmetic, headings in
    degrees, and moves that are exact along the four axis directions (the
    turtle stays where it is at any other heading). *)

Definition Q_div (a b : Q) : option Q :=
  if Qeq_bool b 0 then None else Some (Qred (a / b)).

#[export] Instance Q_arith : Arith := {|
  num := Q;
  zero := 0%Q;
  add := fun a b => Qred (a + b);
  sub := fun a b => Qred (a - b);
  mul := fun a b => Qred (a * b);
  div := Q_div;
  half := fun a => Qred (a / 2);
  gt := fun a b => negb (Qle_bool a b);
  truth := fun a => negb (Qeq_bool a 0)
|}.

Definition Q_wrap (h : Q) : Q :=
  if Qle_bool 360 h then Qred (h - 360)
  else if Qle_bool 0 h then h else Qred (h + 360).

Definition Q_forward (p : Q * Q) (h d : Q) : Q * Q :=
  if Qeq_bool h 0 then (Qred (p.1 + d), p.2)
  else if Qeq_bool h 90 then (p.1, Qred (p.2 + d))
  else if Qeq_bool h 180 then (Qred (p.1 - d), p.2)
  else if Qeq_bool h 270 then (p.1, Qred (p.2 - d))
  else p.

#[export] Instance Q_geometry : Geometry Q_arith := {|
  after_forward := Q_forward;
  after_left := fun h a => Q_wrap (Qred (h + a));
  after_right := fun h a => Q_wrap (Qred (h - a))
|}.

(** A fresh turtle at the origin, heading 0, pen down, width 1. *)
Definition Q_turtle : Turtle :=
  {| pos := (0%Q, 0%Q); hdg := 0%Q; isdown := true; speed := 0; width := 1%Q; calls := [] |}.

(** The arguments [draw] passes by default (angle 90, length 10,
    thickness 1, the default palette), with the palette, the thickness
    increment, the gif name and the two frame limits left open. *)
Definition Q_config (palette : list OpColor) (thickness_inc : Q) (gif_name : option string)
    (per_frame frames : Z) : Config :=
  {| colors := palette;
     full_circle := 360%Q;
     position := (0%Q, 0%Q);
     heading := 0%Q;
     initial_angle := 90%Q;
     initial_length := 10%Q;
     initial_thickness := 1%Q;
     angle_increment := 15%Q;
     length_increment := 5%Q;
     length_scalar := 2%Q;
     thickness_increment := thickness_inc;
     color_increments := (1, 1, 1);
     gif := gif_name;
     draws_per_frame := per_frame;
     max_frames := frames |}.

Definition default_palette : list OpColor :=
  make_colors (Some (255, 255, 255)) (Some (128, 128, 128)) None.

(** No gif, thickness increment 1. *)
Definition Q_plain : Config := Q_config default_palette 1 None 1 100.

(** No gif, thickness increment 2. *)
Definition Q_thick : Config := Q_config default_palette 2 None 1 100.

(** A gif with a frame every [k] draws and at most [m] frames. *)
Definition Q_gif (k m : Z) : Config := Q_config default_palette 1 (Some "koch.gif") k m.

(** No gif, and no fill colour: [draw] with [fill_color=None]. *)
Definition Q_no_fill : Config :=
  Q_config (make_colors (Some (255, 255, 255)) None None) 1 None 1 100.

(** The state in which [run] enters its loop on the rational turtle. *)
Definition Q_start (cfg : Config) : Locals :=
  start cfg Q_turtle (default None (colors cfg !! 0%nat)) (default None (colors cfg !! 1%nat)).

(* ================================================================= *)
(** ** Notions used in the statements *)

(** [ceil(d / k)] for a positive [k]. *)
Definition ceil_div (d k : Z) : Z := (d + k - 1) / k.

(** Bracket nesting: the depth after [w], read at depth [depth]; [None]
    when a [']'] has no open ['[']. *)
Fixpoint nesting (depth : nat) (w : string) : option nat :=
  match w with
  | EmptyString => Some depth
  | String c rest =>
      if (c =? "[")%char then nesting (S depth) rest
      else if (c =? "]")%char then
        match depth with
        | O => None
        | S d => nesting d rest
        end
      else nesting depth rest
  end.

(** [w] is the inside of a balanced [[...]] region. *)
Definition balanced (w : string) : bool := bool_decide (nesting 0 w = Some 0%nat).

(** [w] has neither the stack-clearing ['$'] nor the escape. *)
Fixpoint keeps_stack (w : string) : bool :=
  match w with
  | EmptyString => true
  | String c rest => negb (c =? "$")%char && negb (c =? "\")%char && keeps_stack rest
  end.

(** The colour-affecting symbols: a palette slot, or a channel moved up
    or down. *)
Inductive ColorOp : Type :=
| Slot (n : nat)
| Shift (channel : Channel) (decrement : bool).

Definition color_op (c : ascii) : option ColorOp :=
  match classify c with
  | Digit n => Some (Slot n)
  | Dot => Some (Shift Red false)
  | Comma => Some (Shift Red true)
  | Colon => Some (Shift Green false)
  | Semicolon => Some (Shift Green true)
  | Bang => Some (Shift Blue false)
  | Question => Some (Shift Blue true)
  | _ => None
  end.

(** The colour a colour-affecting symbol gives to its target, whose
    colour was [old]; [None] stands for a slot the palette does not have. *)
Definition color_after `{Arith} (cfg : Config) (op : ColorOp) (old : OpColor) : option OpColor :=
  match op with
  | Slot n => colors cfg !! n
  | Shift channel decrement => Some (incremented cfg channel decrement <$> old)
  end.

(** A symbol that, with modify-fill set, is used up on the fill colour:
    any palette slot, and a channel move when there is a fill colour. *)
Definition uses_flag (op : ColorOp) (fill : OpColor) : bool :=
  match op with
  | Slot _ => true
  | Shift _ _ => bool_decide (is_Some fill)
  end.

(** A stretch of symbols before a colour-affecting one: it holds no
    colour-affecting symbol and no [']'], which puts modify-fill back to
    what it was at its ['[']. *)
Fixpoint gap (w : string) : bool :=
  match w with
  | EmptyString => true
  | String c rest =>
      match color_op c with
      | Some _ => false
      | None => negb (c =? "]")%char && gap rest
      end
  end.

(** The frame accounting between two characters, with a gif: the frames
    attempted are the first one and one for each full group of
    [draws_per_frame] draws, and the frames stored are the attempted ones
    up to [max_frames]. *)
Definition frames_ok `{Arith} (cfg : Config) (s : Locals) : Prop :=
  0 <= draws s
  /\ frames_attempted s = draws s / draws_per_frame cfg + 1
  /\ Z.of_nat (length (gif_data s)) = Z.min (frames_attempted s) (max_frames cfg).

(** The symbols that count as a draw. *)
Definition qualifying (sym : Symbol) : bool :=
  match sym with
  | Upper | RBrace | At => true
  | _ => false
  end.

(** Reading an outcome: whether the loop goes on, whether [run] returns,
    and the state it does so with ([d] when it does not). *)
Definition goes_on `{Arith} (r : Signal) : bool :=
  match r with
  | Next _ => true
  | _ => false
  end.

Definition state_of `{Arith} (r : Signal) (d : Locals) : Locals :=
  match r with
  | Next s => s
  | Break s => s
  | Raise _ => d
  end.

Definition returns `{Arith} (r : Result) : bool :=
  match r with
  | Returned _ => true
  | Raised _ => false
  end.

Definition returned `{Arith} (r : Result) (d : Locals) : Locals :=
  match r with
  | Returned s => s
  | Raised _ => d
  end.

(** [w] is [max(0, thickness)]: the thickness where it is greater than
    0, and 0 where it is not. *)
Definition max_zero `{Arith} (thickness w : num) : Prop :=
  if gt thickness zero then w = thickness else w = zero.

(** Every [pensize] call in [l] passes the width [w]. *)
Definition pensize_calls_pass `{Arith} (w : num) (l : list Call) : Prop :=
  forall w', In (t_pensize w') l -> w' = w.

(** From [t0] to [t1] calls were made on the turtle, none of them
    [pensize], and the width is the same. *)
Definition silent `{Arith} (t0 t1 : Turtle) : Prop :=
  width t1 = width t0
  /\ exists l, calls t1 = calls t0 ++ l /\ forall w, pensize_calls_pass w l.

(** From [s] to [s'] the thickness was not changed and not applied. *)
Definition quiet `{Arith} (s s' : Locals) : Prop :=
  thickness s' = thickness s /\ silent (t s) (t s').

(* ================================================================= *)
(** ** Colours in range, symbols, draws *)

(** A colour whose three channels are between 0 and 255. *)
Definition color_ok (color : Color) : bool :=
  match color with
  | (r, g, b) =>
      (0 <=? r) && (r <=? 255) && (0 <=? g) && (g <=? 255) && (0 <=? b) && (b <=? 255)
  end.

Definition opcolor_ok (color : OpColor) : bool :=
  match color with
  | Some c => color_ok c
  | None => true
  end.

(** A call that passes a colour passes one in range. *)
Definition call_ok `{Arith} (c : Call) : bool :=
  match c with
  | t_pencolor color => color_ok color
  | t_fillcolor color => color_ok color
  | t_dot color => color_ok color
  | _ => true
  end.

(** A pushed state whose two colours are in range. *)
Definition state_ok `{Arith} (state : State) : bool :=
  opcolor_ok (s_pen_color state) && opcolor_ok (s_fill_color state).


Fixpoint occurs (c : ascii) (w : string) : bool :=
  match w with
  | EmptyString => false
  | String c' rest => (c =? c')%char || occurs c rest
  end.

(** The characters of the first two branches of the chain, [A] to [Z] and
    [a] to [z], and those of the palette branch, [0] to [9]. *)
Definition capital (c : ascii) : bool := (("A" <=? c) && (c <=? "Z"))%char.
Definition small (c : ascii) : bool := (("a" <=? c) && (c <=? "z"))%char.


(** The uppercase letters, ['}'] and ['@'] of [w] before its first escape. *)
Fixpoint qualifying_draws (w : string) : Z :=
  match w with
  | EmptyString => 0
  | String c rest =>
      if (c =? "\")%char then 0
      else (if capital c || (c =? "}")%char || (c =? "@")%char then 1 else 0)
           + qualifying_draws rest
  end.

(** From [t0] to [t1] calls were made on the turtle, each of them
    accepted by [f]. *)
Definition made `{Arith} (f : Call -> bool) (t0 t1 : Turtle) : Prop :=
  exists l, calls t1 = calls t0 ++ l /\ Forall (fun c => f c = true) l.

(** The colours of a state, and of the states on its stack, are in range. *)
Definition tidy `{Arith} (s : Locals) : Prop :=
  opcolor_ok (pen_color s) = true
  /\ opcolor_ok (fill_color s) = true
  /\ Forall (fun state => state_ok state = true) (stack s).

(** The cases are not swapped, in the state and in the states on its stack. *)
Definition unswapped `{Arith} (s : Locals) : Prop :=
  swap_cases s = false /\ Forall (fun state => s_swap_cases state = false) (stack s).

(** Any call but the capture of a frame. *)
Definition not_save_eps `{Arith} (c : Call) : bool :=
  match c with
  | save_eps _ => false
  | _ => true
  end.

(** A token: not empty, and without whitespace. *)
Fixpoint no_space (w : string) : bool :=
  match w with
  | EmptyString => true
  | String c rest => negb (isspace c) && no_space rest
  end.

Definition is_token (w : string) : Prop := w <> "" /\ no_space w = true.

(* ================================================================= *)
(** ** Padding rectangle *)

(** What [get_padding_rect] reads of an image: its size and, for the pixel
    at [x], [y], the alpha channel [data[x, y][3]]. *)
Record Image : Type := {
  im_width : Z;
  im_height : Z;
  alpha : Z -> Z -> Z
}.

(** [range(n)] *)
Definition range (n : Z) : list Z := map Z.of_nat (seq 0 (Z.to_nat n)).

(** The five variables of the two loops. *)
Record Bounds : Type := {
  x_min : Z;
  y_min : Z;
  x_max : Z;
  y_max : Z;
  empty : bool
}.

(** The body of the inner loop. *)
Definition look (image : Image) (y x : Z) (b : Bounds) : Bounds :=
  if negb (alpha image x y =? 0)
  then {| x_min := Z.min (x_min b) x;
          y_min := Z.min (y_min b) y;
          x_max := Z.max (x_max b) x;
          y_max := Z.max (y_max b) y;
          empty := false |}
  else b.

(** The two loops. *)
Definition scan (image : Image) : Bounds :=
  foldl (fun b y => foldl (fun b x => look image y x b) b (range (im_width image)))
    {| x_min := im_width image - 1;
       y_min := im_height image - 1;
       x_max := 0;
       y_max := 0;
       empty := true |}
    (range (im_height image)).

(** [get_padding_rect]: the rectangle [(x_min, y_min, x_max, y_max)]. *)
Definition get_padding_rect (image : Image) (padding : Z) : Z * Z * Z * Z :=
  let b := scan image in
  let b :=
    if empty b
    then {| x_min := im_width image / 2;
            y_min := im_height image / 2;
            x_max := im_width image / 2;
            y_max := im_height image / 2;
            empty := true |}
    else b in
  let x_min_ := x_min b - padding in
  let y_min_ := y_min b - padding in
  let x_max_ := Z.max (x_max b + padding) x_min_ + 1 in
  let y_max_ := Z.max (y_max b + padding) y_min_ + 1 in
  (x_min_, y_min_, x_max_, y_max_).

(** What the loops know after the pixels of [l]: every pixel of [l] that
    is not transparent is within the bounds; and the bounds are still the
    first ones and empty, or each is the coordinate of such a pixel. *)
Definition scanned (image : Image) (l : list (Z * Z)) (b0 b : Bounds) : Prop :=
  (forall x y, In (x, y) l -> alpha image x y <> 0 ->
               empty b = false
               /\ x_min b <= x <= x_max b /\ y_min b <= y <= y_max b)
  /\ (empty b = true -> b = b0)
  /\ (empty b = false ->
      (exists y, In (x_min b, y) l /\ alpha image (x_min b) y <> 0)
      /\ (exists y, In (x_max b, y) l /\ alpha image (x_max b) y <> 0)
      /\ (exists x, In (x, y_min b) l /\ alpha image x (y_min b) <> 0)
      /\ (exists x, In (x, y_max b) l /\ alpha image x (y_max b) <> 0)).

(** A pixel of the image that is not fully transparent. *)
Definition opaque (image : Image) (x y : Z) : Prop :=
  0 <= x < im_width image /\ 0 <= y < im_height image /\ alpha image x y <> 0.

(* ================================================================= *)
(** ** The frames of a gif *)

Section SaveGif.
Context {Img Rect : Type}.

(** [save_png] on the eps file of a stored frame, given the rectangle
    found so far: the image, and the rectangle it used. *)
Variable save_png : nat -> option Rect -> Img * option Rect.

(** The [for] loop of [save_gif] from index [i] on: [rect] is set by the
    first turn and the images are appended. *)
Fixpoint render (i : nat) (data : list nat) (rect : option Rect) (images : list Img)
  : list Img :=
  match data with
  | [] => images
  | eps :: rest =>
      let '(image, r) := save_png eps rect in
      render (S i) rest (match i with O => r | S _ => rect end) (images ++ [image])
  end.

(** The slice [images[-2:0:-1]]: from the last but one down to the second. *)
Definition back_slice (images : list Img) : list Img :=
  omap (fun i => images !! i) (rev (seq 1 (length images - 2))).

(** The list [frames] that [save_gif] saves, or the exception of
    [images[0]] on no image and of [//] on a duration of 0. *)
Definition save_gif_frames (gif_data : list nat) (duration pause defer : Z)
    (reverse alternate : bool) : Error + list Img :=
  let images := render 0 (rev gif_data) None [] in
  let images := if reverse then images else rev images in
  let images := if alternate then images ++ back_slice images else images in
  match head images, last images with
  | Some first, Some final =>
      if duration =? 0 then inl ZeroDivisionError
      else inr (replicate (Z.to_nat (defer / duration)) first
                ++ images
                ++ replicate (Z.to_nat (pause / duration)) final)
  | _, _ => inl IndexError
  end.

End SaveGif.

(** The images of the frames in the order of their capture: the last
    frame is the one [save_png] finds the rectangle on, and the frames
    before it are given that rectangle. *)
Definition in_order {Img Rect : Type} (save_png : nat -> option Rect -> Img * option Rect)
    (earlier : list nat) (final : nat) : list Img :=
  map (fun eps => (save_png eps (save_png final None).2).1) earlier
  ++ [(save_png final None).1].

(* ================================================================= *)
(** ** The package functions [init], [draw] and [wait]

    The five module variables and what the three functions do to them.
    What they do outside the module is a list of events: a message
    printed by [message], the window set up by [init], a drawing ([run]
    called by [draw] on its turtle and its string, with or without files
    to write), and the main loop entered by [wait].  The messages of the
    png and gif export, which tell how the export went, are not among
    the events. *)

Record Globals : Type := {
  DRAW_NUMBER : Z;
  INITIALIZED : bool;
  WAITED : bool;
  SILENT : bool;
  GHOSTSCRIPT : string
}.

(** The module as it is loaded. *)
Definition loaded : Globals :=
  {| DRAW_NUMBER := 0; INITIALIZED := false; WAITED := false; SILENT := false;
     GHOSTSCRIPT := "" |}.

Inductive Message : Type :=
| did_not_init                       (* Did not init() because wait() was already called. *)
| did_not_draw                       (* Did not draw() because wait() was already called. *)
| guessed_ghostscript (path : string).

Inductive Event : Type :=
| printed (m : Message)
| window_setup
| drawing (number : Z) (string : string) (export : bool)
| main_loop (exit_on_click : bool).

(** [message]: printed unless silenced. *)
Definition message (g : Globals) (m : Message) : list Event :=
  if SILENT g then [] else [printed m].

(** [init], by its arguments [ghostscript] and [silent]. *)
Definition init (ghostscript : option string) (silent : bool) (g : Globals)
  : Globals * list Event :=
  let g := Build_Globals (DRAW_NUMBER g) (INITIALIZED g) (WAITED g) silent (GHOSTSCRIPT g) in
  if WAITED g then (g, message g did_not_init)
  else
    (Build_Globals (DRAW_NUMBER g) true (WAITED g) (SILENT g) (default "" ghostscript),
     [window_setup]).

(** The truth value of an optional file name. *)
Definition named (name : option string) : bool :=
  match name with
  | Some n => negb (String.eqb n "")
  | None => false
  end.

(** [wait] *)
Definition wait (exit_on_click skip_init : bool) (g : Globals) : Globals * list Event :=
  let '(g, setup) :=
    if negb skip_init && negb (INITIALIZED g) then init None false g else (g, []) in
  if negb (WAITED g)
  then (Build_Globals (DRAW_NUMBER g) (INITIALIZED g) true (SILENT g) (GHOSTSCRIPT g),
        setup ++ [main_loop exit_on_click])
  else (g, setup).

Section Package.
Context {A : Arith} {G : Geometry A}.

(** The arguments of [draw] that decide the string, the flags and the
    run of the turtle. *)
Record DrawArgs : Type := {
  a_start : string;
  a_rules : string + gmap string string;
  a_level : Z;
  a_angle : num;
  a_length : num;
  a_thickness : num;
  a_color : option (Z * Z * Z);
  a_fill_color : option (Z * Z * Z);
  a_colors : option (list (option (Z * Z * Z)));
  a_position : num * num;
  a_heading : num;
  a_angle_increment : num;
  a_length_increment : num;
  a_length_scalar : num;
  a_thickness_increment : num;
  a_red_increment : Z;
  a_green_increment : Z;
  a_blue_increment : Z;
  a_scale : num;
  a_prefix : string;
  a_suffix : string;
  a_full_circle : num;
  a_skip_init : bool;
  a_png : option string;
  a_gif : option string;
  a_draws_per_frame : Z;
  a_max_frames : Z
}.

(** The turtle that [draw] makes: [turtle.Turtle()] after [degrees],
    [speed], [shape] and [showturtle] or [hideturtle] with the arguments
    of [draw]. *)
Variable new_turtle : DrawArgs -> Turtle.

(** What a call of [draw] comes to: it returns [None] or the string and
    the turtle, or it raises. *)
Inductive Outcome : Type :=
| Return (value : option (string * Turtle))
| Throw (e : Error).

(** The string [draw] runs its turtle on. *)
Definition draw_string (a : DrawArgs) : string :=
  (a_prefix a ++ lsystem (a_start a) (make_rules (a_rules a)) (a_level a) ++ a_suffix a)%string.

(** [position = scale * position[0], scale * position[1]] *)
Definition draw_position (a : DrawArgs) : num * num :=
  (mul (a_scale a) (a_position a).1, mul (a_scale a) (a_position a).2).

(** The turtle as [draw] hands it to [run]: made, then oriented. *)
Definition draw_turtle (a : DrawArgs) : Turtle :=
  orient (Some (draw_position a)) (Some (a_heading a)) (new_turtle a).

(** The arguments [draw] passes to [run]. *)
Definition run_config (a : DrawArgs) : Config :=
  {| colors := make_colors (a_color a) (a_fill_color a) (a_colors a);
     full_circle := a_full_circle a;
     position := draw_position a;
     heading := a_heading a;
     initial_angle := a_angle a;
     initial_length := mul (a_scale a) (a_length a);
     initial_thickness := mul (a_scale a) (a_thickness a);
     angle_increment := a_angle_increment a;
     length_increment := mul (a_scale a) (a_length_increment a);
     length_scalar := mul (a_scale a) (a_length_scalar a);
     thickness_increment := mul (a_scale a) (a_thickness_increment a);
     color_increments := (a_red_increment a, a_green_increment a, a_blue_increment a);
     gif := a_gif a;
     draws_per_frame := a_draws_per_frame a;
     max_frames := a_max_frames a |}.

(** [draw].  [guess] is what [guess_ghostscript] finds.  [run] is called
    outside any [try]: what it raises, [draw] raises, the module
    variables being by then what they are. *)
Definition draw (guess : string) (a : DrawArgs) (g : Globals)
  : Globals * list Event * Outcome :=
  let g := Build_Globals (DRAW_NUMBER g + 1) (INITIALIZED g) (WAITED g) (SILENT g)
             (GHOSTSCRIPT g) in
  if WAITED g then (g, message g did_not_draw, Return None)
  else
    let '(g, setup) :=
      if negb (a_skip_init a) && negb (INITIALIZED g) then init None false g else (g, []) in
    let t0 := draw_turtle a in
    let string := draw_string a in
    let export := named (a_png a) || named (a_gif a) in
    let '(g, guessing) :=
      if export && String.eqb (GHOSTSCRIPT g) ""
      then
        let g := Build_Globals (DRAW_NUMBER g) (INITIALIZED g) (WAITED g) (SILENT g) guess in
        (g, message g (guessed_ghostscript guess))
      else (g, []) in
    let events := setup ++ guessing ++ [drawing (DRAW_NUMBER g) string export] in
    match run (run_config a) t0 string with
    | Returned s => (g, events, Return (Some (string, t s)))
    | Raised e => (g, events, Throw e)
    end.

(** A call of one of the three functions. *)
Inductive Api : Type :=
| call_init (ghostscript : option string) (silent : bool)
| call_draw (a : DrawArgs)
| call_wait (exit_on_click skip_init : bool).

(** These calls made one after the other, as at the prompt: a [draw]
    that raises ends there, and the next call finds the module as that
    [draw] left it. *)
Fixpoint session (guess : string) (calls : list Api) (g : Globals) : Globals * list Event :=
  match calls with
  | [] => (g, [])
  | c :: rest =>
      let '(g1, events) :=
        match c with
        | call_init ghostscript silent => init ghostscript silent g
        | call_draw a => let '(g1, events, _) := draw guess a g in (g1, events)
        | call_wait exit_on_click skip_init => wait exit_on_click skip_init g
        end in
      let '(g2, more) := session guess rest g1 in
      (g2, events ++ more)
  end.

Definition is_draw (c : Api) : bool :=
  match c with call_draw _ => true | _ => false end.

Definition is_wait (c : Api) : bool :=
  match c with call_wait _ _ => true | _ => false end.

End Package.

Definition is_printed (e : Event) : bool :=
  match e with printed _ => true | _ => false end.

Definition is_main_loop (e : Event) : bool :=
  match e with main_loop _ => true | _ => false end.

(** The numbers of the drawings among the events, in order. *)
Definition drawing_numbers (events : list Event) : list Z :=
  omap (fun e => match e with drawing n _ _ => Some n | _ => None end) events.

(* ================================================================= *)
(** ** Samples *)

(** An image of 4 by 3 pixels with one opaque pixel, at [(2, 1)]. *)
Definition one_pixel : Image :=
  {| im_width := 4; im_height := 3;
     alpha := fun x y => if (x =? 2) && (y =? 1) then 255 else 0 |}.

(** An image of 4 by 2 pixels, all of them transparent. *)
Definition clear_image : Image :=
  {| im_width := 4; im_height := 2; alpha := fun _ _ => 0 |}.

(** A [save_png] that tells what it was asked: the image is the number of
    the frame with the rectangle it was given, and the rectangle it
    returns is the one given or, without one, the one of that frame. *)
Definition told_save_png (eps : nat) (rect : option nat) : (nat * option nat) * option nat :=
  ((eps, rect), Some (default eps rect)).

(** The arguments [draw] has by default, at level 1 and with a gif. *)
Definition koch_args : DrawArgs :=
  {| a_start := "F";
     a_rules := inl "F F+F-F-F+F";
     a_level := 1;
     a_angle := 90%Q;
     a_length := 10%Q;
     a_thickness := 1%Q;
     a_color := Some (255, 255, 255);
     a_fill_color := Some (128, 128, 128);
     a_colors := None;
     a_position := (0%Q, 0%Q);
     a_heading := 0%Q;
     a_angle_increment := 15%Q;
     a_length_increment := 5%Q;
     a_length_scalar := 2%Q;
     a_thickness_increment := 1%Q;
     a_red_increment := 1;
     a_green_increment := 1;
     a_blue_increment := 1;
     a_scale := 1%Q;
     a_prefix := "";
     a_suffix := "";
     a_full_circle := 360%Q;
     a_skip_init := false;
     a_png := None;
     a_gif := Some "koch.gif";
     a_draws_per_frame := 1;
     a_max_frames := 100 |}.


(** The turtle [draw] makes, on the rationals. *)
Definition Q_new_turtle (a : DrawArgs) : Turtle := Q_turtle.

(** The module after [wait()] on the loaded module. *)
Definition waited_module : Globals := (wait true false loaded).1.

(** A program: two drawings, [wait], and three calls that come too late. *)
Definition late_program : list Api :=
  [call_draw koch_args; call_draw koch_args; call_wait true false;
   call_draw koch_args; call_init (Some "gs") true; call_wait true false].

(* ================================================================= *)
(** * Theorems *)

(** ** Expansion *)

Lemma string_app_assoc (a b c : string) :
  ((a ++ b) ++ c)%string = (a ++ (b ++ c))%string.
Proof.
  induction a as [|x a IH]; [reflexivity|].
  change (String x ((a ++ b) ++ c)%string = String x (a ++ (b ++ c))%string).
  now rewrite IH.
Qed.

Lemma string_app_nil (a : string) : (a ++ "")%string = a.
Proof.
  induction a as [|x a IH]; [reflexivity|].
  change (String x (a ++ "")%string = String x a). now rewrite IH.
Qed.

Lemma join_rules_app (rules : gmap string string) (s1 s2 : string) :
  join_rules rules (s1 ++ s2)%string
  = (join_rules rules s1 ++ join_rules rules s2)%string.
Proof.
  induction s1 as [|c s1 IH]; [reflexivity|].
  change (String c s1 ++ s2)%string with (String c (s1 ++ s2)%string).
  cbn [join_rules]. now rewrite IH, string_app_assoc.
Qed.

(** The loop applies its passes from the inside out: one more turn is one
    more pass over what the turns before it produced. *)
Lemma lsystem_loop_succ (n : nat) (rules : gmap string string) (start : string) :
  lsystem_loop (S n) rules start = join_rules rules (lsystem_loop n rules start).
Proof.
  revert start. induction n as [|n IH]; intros start; [reflexivity|].
  change (lsystem_loop (S (S n)) rules start)
    with (lsystem_loop (S n) rules (join_rules rules start)).
  rewrite IH. reflexivity.
Qed.

(** C3.  At level 0 [lsystem] returns the start string.  Level [n + 1] is
    one substitution pass over the level [n] string, and so level 2 is the
    pass applied to level 1.  A pass is simultaneous: it maps the empty
    string to itself, replaces a character by its rule if it has one and
    by itself otherwise, and the pass of a concatenation is the
    concatenation of the passes, so that what one character is replaced
    by is never read again in the same pass. *)
Theorem lsystem_passes (start : string) (rules : gmap string string) :
  lsystem start rules 0 = start
  /\ (forall n : nat,
        lsystem start rules (Z.of_nat (S n))
        = join_rules rules (lsystem start rules (Z.of_nat n)))
  /\ lsystem start rules 2 = join_rules rules (lsystem start rules 1)
  /\ join_rules rules "" = ""
  /\ (forall (c : ascii) (r : string),
        rules !! String c "" = Some r -> join_rules rules (String c "") = r)
  /\ (forall c : ascii,
        rules !! String c "" = None -> join_rules rules (String c "") = String c "")
  /\ (forall s1 s2 : string,
        join_rules rules (s1 ++ s2)%string
        = (join_rules rules s1 ++ join_rules rules s2)%string).
Proof.
  unfold lsystem. split_and!.
  - reflexivity.
  - intros n. rewrite !Nat2Z.id. apply lsystem_loop_succ.
  - change (Z.to_nat 2) with 2%nat. change (Z.to_nat 1) with 1%nat.
    apply lsystem_loop_succ.
  - reflexivity.
  - intros c r Hr. cbn [join_rules]. unfold rules_get. rewrite Hr.
    apply string_app_nil.
  - intros c Hc. cbn [join_rules]. unfold rules_get. rewrite Hc. reflexivity.
  - apply join_rules_app.
Qed.

(** The witness of C3: the rule of the Koch curve of the defaults. *)
Lemma lsystem_passes_witness :
  lsystem "F" (dict [("F", "F+F-F-F+F")]) 0 = "F"
  /\ lsystem "F" (dict [("F", "F+F-F-F+F")]) 1 = "F+F-F-F+F"
  /\ lsystem "F" (dict [("F", "F+F-F-F+F")]) 2
     = join_rules (dict [("F", "F+F-F-F+F")]) (lsystem "F" (dict [("F", "F+F-F-F+F")]) 1).
Proof.
  pose proof (lsystem_passes "F" (dict [("F", "F+F-F-F+F")]))
    as (H0 & Hsucc & H2 & _ & Hrule & _).
  split; [exact H0|]. split; [|exact H2].
  transitivity (join_rules (dict [("F", "F+F-F-F+F")])
                  (lsystem "F" (dict [("F", "F+F-F-F+F")]) (Z.of_nat 0)));
    [exact (Hsucc 0%nat)|].
  change (Z.of_nat 0) with 0. rewrite H0.
  apply (Hrule "F"%char "F+F-F-F+F"). vm_compute. reflexivity.
Defined.

(** C10.  A negative level runs no pass: [lsystem] returns the start
    string. *)
Theorem lsystem_negative_level (start : string) (rules : gmap string string) (level : Z) :
  level < 0 -> lsystem start rules level = start.
Proof.
  intros Hneg. unfold lsystem.
  replace (Z.to_nat level) with 0%nat by lia. reflexivity.
Qed.

Lemma lsystem_negative_level_witness :
  -3 < 0 /\ lsystem "F" (dict [("F", "F+F-F-F+F")]) (-3) = "F".
Proof.
  split; [lia | apply (lsystem_negative_level "F" (dict [("F", "F+F-F-F+F")]) (-3)); lia].
Defined.

(** ** Rules *)

(** Zipping the even slice with the odd slice pairs the tokens two by two. *)
Lemma zip_slices (l : list string) :
  zip (every_other l) (every_other (tail l)) = pair_by_position l.
Proof.
  induction l as [l IH] using (induction_ltof1 _ (@length string)).
  unfold ltof in IH.
  destruct l as [|a [|b rest]]; [reflexivity | reflexivity |].
  specialize (IH rest ltac:(simpl; lia)).
  destruct rest as [|c rest']; [reflexivity|].
  change ((a, b) :: zip (every_other (c :: rest')) (every_other (tail (c :: rest')))
          = (a, b) :: pair_by_position (c :: rest')).
  now rewrite IH.
Qed.

Lemma pair_by_position_unpaired (tokens : list string) (x : string) :
  Nat.Even (length tokens) -> pair_by_position (tokens ++ [x]) = pair_by_position tokens.
Proof.
  induction tokens as [tokens IH] using (induction_ltof1 _ (@length string)).
  unfold ltof in IH. intros Hev.
  destruct tokens as [|a [|b rest]]; [reflexivity | |].
  - destruct Hev as [k Hk]. simpl in Hk. lia.
  - simpl. f_equal. apply IH; [simpl; lia|].
    destruct Hev as [k Hk]. simpl in Hk. exists (k - 1)%nat. lia.
Qed.

Lemma pair_by_position_flat (tokens : list string) :
  Nat.Even (length tokens) ->
  flat_map (fun p => [p.1; p.2]) (pair_by_position tokens) = tokens.
Proof.
  induction tokens as [tokens IH] using (induction_ltof1 _ (@length string)).
  unfold ltof in IH. intros Hev.
  destruct tokens as [|a [|b rest]]; [reflexivity | |].
  - destruct Hev as [k Hk]. simpl in Hk. lia.
  - simpl. do 2 f_equal. apply IH; [simpl; lia|].
    destruct Hev as [k Hk]. simpl in Hk. exists (k - 1)%nat. lia.
Qed.

(** The entries of [dict(pairs)]: a key has the value of the last pair
    with that key. *)
Lemma dict_lookup (pairs : list (string * string)) (k v : string) :
  dict pairs !! k = Some v
  <-> exists i : nat,
        pairs !! i = Some (k, v)
        /\ forall (j : nat) (v' : string), (i < j)%nat -> pairs !! j <> Some (k, v').
Proof.
  unfold dict. induction pairs as [|[k' v'] pairs IH] using rev_ind.
  - cbn. rewrite lookup_empty. split; [discriminate|].
    intros (i & H & _). now rewrite lookup_nil in H.
  - rewrite foldl_snoc. cbn [fst snd]. destruct (decide (k' = k)) as [->|Hne].
    + rewrite lookup_insert_eq. split.
      * intros [= ->]. exists (length pairs). split.
        -- now apply list_lookup_middle.
        -- intros j v'' Hj Hlook. apply lookup_lt_Some in Hlook.
           rewrite length_app in Hlook. cbn in Hlook. lia.
      * intros (i & Hi & Hlast).
        destruct (decide (i = length pairs)) as [->|Hi'].
        -- rewrite list_lookup_middle in Hi by reflexivity. congruence.
        -- exfalso. pose proof (lookup_lt_Some _ _ _ Hi) as Hlt.
           rewrite length_app in Hlt. cbn in Hlt.
           apply (Hlast (length pairs) v'); [lia|]. now apply list_lookup_middle.
    + rewrite lookup_insert_ne by exact Hne. rewrite IH. split.
      * intros (i & Hi & Hlast). exists i. split; [now apply lookup_app_l_Some|].
        intros j v'' Hj Hlook. apply lookup_app_Some in Hlook as [Hlook|[_ Hlook]].
        -- now apply (Hlast j v'' Hj).
        -- destruct (j - length pairs)%nat; cbn in Hlook; [congruence | discriminate].
      * intros (i & Hi & Hlast). apply lookup_app_Some in Hi as [Hi|[_ Hi]].
        -- exists i. split; [exact Hi|]. intros j v'' Hj Hlook.
           apply (Hlast j v'' Hj). now apply lookup_app_l_Some.
        -- destruct (i - length pairs)%nat; cbn in Hi; [congruence | discriminate].
Qed.

(** The pair of number [i] is made of the tokens [2 * i] and [2 * i + 1]. *)
Lemma pair_by_position_lookup (tokens : list string) :
  forall (i : nat) (k v : string),
    pair_by_position tokens !! i = Some (k, v)
    <-> tokens !! (2 * i)%nat = Some k /\ tokens !! (2 * i + 1)%nat = Some v.
Proof.
  induction tokens as [tokens IH] using (induction_ltof1 _ (@length string)).
  unfold ltof in IH. intros i k v.
  destruct tokens as [|a [|b rest]].
  - cbn. rewrite !lookup_nil. split; [discriminate | intros [H _]; discriminate].
  - cbn [pair_by_position]. rewrite lookup_nil. split; [discriminate|].
    intros [_ H]. replace (2 * i + 1)%nat with (S (2 * i)) in H by lia.
    cbn in H. rewrite ?lookup_nil in H. discriminate H.
  - cbn [pair_by_position]. destruct i as [|i].
    + cbn. split; [intros [= -> ->]; auto | intros [[= ->] [= ->]]; reflexivity].
    + replace (2 * S i)%nat with (S (S (2 * i))) by lia.
      replace (S (S (2 * i)) + 1)%nat with (S (S (2 * i + 1))) by lia.
      cbn [lookup list_lookup]. apply IH. cbn. lia.
Qed.

(** C7.  When the rule string splits into an odd number of tokens, that
    is an even number of tokens followed by one more, the dictionary of
    [make_rules] gives a symbol [k] the replacement [v] exactly when [k]
    and [v] are a pair by position among the tokens before the last
    (the tokens [2 * i] and [2 * i + 1]) and no later pair has the symbol
    [k].  The last token is in no pair: the dictionary is the one of the
    tokens without it.  [make_rules] has no other outcome: it raises
    nothing. *)
Theorem make_rules_odd_tokens (s : string) (tokens : list string) (x : string) :
  split s = tokens ++ [x] ->
  Nat.Even (length tokens) ->
  (forall k v : string,
      make_rules (inl s) !! k = Some v
      <-> exists i : nat,
            tokens !! (2 * i)%nat = Some k
            /\ tokens !! (2 * i + 1)%nat = Some v
            /\ forall j : nat, (i < j)%nat -> tokens !! (2 * j)%nat <> Some k)
  /\ (forall s' : string, split s' = tokens -> make_rules (inl s') = make_rules (inl s)).
Proof.
  intros Hs Hev.
  assert (Hrules : make_rules (inl s) = dict (pair_by_position tokens)).
  { unfold make_rules. rewrite Hs, zip_slices.
    now rewrite pair_by_position_unpaired by exact Hev. }
  split.
  - intros k v. rewrite Hrules, dict_lookup. split.
    + intros (i & Hi & Hlast). exists i.
      apply pair_by_position_lookup in Hi as [Hk Hv]. split_and!; [exact Hk | exact Hv |].
      intros j Hj Hkj.
      assert (Hlt : (2 * j + 1 < length tokens)%nat).
      { apply lookup_lt_Some in Hkj. destruct Hev as [n Hn]. lia. }
      destruct (lookup_lt_is_Some_2 tokens (2 * j + 1)%nat Hlt) as [v' Hv'].
      apply (Hlast j v' Hj). apply pair_by_position_lookup. auto.
    + intros (i & Hk & Hv & Hlast). exists i. split.
      * apply pair_by_position_lookup. auto.
      * intros j v' Hj Hlook. apply pair_by_position_lookup in Hlook as [Hkj _].
        now apply (Hlast j Hj).
  - intros s' Hs'. rewrite Hrules. unfold make_rules. now rewrite Hs', zip_slices.
Qed.

(** C7 on the example of the specification: [F] has its replacement and
    the last token [X] is not a symbol of the dictionary, which is the one
    of the rule string without [X]. *)
Lemma make_rules_odd_tokens_witness :
  split "F F+F-F-F+F X" = ["F"; "F+F-F-F+F"] ++ ["X"]
  /\ make_rules (inl "F F+F-F-F+F X") !! "F" = Some "F+F-F-F+F"
  /\ make_rules (inl "F F+F-F-F+F X") !! "X" = None
  /\ make_rules (inl "F F+F-F-F+F") = make_rules (inl "F F+F-F-F+F X").
Proof.
  assert (Hs : split "F F+F-F-F+F X" = ["F"; "F+F-F-F+F"] ++ ["X"]) by (vm_compute; reflexivity).
  assert (Hev : Nat.Even (length ["F"; "F+F-F-F+F"])) by (exists 1%nat; reflexivity).
  destruct (make_rules_odd_tokens "F F+F-F-F+F X" ["F"; "F+F-F-F+F"] "X" Hs Hev)
    as [Hlook Hdrop].
  split_and!.
  - exact Hs.
  - apply Hlook. exists 0%nat. split_and!; [reflexivity | reflexivity |].
    intros j Hj H. apply lookup_lt_Some in H. cbn in H. lia.
  - destruct (make_rules (inl "F F+F-F-F+F X") !! "X") as [v|] eqn:E; [|reflexivity].
    apply Hlook in E as (i & Hk & _). exfalso.
    destruct i as [|i]; [discriminate Hk|].
    apply lookup_lt_Some in Hk. cbn in Hk. lia.
  - apply Hdrop. vm_compute. reflexivity.
Defined.

(** The first example of the specification. *)
Example make_rules_koch :
  make_rules (inl "F F+F-F-F+F") = {[ "F" := "F+F-F-F+F" ]}.
Proof. vm_compute. reflexivity. Qed.

(** ** Palette *)

(** Zipping with [range(n)] keeps the first [n] entries. *)
Lemma map_zip_range {X Y : Type} (f : X -> Y) (l : list X) (a n : nat) :
  map (fun c_ => f c_.1) (zip l (seq a n)) = map f (take n l).
Proof.
  revert a n. induction l as [|x l IH]; intros a [|n]; try reflexivity.
  simpl. f_equal. apply IH.
Qed.

Lemma make_colors_given (color fill_color : option (Z * Z * Z))
    (colors : list (option (Z * Z * Z))) :
  make_colors color fill_color (Some colors)
  = map conform_color (take 10 colors)
    ++ map Some (drop (length (take 10 colors)) DEFAULT_COLORS).
Proof.
  unfold make_colors. change (length DEFAULT_COLORS) with 10%nat.
  rewrite map_zip_range, length_map. reflexivity.
Qed.

(** C5.  Without [colors] the palette is the conformed [color], the
    conformed [fill_color] and then slots 2 to 9 of the default sequence.
    With [colors] the palette has ten slots: the first ten supplied
    entries, conformed, in order; behind them the default sequence from
    the same index on; and [color] and [fill_color] play no part. *)
Theorem make_colors_palette (color fill_color : option (Z * Z * Z)) :
  make_colors color fill_color None
  = [ conform_color color; conform_color fill_color;
      Some (255, 0, 0); Some (255, 128, 0); Some (255, 255, 0); Some (0, 255, 0);
      Some (0, 255, 255); Some (0, 0, 255); Some (128, 0, 255); Some (255, 0, 255) ]
  /\ (forall i : nat,
        (2 <= i)%nat ->
        make_colors color fill_color None !! i = Some <$> DEFAULT_COLORS !! i)
  /\ forall colors : list (option (Z * Z * Z)),
       let palette := make_colors color fill_color (Some colors) in
       palette = map conform_color (take 10 colors)
                 ++ map Some (drop (length (take 10 colors)) DEFAULT_COLORS)
       /\ length palette = 10%nat
       /\ (forall (i : nat) (c : option (Z * Z * Z)),
             (i < 10)%nat -> colors !! i = Some c -> palette !! i = Some (conform_color c))
       /\ (forall i : nat,
             (length colors <= i)%nat -> palette !! i = Some <$> DEFAULT_COLORS !! i)
       /\ (forall color' fill_color' : option (Z * Z * Z),
             make_colors color' fill_color' (Some colors) = palette).
Proof.
  split_and!.
  - reflexivity.
  - intros i Hi. do 2 (destruct i as [|i]; [lia|]).
    unfold make_colors. cbn [lookup list_lookup].
    change (map Some (drop 2 DEFAULT_COLORS) !! i = Some <$> drop 2 DEFAULT_COLORS !! i).
    apply list_lookup_fmap.
  - intros colors palette. subst palette. rewrite make_colors_given.
    assert (Hlen : length (take 10 colors) = (length colors `min` 10)%nat).
    { rewrite length_take. lia. }
    split_and!.
    + reflexivity.
    + rewrite length_app, !length_map, length_drop. change (length DEFAULT_COLORS) with 10%nat.
      lia.
    + intros i c Hi Hc. rewrite lookup_app_l.
      * rewrite list_lookup_fmap, lookup_take_lt by lia. now rewrite Hc.
      * rewrite length_map, Hlen. apply lookup_lt_Some in Hc. lia.
    + intros i Hi. rewrite lookup_app_r by (rewrite length_map, Hlen; lia).
      rewrite length_map, list_lookup_fmap, lookup_drop, Hlen.
      destruct (decide (length colors <= 10)%nat) as [Hle|Hgt].
      * replace (length colors `min` 10 + (i - length colors `min` 10))%nat with i by lia.
        reflexivity.
      * rewrite !(lookup_ge_None_2 DEFAULT_COLORS); [reflexivity | |];
          change (length DEFAULT_COLORS) with 10%nat; lia.
    + intros color' fill_color'. apply make_colors_given.
Qed.

(** The witness of C5: two supplied entries, one out of range and one
    absent, and a colour and a fill colour that are not used. *)
Lemma make_colors_palette_witness :
  make_colors (Some (1, 2, 3)) (Some (4, 5, 6)) (Some [Some (300, -2, 4); None]) !! 0%nat
  = Some (Some (255, 0, 4))
  /\ make_colors (Some (1, 2, 3)) (Some (4, 5, 6)) (Some [Some (300, -2, 4); None]) !! 2%nat
     = Some (Some (255, 0, 0))
  /\ make_colors (Some (10, 10, 10)) None None !! 2%nat = Some (Some (255, 0, 0)).
Proof.
  destruct (make_colors_palette (Some (1, 2, 3)) (Some (4, 5, 6))) as (_ & _ & H).
  destruct (H [Some (300, -2, 4); None]) as (_ & _ & Hin & Hout & _).
  destruct (make_colors_palette (Some (10, 10, 10)) None) as (_ & Hdef & _).
  split_and!.
  - apply (Hin 0%nat (Some (300, -2, 4))); [lia | reflexivity].
  - apply (Hout 2%nat). simpl. lia.
  - apply (Hdef 2%nat). lia.
Defined.

(** The palette example of the specification. *)
Example make_colors_example :
  make_colors (Some (10, 10, 10)) None None
  = Some (10, 10, 10) :: None :: map Some (drop 2 DEFAULT_COLORS).
Proof. reflexivity. Qed.

(** ** Characters *)

(** The four symbols that touch the stack or leave the loop are reached
    by their own character only, with or without the case swap. *)
Lemma classify_stack_symbols (b : bool) (c : ascii) :
  match (if b && isalpha c then swapped c else classify c) with
  | LBracket => c = "["%char
  | RBracket => c = "]"%char
  | Dollar => c = "$"%char
  | Backslash => c = "\"%char
  | _ => True
  end.
Proof.
  destruct b; destruct c as [[] [] [] [] [] [] [] []]; vm_compute; first [exact I | reflexivity].
Qed.

(** A colour-affecting symbol is not a letter. *)
Lemma color_op_not_alpha (c : ascii) (op : ColorOp) :
  color_op c = Some op -> isalpha c = false.
Proof.
  destruct c as [[] [] [] [] [] [] [] []]; vm_compute; congruence.
Qed.

(** A character that is neither colour-affecting nor [']'] reaches no
    colour branch and not the branch of [']'], with or without the case
    swap, and the branch of ['#'] only when it is ['#']. *)
Lemma gap_symbol (b : bool) (c : ascii) :
  color_op c = None -> c <> "]"%char ->
  match (if b && isalpha c then swapped c else classify c) with
  | Digit _ | Dot | Comma | Colon | Semicolon | Bang | Question | RBracket => False
  | Hash => (c =? "#")%char = true
  | _ => (c =? "#")%char = false
  end.
Proof.
  destruct b; destruct c as [[] [] [] [] [] [] [] []]; vm_compute; intros H1 H2;
    first [reflexivity | discriminate H1 | now apply H2].
Qed.

(** A palette slot named by a digit is one of the ten. *)
Lemma classify_digit_bound (c : ascii) (n : nat) :
  classify c = Digit n -> (n < 10)%nat.
Proof.
  destruct c as [[] [] [] [] [] [] [] []]; vm_compute; intros H;
    first [discriminate H | injection H as <-; lia].
Qed.

(** Every branch a character takes, swapped or not, is the branch of some
    character taken as it is. *)
Lemma symbol_character (b : bool) (c : ascii) :
  exists c', (if b && isalpha c then swapped c else classify c) = classify c'.
Proof.
  destruct (b && isalpha c); [|eexists; reflexivity].
  unfold swapped. destruct (isupper c); [eexists; reflexivity|].
  destruct (upper c); [eexists; reflexivity | exists "S"%char | exists " "%char]; reflexivity.
Qed.

Lemma goes_on_next `{Arith} (r : Signal) (d : Locals) :
  goes_on r = true -> r = Next (state_of r d).
Proof. destruct r; [reflexivity | discriminate | discriminate]. Qed.

Lemma returns_returned `{Arith} (r : Result) (d : Locals) :
  returns r = true -> r = Returned (returned r d).
Proof. destruct r; [reflexivity | discriminate]. Qed.

Section InterpreterTheory.
Context {A : Arith} {G : Geometry A}.
Variable cfg : Config.

(** A character that is not a letter goes through the chain as it is. *)
Lemma step_not_alpha (c : ascii) (s : Locals) :
  isalpha c = false -> step cfg c s = dispatch cfg (classify c) s.
Proof.
  intros Hc. unfold step. rewrite Hc, andb_false_r. reflexivity.
Qed.

Lemma loop_app (p q : string) (s : Locals) :
  loop cfg (p ++ q)%string s
  = match loop cfg p s with
    | Next s' => loop cfg q s'
    | Break s' => Break s'
    | Raise e => Raise e
    end.
Proof.
  revert s. induction p as [|c p IH]; intros s; [reflexivity|].
  change (String c p ++ q)%string with (String c (p ++ q)%string).
  cbn [loop]. destruct (step cfg c s); [apply IH | reflexivity | reflexivity].
Qed.

(** ** The stack *)

(** C8.  With an empty stack, [']'] leaves every variable of the
    interpreter, the turtle and the stack as they are ([Next s]: the
    loop goes on from the same state, and nothing is raised). *)
Theorem pop_empty_stack (s : Locals) :
  stack s = [] -> step cfg "]" s = Next s.
Proof.
  intros Hempty. rewrite step_not_alpha by reflexivity.
  change (classify "]") with RBracket. cbn [dispatch]. rewrite Hempty. reflexivity.
Qed.

(** ** The escape *)

Lemma loop_escape (p q : string) (s : Locals) :
  loop cfg (p ++ String "\" q)%string s
  = match loop cfg p s with
    | Next s' => Break s'
    | Break s' => Break s'
    | Raise e => Raise e
    end.
Proof.
  rewrite loop_app. destruct (loop cfg p s) as [s'| |]; try reflexivity.
  cbn [loop]. rewrite step_not_alpha by reflexivity. reflexivity.
Qed.

(** C9.  [run] on [p], an escape and [q] returns what [run] on [p]
    returns: the same turtle, with the same list of calls made on it
    and on the canvas, the same frames and the same variables, or the
    same exception. *)
Theorem run_escape (t0 : Turtle) (p q : string) :
  run cfg t0 (p ++ "\" ++ q)%string = run cfg t0 p.
Proof.
  unfold run.
  destruct (colors cfg !! 0%nat) as [pen|]; [|reflexivity].
  destruct (colors cfg !! 1%nat) as [fill|]; [|reflexivity].
  change ("\" ++ q)%string with (String "\" q).
  rewrite loop_escape. destruct (loop cfg p (start cfg t0 pen fill)); reflexivity.
Qed.

(** ** Save and restore *)

Lemma stack_save_frame (s : Locals) : stack (save_frame cfg s) = stack s.
Proof. unfold save_frame. now case_match. Qed.

Lemma stack_gif_handler (s s' : Locals) :
  gif_handler cfg s = Next s' -> stack s' = stack s.
Proof.
  unfold gif_handler. intros H.
  repeat case_match; simplify_eq; rewrite ?stack_save_frame; reflexivity.
Qed.

Lemma stack_set_color (color : OpColor) (s : Locals) :
  stack (set_color color s) = stack s.
Proof. unfold set_color. repeat case_match; reflexivity. Qed.

Lemma stack_increment_color (channel : Channel) (decrement : bool) (s : Locals) :
  stack (increment_color cfg channel decrement s) = stack s.
Proof. unfold increment_color. case_match; [apply stack_set_color | reflexivity]. Qed.

(** Only ['['], [']'] and ['$'] change the stack. *)
Lemma dispatch_keeps_stack (sym : Symbol) (s s' : Locals) :
  sym <> LBracket -> sym <> RBracket -> sym <> Dollar ->
  dispatch cfg sym s = Next s' -> stack s' = stack s.
Proof.
  intros H1 H2 H3 H.
  destruct sym; try congruence; cbn [dispatch] in H;
    try (apply stack_gif_handler in H; rewrite H; repeat case_match; reflexivity);
    repeat case_match; simplify_eq;
    rewrite ?stack_increment_color, ?stack_set_color; reflexivity.
Qed.

Lemma step_keeps_stack (c : ascii) (s s' : Locals) :
  c <> "["%char -> c <> "]"%char -> c <> "$"%char ->
  step cfg c s = Next s' -> stack s' = stack s.
Proof.
  intros H1 H2 H3. unfold step.
  pose proof (classify_stack_symbols (swap_cases s) c) as Hc.
  intros H. eapply dispatch_keeps_stack; [| | | exact H];
    intros Hsym; rewrite Hsym in Hc; congruence.
Qed.

Lemma step_push (s : Locals) :
  step cfg "[" s = Next (set_stack (snapshot s :: stack s) s).
Proof. rewrite step_not_alpha by reflexivity. reflexivity. Qed.

Lemma orient_pose (p : num * num) (h : num) (t0 : Turtle) :
  pos (orient (Some p) (Some h) t0) = p /\ hdg (orient (Some p) (Some h) t0) = h.
Proof. unfold orient. destruct (isdown t0); split; reflexivity. Qed.

(** What [']'] restores from the state on top of the stack. *)
Lemma step_pop (s : Locals) (state : State) (rest : list State) :
  stack s = state :: rest ->
  exists s',
    step cfg "]" s = Next s'
    /\ stack s' = rest
    /\ pos (t s') = s_position state /\ hdg (t s') = s_heading state
    /\ angle s' = s_angle state /\ length' s' = s_length state
    /\ pen_color s' = s_pen_color state /\ fill_color s' = s_fill_color state
    /\ swap_signs s' = s_swap_signs state /\ swap_cases s' = s_swap_cases state
    /\ modify_fill s' = s_modify_fill state
    /\ thickness s' = thickness s.
Proof.
  intros Hstack. rewrite step_not_alpha by reflexivity.
  change (classify "]") with RBracket. cbn [dispatch]. rewrite Hstack.
  eexists. split; [reflexivity|].
  destruct (orient_pose (s_position state) (s_heading state) (t s)) as [Hp Hh].
  split_and!; try reflexivity; [exact Hp | exact Hh].
Qed.

(** The stack along a stretch of balanced brackets: what lies under the
    [depth] states pushed so far stays. *)
Lemma loop_nesting (w : string) :
  forall (depth depth' : nat) (s s' : Locals) (pushed base : list State),
    keeps_stack w = true ->
    nesting depth w = Some depth' ->
    stack s = pushed ++ base ->
    length pushed = depth ->
    loop cfg w s = Next s' ->
    exists pushed', stack s' = pushed' ++ base /\ length pushed' = depth'.
Proof.
  induction w as [|c w IH]; intros depth depth' s s' pushed base Hk Hn Hs Hl Hloop;
    subst depth.
  - cbn in Hn, Hloop. simplify_eq. eauto.
  - cbn [keeps_stack] in Hk. apply andb_prop in Hk as [Hk Hkw].
    apply andb_prop in Hk as [Hdollar _].
    apply negb_true_iff, Ascii.eqb_neq in Hdollar.
    cbn [loop] in Hloop. destruct (step cfg c s) as [s1| |] eqn:Hstep; try discriminate.
    cbn [nesting] in Hn.
    destruct (Ascii.eqb_spec c "[") as [->|Hopen].
    { rewrite step_push in Hstep. simplify_eq.
      eapply (IH _ _ _ _ (snapshot s :: pushed) base Hkw Hn); [|reflexivity|exact Hloop].
      cbn. now rewrite Hs. }
    destruct (Ascii.eqb_spec c "]") as [->|Hclose].
    { destruct pushed as [|state pushed]; [discriminate|].
      cbn [length] in Hn.
      destruct (step_pop s state (pushed ++ base) Hs) as (s2 & Hs2 & Hst & _).
      rewrite Hs2 in Hstep. simplify_eq.
      eapply (IH _ _ _ _ pushed base Hkw Hn); [exact Hst|reflexivity|exact Hloop]. }
    apply step_keeps_stack in Hstep; [|assumption..].
    eapply (IH _ _ _ _ pushed base Hkw Hn); [|reflexivity|exact Hloop].
    now rewrite Hstep.
Qed.

(** C1, as the code has it.  Take a command string that begins with
    [p ++ "[" ++ w ++ "]"], where [w] is balanced and holds neither
    ['$'] nor the escape.  The state after the [']'] equals the state
    after [p], before the ['['], in position, heading, angle, length,
    pen colour, fill colour, swap-signs, swap-cases and modify-fill,
    and the stack is again what it was. *)
Theorem balanced_region_restores (p w : string) (s0 s s' : Locals) :
  balanced w = true ->
  keeps_stack w = true ->
  loop cfg p s0 = Next s ->
  loop cfg (p ++ "[" ++ w ++ "]")%string s0 = Next s' ->
  pos (t s') = pos (t s) /\ hdg (t s') = hdg (t s)
  /\ angle s' = angle s /\ length' s' = length' s
  /\ pen_color s' = pen_color s /\ fill_color s' = fill_color s
  /\ swap_signs s' = swap_signs s /\ swap_cases s' = swap_cases s
  /\ modify_fill s' = modify_fill s
  /\ stack s' = stack s.
Proof.
  intros Hbal Hkeep Hp Hrun.
  rewrite loop_app, Hp in Hrun.
  change ("[" ++ w ++ "]")%string with (String "[" (w ++ "]")%string) in Hrun.
  cbn [loop] in Hrun. rewrite step_push, loop_app in Hrun.
  destruct (loop cfg w (set_stack (snapshot s :: stack s) s)) as [s1| |] eqn:Hw;
    try discriminate.
  apply bool_decide_eq_true in Hbal.
  destruct (loop_nesting w 0 0 (set_stack (snapshot s :: stack s) s) s1 []
              (snapshot s :: stack s) Hkeep Hbal eq_refl eq_refl Hw)
    as (pushed & Hs1 & Hnil).
  destruct pushed; [|discriminate]. cbn in Hs1.
  destruct (step_pop s1 _ _ Hs1) as (s2 & Hs2 & Hst & H).
  cbn [loop] in Hrun. rewrite Hs2 in Hrun. simplify_eq.
  cbn in H. tauto.
Qed.

(** ** Frames *)

Lemma div_next (d k : Z) :
  0 <= d -> 1 <= k ->
  (d + 1) / k = d / k + (if (d + 1) mod k =? 0 then 1 else 0).
Proof.
  intros Hd Hk.
  pose proof (Z.div_mod d k ltac:(lia)) as Hdm.
  pose proof (Z.mod_pos_bound d k ltac:(lia)) as Hb.
  destruct (Z.eq_dec (d mod k + 1) k) as [Heq|Hne].
  - assert (Hq : d + 1 = (d / k + 1) * k) by nia.
    rewrite Hq, Z.mod_mul, Z.div_mul by lia. reflexivity.
  - assert (Hq : d + 1 = (d / k) * k + (d mod k + 1)) by nia.
    assert (Hm : (d + 1) mod k = d mod k + 1).
    { rewrite Hq at 1. rewrite Z.add_comm, Z.mod_add by lia. apply Z.mod_small. lia. }
    assert (Hv : (d + 1) / k = d / k).
    { rewrite Hq at 1. rewrite Z.add_comm, Z.div_add by lia.
      rewrite Z.div_small by lia. lia. }
    rewrite Hm, Hv. destruct (Z.eqb_spec (d mod k + 1) 0); lia.
Qed.

Lemma ceil_div_floor (d k : Z) :
  0 <= d -> 1 <= k ->
  ceil_div d k = d / k + (if d mod k =? 0 then 0 else 1).
Proof.
  intros Hd Hk. unfold ceil_div.
  pose proof (Z.div_mod d k ltac:(lia)) as Hdm.
  pose proof (Z.mod_pos_bound d k ltac:(lia)) as Hb.
  destruct (Z.eqb_spec (d mod k) 0) as [Hz|Hnz].
  - replace (d + k - 1) with ((k - 1) + (d / k) * k) by nia.
    rewrite Z.div_add, Z.div_small by lia. lia.
  - replace (d + k - 1) with ((d mod k - 1) + (d / k + 1) * k) by nia.
    rewrite Z.div_add, Z.div_small by lia. lia.
Qed.

Lemma save_frame_counts (s : Locals) :
  draws (save_frame cfg s) = draws s
  /\ frames_attempted (save_frame cfg s) = frames_attempted s + 1
  /\ (Z.of_nat (length (gif_data s)) = Z.min (frames_attempted s) (max_frames cfg) ->
      Z.of_nat (length (gif_data (save_frame cfg s)))
      = Z.min (frames_attempted s + 1) (max_frames cfg)).
Proof.
  unfold save_frame. cbn.
  destruct (Z.ltb_spec (Z.of_nat (length (gif_data s))) (max_frames cfg)); cbn.
  - split_and!; try reflexivity. intros Hc. rewrite length_app. cbn. lia.
  - split_and!; try reflexivity. intros Hc. lia.
Qed.

Lemma gif_handler_frames (s s' : Locals) :
  gif_on cfg = true -> 1 <= draws_per_frame cfg ->
  frames_ok cfg s -> gif_handler cfg s = Next s' ->
  frames_ok cfg s' /\ draws s' = draws s + 1.
Proof.
  intros Hgif Hk (Hd & Ha & Hc) H. unfold gif_handler in H. rewrite Hgif in H.
  destruct (Z.eqb_spec (draws_per_frame cfg) 0); [lia|].
  pose proof (div_next (draws s) (draws_per_frame cfg) Hd Hk) as Hnext.
  change (draws (set_draws (draws s + 1) s)) with (draws s + 1) in H.
  destruct ((draws s + 1) mod draws_per_frame cfg =? 0); simplify_eq.
  - destruct (save_frame_counts (set_draws (draws s + 1) s)) as (Hd' & Ha' & Hc').
    change (draws (set_draws (draws s + 1) s)) with (draws s + 1) in Hd'.
    change (frames_attempted (set_draws (draws s + 1) s)) with (frames_attempted s) in *.
    change (gif_data (set_draws (draws s + 1) s)) with (gif_data s) in Hc'.
    unfold frames_ok. rewrite Hd', Ha'.
    split_and!; [lia | lia | exact (Hc' Hc) | reflexivity].
  - unfold frames_ok.
    change (draws (set_draws (draws s + 1) s)) with (draws s + 1).
    change (frames_attempted (set_draws (draws s + 1) s)) with (frames_attempted s).
    change (gif_data (set_draws (draws s + 1) s)) with (gif_data s).
    split_and!; [lia | lia | exact Hc | reflexivity].
Qed.

(** The counters of a state: draws, frames attempted, frames stored. *)
Lemma counters_set_color (color : OpColor) (s : Locals) :
  draws (set_color color s) = draws s
  /\ frames_attempted (set_color color s) = frames_attempted s
  /\ gif_data (set_color color s) = gif_data s.
Proof. unfold set_color. repeat case_match; split_and!; reflexivity. Qed.

Lemma counters_increment_color (channel : Channel) (decrement : bool) (s : Locals) :
  draws (increment_color cfg channel decrement s) = draws s
  /\ frames_attempted (increment_color cfg channel decrement s) = frames_attempted s
  /\ gif_data (increment_color cfg channel decrement s) = gif_data s.
Proof.
  unfold increment_color. case_match; [apply counters_set_color | split_and!; reflexivity].
Qed.

Lemma frames_ok_counters (s s' : Locals) :
  draws s' = draws s -> frames_attempted s' = frames_attempted s ->
  gif_data s' = gif_data s -> frames_ok cfg s -> frames_ok cfg s'.
Proof. unfold frames_ok. intros -> -> ->. tauto. Qed.

Lemma dispatch_counters (sym : Symbol) (s s' : Locals) :
  qualifying sym = false ->
  dispatch cfg sym s = Next s' \/ dispatch cfg sym s = Break s' ->
  draws s' = draws s
  /\ frames_attempted s' = frames_attempted s
  /\ gif_data s' = gif_data s.
Proof.
  intros Hq [H|H]; destruct sym; try discriminate Hq; cbn [dispatch] in H;
    repeat case_match; simplify_eq;
    first [ apply counters_increment_color
          | apply counters_set_color
          | split_and!; reflexivity ].
Qed.

(** One character keeps the accounting, and counts one draw exactly when
    its branch is one of the three that call [gif_handler]. *)
Lemma dispatch_frames (sym : Symbol) (s s' : Locals) :
  gif_on cfg = true -> 1 <= draws_per_frame cfg ->
  frames_ok cfg s ->
  dispatch cfg sym s = Next s' \/ dispatch cfg sym s = Break s' ->
  frames_ok cfg s' /\ draws s' = draws s + (if qualifying sym then 1 else 0).
Proof.
  intros Hgif Hk Hok H. destruct (qualifying sym) eqn:Hq.
  - destruct H as [H|H]; destruct sym; try discriminate Hq; cbn [dispatch] in H.
    + apply gif_handler_frames in H; try assumption; [repeat case_match; exact H|].
      repeat case_match; (eapply frames_ok_counters; [..|exact Hok]); reflexivity.
    + apply gif_handler_frames in H; try assumption; [repeat case_match; exact H|].
      repeat case_match; (eapply frames_ok_counters; [..|exact Hok]); reflexivity.
    + apply gif_handler_frames in H; try assumption; [repeat case_match; exact H|].
      repeat case_match; (eapply frames_ok_counters; [..|exact Hok]); reflexivity.
    + unfold gif_handler in H. repeat case_match; discriminate.
    + unfold gif_handler in H. repeat case_match; discriminate.
    + unfold gif_handler in H. repeat case_match; discriminate.
  - destruct (dispatch_counters sym s s' Hq H) as (Hd & Ha & Hg).
    split; [|lia]. eapply frames_ok_counters; eassumption.
Qed.

Lemma loop_frames (w : string) :
  forall s s' : Locals,
    gif_on cfg = true -> 1 <= draws_per_frame cfg ->
    frames_ok cfg s ->
    loop cfg w s = Next s' \/ loop cfg w s = Break s' ->
    frames_ok cfg s'.
Proof.
  induction w as [|c w IH]; intros s s' Hgif Hk Hok H.
  - cbn in H. destruct H as [H|H]; [|discriminate]. now simplify_eq.
  - cbn [loop] in H. destruct (step cfg c s) as [s1|s1|e] eqn:Hstep.
    + apply (IH s1 s' Hgif Hk); [|exact H].
      unfold step in Hstep. eapply dispatch_frames; eauto.
    + destruct H as [H|H]; [discriminate|]. simplify_eq.
      unfold step in Hstep. eapply dispatch_frames; eauto.
    + destruct H; discriminate.
Qed.

(** The first frame is attempted before the loop. *)
Lemma start_frames (t0 : Turtle) (pen fill : OpColor) :
  gif_on cfg = true -> 0 <= max_frames cfg ->
  frames_ok cfg (start cfg t0 pen fill)
  /\ draws (start cfg t0 pen fill) = 0
  /\ frames_attempted (start cfg t0 pen fill) = 1.
Proof.
  intros Hgif Hm. unfold start. rewrite Hgif.
  match goal with |- context [save_frame cfg ?x] => set (s := x) end.
  assert (Hs : draws s = 0 /\ frames_attempted s = 0 /\ gif_data s = []).
  { subst s. destruct pen, fill; split_and!; reflexivity. }
  destruct Hs as (Hd & Ha & Hg).
  destruct (save_frame_counts s) as (Hd' & Ha' & Hc').
  unfold frames_ok. rewrite Hd', Ha', Hd, Ha. split_and!; try reflexivity; try lia.
  rewrite Hc'; [lia|]. rewrite Hg, Ha. cbn. lia.
Qed.

(** C2, as the code has it.  With a gif, [draws_per_frame = k >= 1] and
    [max_frames = m >= 0], a run that returns after [d] qualifying draws
    has stored [min(ceil(d / k) + 1, m)] frames and has attempted
    [ceil(d / k) + 1]: the first one, one for every [k] draws, and a
    last one exactly when [d] is not a multiple of [k].  An attempt
    beyond [m] is counted and stores nothing. *)
Theorem frames_stored (t0 : Turtle) (string : string) (s : Locals) :
  gif_on cfg = true ->
  1 <= draws_per_frame cfg ->
  0 <= max_frames cfg ->
  run cfg t0 string = Returned s ->
  Z.of_nat (length (gif_data s))
  = Z.min (ceil_div (draws s) (draws_per_frame cfg) + 1) (max_frames cfg)
  /\ frames_attempted s = ceil_div (draws s) (draws_per_frame cfg) + 1
  /\ frames_attempted s
     = 1 + draws s / draws_per_frame cfg
       + (if draws s mod draws_per_frame cfg =? 0 then 0 else 1)
  /\ Z.of_nat (length (gif_data s)) = Z.min (frames_attempted s) (max_frames cfg).
Proof.
  intros Hgif Hk Hm Hrun. unfold run in Hrun.
  destruct (colors cfg !! 0%nat) as [pen|]; [|discriminate].
  destruct (colors cfg !! 1%nat) as [fill|]; [|discriminate].
  destruct (start_frames t0 pen fill Hgif Hm) as (Hstart & _).
  assert (Hfin : exists s1, frames_ok cfg s1 /\ finish cfg s1 = Returned s).
  { destruct (loop cfg string (start cfg t0 pen fill)) as [s1|s1|e] eqn:Hloop;
      [| |discriminate]; exists s1; (split; [|exact Hrun]);
      eapply loop_frames; eauto. }
  destruct Hfin as (s1 & (Hd & Ha & Hc) & Hfin).
  unfold finish in Hfin. rewrite Hgif in Hfin.
  destruct (Z.eqb_spec (draws_per_frame cfg) 0); [lia|].
  pose proof (ceil_div_floor (draws s1) (draws_per_frame cfg) Hd Hk) as Hceil.
  destruct (draws s1 mod draws_per_frame cfg =? 0) eqn:Hmod; cbn in Hfin; simplify_eq.
  - rewrite Hmod, Hceil. split_and!; lia.
  - destruct (save_frame_counts s1) as (Hd' & Ha' & Hc').
    rewrite Hd', Ha', (Hc' Hc), Hmod, Hceil. split_and!; lia.
Qed.

(** ** Modify-fill *)

Lemma step_color_on_fill (c : ascii) (op : ColorOp) (s : Locals) :
  length (colors cfg) = 10%nat ->
  color_op c = Some op ->
  modify_fill s = true ->
  uses_flag op (fill_color s) = true ->
  exists s1,
    step cfg c s = Next s1
    /\ modify_fill s1 = false
    /\ pen_color s1 = pen_color s
    /\ color_after cfg op (fill_color s) = Some (fill_color s1).
Proof.
  intros Hlen Hop Hflag Huse.
  rewrite (step_not_alpha c s (color_op_not_alpha c op Hop)).
  unfold color_op in Hop.
  destruct (classify c) eqn:Hc; simplify_eq; cbn [dispatch uses_flag color_after] in *;
    try (apply bool_decide_eq_true in Huse as [f Hf];
         unfold increment_color, set_color; rewrite Hflag, Hf;
         eexists; split_and!; reflexivity).
  destruct (lookup_lt_is_Some_2 (colors cfg) n) as [color Hcolor].
  { rewrite Hlen. eapply classify_digit_bound, Hc. }
  rewrite Hcolor. unfold set_color. rewrite Hflag.
  destruct color; eexists; split_and!; reflexivity.
Qed.

Lemma increment_color_on_pen (channel : Channel) (decrement : bool) (s : Locals) :
  modify_fill s = false ->
  modify_fill (increment_color cfg channel decrement s) = false
  /\ fill_color (increment_color cfg channel decrement s) = fill_color s
  /\ pen_color (increment_color cfg channel decrement s)
     = incremented cfg channel decrement <$> pen_color s.
Proof.
  intros Hflag. unfold increment_color, set_color. rewrite Hflag.
  destruct (pen_color s) as [p|] eqn:Hp; cbn; auto.
Qed.

Lemma step_color_on_pen (c : ascii) (op : ColorOp) (s : Locals) :
  length (colors cfg) = 10%nat ->
  color_op c = Some op ->
  modify_fill s = false ->
  exists s2,
    step cfg c s = Next s2
    /\ modify_fill s2 = false
    /\ fill_color s2 = fill_color s
    /\ color_after cfg op (pen_color s) = Some (pen_color s2).
Proof.
  intros Hlen Hop Hflag.
  rewrite (step_not_alpha c s (color_op_not_alpha c op Hop)).
  unfold color_op in Hop.
  destruct (classify c) eqn:Hc; simplify_eq; cbn [dispatch color_after] in *;
    try (match goal with
         | |- context [increment_color cfg ?ch ?d s] =>
             destruct (increment_color_on_pen ch d s Hflag) as (H1 & H2 & H3)
         end;
         eexists; split_and!; [reflexivity | exact H1 | exact H2 | now rewrite H3]).
  destruct (lookup_lt_is_Some_2 (colors cfg) n) as [color Hcolor].
  { rewrite Hlen. eapply classify_digit_bound, Hc. }
  rewrite Hcolor. unfold set_color. rewrite Hflag.
  destruct color; eexists;
    (split_and!; [reflexivity | cbn; first [reflexivity | assumption] ..]).
Qed.

Lemma step_color_no_fill (c : ascii) (op : ColorOp) (s : Locals) :
  color_op c = Some op ->
  modify_fill s = true ->
  uses_flag op (fill_color s) = false ->
  step cfg c s = Next s.
Proof.
  intros Hop Hflag Huse.
  rewrite (step_not_alpha c s (color_op_not_alpha c op Hop)).
  unfold color_op in Hop.
  destruct (classify c) eqn:Hc; simplify_eq; cbn [dispatch uses_flag] in *;
    try discriminate Huse;
    apply bool_decide_eq_false in Huse;
    unfold increment_color; rewrite Hflag;
    (destruct (fill_color s); [exfalso; apply Huse; eauto | reflexivity]).
Qed.

(** The colours and the flag over a stretch without colour-affecting
    symbol and without [']']. *)
Lemma colors_save_frame (s : Locals) :
  pen_color (save_frame cfg s) = pen_color s
  /\ fill_color (save_frame cfg s) = fill_color s
  /\ modify_fill (save_frame cfg s) = modify_fill s.
Proof. unfold save_frame. case_match; split_and!; reflexivity. Qed.

Lemma colors_gif_handler (s s' : Locals) :
  gif_handler cfg s = Next s' ->
  pen_color s' = pen_color s /\ fill_color s' = fill_color s /\ modify_fill s' = modify_fill s.
Proof.
  unfold gif_handler. intros H.
  repeat case_match; simplify_eq; try (split_and!; reflexivity).
  apply (colors_save_frame (set_draws (draws s + 1) s)).
Qed.

Lemma gap_step (c : ascii) (s s' : Locals) :
  color_op c = None -> c <> "]"%char ->
  step cfg c s = Next s' ->
  pen_color s' = pen_color s
  /\ fill_color s' = fill_color s
  /\ modify_fill s' = modify_fill s || (c =? "#")%char.
Proof.
  intros Hop Hc. unfold step.
  pose proof (gap_symbol (swap_cases s) c Hop Hc) as Hsym.
  destruct (if swap_cases s && isalpha c then swapped c else classify c);
    try contradiction; rewrite Hsym, ?orb_false_r, ?orb_true_r; cbn [dispatch]; intros H;
    try (apply colors_gif_handler in H; destruct H as (-> & -> & ->);
         repeat case_match; split_and!;
         cbn [pen_color fill_color modify_fill on_t]; congruence);
    repeat case_match; simplify_eq; split_and!; reflexivity.
Qed.

Lemma gap_loop (w : string) :
  forall s s' : Locals,
    gap w = true ->
    loop cfg w s = Next s' ->
    pen_color s' = pen_color s
    /\ fill_color s' = fill_color s
    /\ modify_fill s' = modify_fill s || occurs "#" w.
Proof.
  induction w as [|c w IH]; intros s s' Hgap H.
  - cbn in H. simplify_eq. rewrite orb_false_r. split_and!; reflexivity.
  - cbn [gap] in Hgap. destruct (color_op c) eqn:Hop; [discriminate|].
    apply andb_true_iff in Hgap as [Hc Hgap]. apply negb_true_iff in Hc.
    assert (Hne : c <> "]"%char).
    { intros ->. discriminate Hc. }
    cbn [loop] in H. destruct (step cfg c s) as [s1| |] eqn:Hstep; try discriminate.
    destruct (gap_step c s s1 Hop Hne Hstep) as (Hp1 & Hf1 & Hm1).
    destruct (IH s1 s' Hgap H) as (Hp & Hf & Hm).
    rewrite Hp, Hf, Hm, Hp1, Hf1, Hm1. cbn [occurs].
    rewrite (Ascii.eqb_sym "#" c), orb_assoc. split_and!; reflexivity.
Qed.

(** C4, as the code has it.  ['#'] sets modify-fill and nothing else,
    and the flag stays set over the symbols [u] that follow, as long as
    none of them is colour-affecting and none is [']'].  The next
    colour-affecting symbol [c1], when it is a palette slot, or a channel
    move and there is a fill colour, gives its colour to the fill colour,
    leaves the pen colour alone and clears the flag.  After further
    symbols [v], none of them colour-affecting, ['#'] or [']'], the next
    colour-affecting symbol [c2] gives its colour to the pen colour and
    leaves the fill colour alone.  A channel move met while there is no
    fill colour changes nothing: the flag stays set. *)
Theorem modify_fill_single_use (u v : string) (c1 c2 : ascii) (op1 op2 : ColorOp)
    (s s0 : Locals) :
  length (colors cfg) = 10%nat ->
  color_op c1 = Some op1 ->
  color_op c2 = Some op2 ->
  gap u = true ->
  gap v = true ->
  occurs "#" v = false ->
  loop cfg u (set_modify_fill true s) = Next s0 ->
  step cfg "#" s = Next (set_modify_fill true s)
  /\ modify_fill s0 = true
  /\ (uses_flag op1 (fill_color s) = true ->
      exists s1,
        step cfg c1 s0 = Next s1
        /\ modify_fill s1 = false
        /\ pen_color s1 = pen_color s
        /\ color_after cfg op1 (fill_color s) = Some (fill_color s1)
        /\ forall s1' : Locals,
             loop cfg v s1 = Next s1' ->
             exists s2,
               step cfg c2 s1' = Next s2
               /\ modify_fill s2 = false
               /\ fill_color s2 = fill_color s1
               /\ color_after cfg op2 (pen_color s) = Some (pen_color s2))
  /\ (uses_flag op1 (fill_color s) = false -> step cfg c1 s0 = Next s0).
Proof.
  intros Hlen Hop1 Hop2 Hu Hv Hhash Hloop.
  destruct (gap_loop u _ s0 Hu Hloop) as (Hp0 & Hf0 & Hm0).
  cbn [pen_color fill_color modify_fill set_modify_fill orb] in Hp0, Hf0, Hm0.
  split_and!.
  - rewrite step_not_alpha by reflexivity. reflexivity.
  - exact Hm0.
  - intros Huse. rewrite <- Hf0 in Huse.
    destruct (step_color_on_fill c1 op1 s0 Hlen Hop1 Hm0 Huse)
      as (s1 & Hs1 & Hf1 & Hp1 & Hc1).
    exists s1. rewrite Hf0 in Hc1. rewrite Hp0 in Hp1.
    split_and!; try assumption.
    intros s1' Hloop'.
    destruct (gap_loop v s1 s1' Hv Hloop') as (Hp' & Hf' & Hm').
    rewrite Hhash, Hf1 in Hm'. cbn [orb] in Hm'.
    destruct (step_color_on_pen c2 op2 s1' Hlen Hop2 Hm') as (s2 & Hs2 & Hf2 & Hfill & Hc2).
    exists s2. rewrite Hp', Hp1 in Hc2. rewrite Hf' in Hfill.
    split_and!; assumption.
  - intros Huse. rewrite <- Hf0 in Huse. now apply (step_color_no_fill c1 op1).
Qed.

(** ** Thickness *)

Lemma silent_refl (t0 : Turtle) : silent t0 t0.
Proof.
  split; [reflexivity|]. exists []. split; [now rewrite app_nil_r|].
  intros w w' [].
Qed.

Lemma silent_trans (t0 t1 t2 : Turtle) : silent t0 t1 -> silent t1 t2 -> silent t0 t2.
Proof.
  intros (Hw1 & l1 & Hl1 & Hp1) (Hw2 & l2 & Hl2 & Hp2).
  split; [congruence|]. exists (l1 ++ l2). split.
  - rewrite Hl2, Hl1. now rewrite app_assoc.
  - intros w w' Hin. apply in_app_or in Hin as [Hin|Hin]; [eapply Hp1 | eapply Hp2]; eauto.
Qed.

Lemma silent_call (c : Call) (t0 t1 : Turtle) :
  (forall w, c <> t_pensize w) -> silent t0 t1 -> silent t0 (call c t1).
Proof.
  intros Hc H. eapply silent_trans; [exact H|]. split.
  - destruct c; try reflexivity. exfalso. eapply Hc. reflexivity.
  - exists [c]. split; [destruct c; reflexivity|].
    intros w w' [Hin|[]]. now contradiction (Hc w').
Qed.

Lemma silent_orient (p : option (num * num)) (h : option num) (t0 t1 : Turtle) :
  silent t0 t1 -> silent t0 (orient p h t1).
Proof.
  intros H. unfold orient.
  destruct p, h, (isdown t1); repeat (apply silent_call; [discriminate|]); exact H.
Qed.

Ltac silence :=
  repeat first
    [ apply silent_refl
    | apply silent_orient
    | apply silent_call; [discriminate|] ].

Ltac quieten :=
  unfold quiet;
  cbn [thickness t on_t set_angle set_length set_pen_color set_fill_color set_swap_signs
       set_swap_cases set_modify_fill set_stack set_gif_data set_draws
       set_frames_attempted];
  (split; [reflexivity | silence]).

Lemma quiet_save_frame (s : Locals) : quiet s (save_frame cfg s).
Proof. unfold save_frame. case_match; quieten. Qed.

Lemma quiet_trans (s0 s1 s2 : Locals) : quiet s0 s1 -> quiet s1 s2 -> quiet s0 s2.
Proof.
  intros [Ht1 Hs1] [Ht2 Hs2]. split; [congruence | eapply silent_trans; eauto].
Qed.

Lemma quiet_gif_handler (s s' : Locals) : gif_handler cfg s = Next s' -> quiet s s'.
Proof.
  unfold gif_handler. intros H. repeat case_match; simplify_eq.
  - eapply quiet_trans; [|apply quiet_save_frame]. quieten.
  - quieten.
  - quieten.
Qed.

Lemma quiet_set_color (color : OpColor) (s : Locals) : quiet s (set_color color s).
Proof. unfold set_color. repeat case_match; quieten. Qed.

Lemma quiet_increment_color (channel : Channel) (decrement : bool) (s : Locals) :
  quiet s (increment_color cfg channel decrement s).
Proof. unfold increment_color. case_match; [apply quiet_set_color | quieten]. Qed.

(** Apart from ['='], ['>'] and ['<'], no branch changes the thickness
    or calls [pensize]. *)
Lemma dispatch_quiet (sym : Symbol) (s s' : Locals) :
  sym <> Equal -> sym <> Greater -> sym <> Less ->
  dispatch cfg sym s = Next s' \/ dispatch cfg sym s = Break s' ->
  quiet s s'.
Proof.
  intros H1 H2 H3 [H|H]; destruct sym; try congruence; cbn [dispatch] in H;
    try discriminate H;
    try (apply quiet_gif_handler in H; (eapply quiet_trans; [|exact H]);
         repeat case_match; quieten);
    try (unfold gif_handler in H; repeat case_match; discriminate H);
    repeat case_match; simplify_eq;
    first [ apply quiet_increment_color | apply quiet_set_color | quieten ].
Qed.

(** What one character passes to [pensize], and that the width of the
    turtle follows the thickness. *)
Lemma step_pensize (c : ascii) (s s' : Locals) :
  step cfg c s = Next s' \/ step cfg c s = Break s' ->
  (exists l, calls (t s') = calls (t s) ++ l
             /\ pensize_calls_pass (pymax zero (thickness s')) l)
  /\ (width (t s) = pymax zero (thickness s) -> width (t s') = pymax zero (thickness s')).
Proof.
  unfold step.
  destruct (symbol_character (swap_cases s) c) as [c' ->].
  intros H.
  assert (Hq : quiet s s' ->
               (exists l, calls (t s') = calls (t s) ++ l
                          /\ pensize_calls_pass (pymax zero (thickness s')) l)
               /\ (width (t s) = pymax zero (thickness s) ->
                   width (t s') = pymax zero (thickness s'))).
  { intros (Hth & Hw & l & Hl & Hp). split; [exists l; auto|]. congruence. }
  assert (Hset : forall v, Next (set_pensize (set_thickness v s)) = Next s' ->
               (exists l, calls (t s') = calls (t s) ++ l
                          /\ pensize_calls_pass (pymax zero (thickness s')) l)
               /\ (width (t s) = pymax zero (thickness s) ->
                   width (t s') = pymax zero (thickness s'))).
  { intros v Hv. simplify_eq. split; [|reflexivity].
    exists [t_pensize (pymax zero v)]. split; [reflexivity|].
    intros w' [Hin|[]]. now simplify_eq. }
  destruct (classify c') eqn:Hc;
    try (apply Hq; eapply (dispatch_quiet _ s s'); [..|exact H]; discriminate);
    destruct H as [H|H]; cbn [dispatch] in H; try discriminate H;
    eapply Hset; exact H.
Qed.

Lemma loop_pensize (w : string) :
  forall s s' : Locals,
    loop cfg w s = Next s' \/ loop cfg w s = Break s' ->
    (exists l, calls (t s') = calls (t s) ++ l)
    /\ (width (t s) = pymax zero (thickness s) -> width (t s') = pymax zero (thickness s')).
Proof.
  induction w as [|c w IH]; intros s s' H.
  - cbn in H. destruct H as [H|H]; [|discriminate]. simplify_eq.
    split; [exists []; now rewrite app_nil_r | auto].
  - cbn [loop] in H. destruct (step cfg c s) as [s1|s1|e] eqn:Hstep.
    + destruct (step_pensize c s s1 (or_introl Hstep)) as ((l1 & Hl1 & _) & Hw1).
      destruct (IH s1 s' H) as ((l2 & Hl2) & Hw2).
      split; [|auto]. exists (l1 ++ l2). rewrite Hl2, Hl1. now rewrite app_assoc.
    + destruct H as [H|H]; [discriminate|]. simplify_eq.
      destruct (step_pensize c s s' (or_intror Hstep)) as ((l1 & Hl1 & _) & Hw1).
      split; [eauto | auto].
    + destruct H; discriminate.
Qed.

Lemma start_pensize (t0 : Turtle) (pen fill : OpColor) :
  (exists l, calls (t (start cfg t0 pen fill))
             = calls t0 ++ t_pensize (pymax zero (initial_thickness cfg)) :: l)
  /\ width (t (start cfg t0 pen fill)) = pymax zero (thickness (start cfg t0 pen fill)).
Proof.
  unfold start.
  match goal with |- context [save_frame cfg ?x] => set (s := x) end.
  assert (Hs : (exists l, calls (t s)
                          = calls t0 ++ t_pensize (pymax zero (initial_thickness cfg)) :: l)
               /\ width (t s) = pymax zero (thickness s)).
  { subst s. destruct pen, fill; (split; [eexists; cbn; rewrite <- ?app_assoc|]; reflexivity). }
  destruct Hs as ((l & Hl) & Hw).
  destruct (gif_on cfg); [|eauto].
  destruct (quiet_save_frame s) as (Hth & Hw' & l' & Hl' & _).
  split; [|congruence].
  exists (l ++ l'). rewrite Hl', Hl, <- app_assoc. reflexivity.
Qed.

Lemma pymax_max_zero (x : num) : max_zero x (pymax zero x).
Proof. unfold max_zero, pymax. destruct (gt x zero); reflexivity. Qed.

(** C6.  ['>'] adds the thickness increment to the thickness, ['<']
    subtracts it and ['='] puts the initial thickness back, whatever the
    sign of the result, and each then calls [pensize] once, with the
    thickness when it is greater than 0 and with 0 when it is not.
    Every width that one character passes to [pensize] is of that kind,
    for the thickness after that character.  A run that returns has
    called [pensize] first, with the initial thickness or 0 in the same
    way, and leaves the turtle with the width that goes with its
    thickness. *)
Theorem thickness_clamped_when_applied :
  (forall s : Locals,
      exists s' w,
        step cfg ">" s = Next s'
        /\ thickness s' = add (thickness s) (thickness_increment cfg)
        /\ calls (t s') = calls (t s) ++ [t_pensize w]
        /\ max_zero (thickness s') w)
  /\ (forall s : Locals,
        exists s' w,
          step cfg "<" s = Next s'
          /\ thickness s' = sub (thickness s) (thickness_increment cfg)
          /\ calls (t s') = calls (t s) ++ [t_pensize w]
          /\ max_zero (thickness s') w)
  /\ (forall s : Locals,
        exists s' w,
          step cfg "=" s = Next s'
          /\ thickness s' = initial_thickness cfg
          /\ calls (t s') = calls (t s) ++ [t_pensize w]
          /\ max_zero (thickness s') w)
  /\ (forall (c : ascii) (s s' : Locals),
        step cfg c s = Next s' \/ step cfg c s = Break s' ->
        exists l, calls (t s') = calls (t s) ++ l
                  /\ forall w, In (t_pensize w) l -> max_zero (thickness s') w)
  /\ (forall (t0 : Turtle) (string : string) (s : Locals),
        run cfg t0 string = Returned s ->
        max_zero (thickness s) (width (t s))
        /\ exists w l, calls (t s) = calls t0 ++ t_pensize w :: l
                       /\ max_zero (initial_thickness cfg) w).
Proof.
  split_and!.
  - intros s. eexists _, _. rewrite step_not_alpha by reflexivity.
    split_and!; [reflexivity | reflexivity | reflexivity | apply pymax_max_zero].
  - intros s. eexists _, _. rewrite step_not_alpha by reflexivity.
    split_and!; [reflexivity | reflexivity | reflexivity | apply pymax_max_zero].
  - intros s. eexists _, _. rewrite step_not_alpha by reflexivity.
    split_and!; [reflexivity | reflexivity | reflexivity | apply pymax_max_zero].
  - intros c s s' H. destruct (step_pensize c s s' H) as ((l & Hl & Hp) & _).
    exists l. split; [exact Hl|]. intros w Hin. rewrite (Hp w Hin). apply pymax_max_zero.
  - intros t0 string s Hrun. unfold run in Hrun.
    destruct (colors cfg !! 0%nat) as [pen|]; [|discriminate].
    destruct (colors cfg !! 1%nat) as [fill|]; [|discriminate].
    destruct (start_pensize t0 pen fill) as ((l0 & Hl0) & Hw0).
    assert (Hfin : exists s1,
               (loop cfg string (start cfg t0 pen fill) = Next s1
                \/ loop cfg string (start cfg t0 pen fill) = Break s1)
               /\ finish cfg s1 = Returned s).
    { destruct (loop cfg string (start cfg t0 pen fill)) as [s1|s1|e];
        [exists s1; auto | exists s1; auto | discriminate]. }
    destruct Hfin as (s1 & Hloop & Hfin).
    destruct (loop_pensize string _ s1 Hloop) as ((l1 & Hl1) & Hw1).
    specialize (Hw1 Hw0).
    assert (Hq : quiet s1 s).
    { unfold finish in Hfin. repeat case_match; simplify_eq;
        first [apply quiet_save_frame | quieten]. }
    destruct Hq as (Hth & Hw & l2 & Hl2 & _).
    split.
    + rewrite Hw, Hw1, Hth. apply pymax_max_zero.
    + exists (pymax zero (initial_thickness cfg)), (l0 ++ l1 ++ l2).
      split; [|apply pymax_max_zero].
      rewrite Hl2, Hl1, Hl0. rewrite <- !app_assoc. reflexivity.
Qed.

(** ** Runs that return *)

Section NoFault.
Hypothesis palette_full : length (colors cfg) = 10%nat.
Hypothesis scalar_divides : forall x, is_Some (div x (length_scalar cfg)).
Hypothesis frames_counted : gif_on cfg = true -> draws_per_frame cfg <> 0.

Lemma gif_handler_no_raise (s : Locals) (e : Error) : gif_handler cfg s <> Raise e.
Proof.
  unfold gif_handler. destruct (gif_on cfg) eqn:Hgif; [|discriminate].
  destruct (Z.eqb_spec (draws_per_frame cfg) 0) as [Hz|_]; [now apply frames_counted in Hz|].
  case_match; discriminate.
Qed.

Lemma step_no_raise (c : ascii) (s : Locals) (e : Error) : step cfg c s <> Raise e.
Proof.
  unfold step.
  destruct (symbol_character (swap_cases s) c) as [c' ->].
  destruct (classify c') eqn:Hc; cbn [dispatch];
    try discriminate; try apply gif_handler_no_raise.
  - destruct (scalar_divides (length' s)) as [v ->]. discriminate.
  - destruct (lookup_lt_is_Some_2 (colors cfg) n) as [color ->]; [|discriminate].
    rewrite palette_full. eapply classify_digit_bound, Hc.
  - case_match; discriminate.
Qed.

Lemma loop_no_raise (w : string) (s : Locals) (e : Error) : loop cfg w s <> Raise e.
Proof.
  revert s. induction w as [|c w IH]; intros s; [discriminate|].
  cbn [loop]. destruct (step cfg c s) eqn:Hstep;
    [apply IH | discriminate | now apply step_no_raise in Hstep].
Qed.

(** With the ten slots of the palette, a length scalar that can be
    divided by and, with a gif, draws-per-frame other than 0, [run]
    returns on every string. *)
Lemma run_returns (t0 : Turtle) (string : string) :
  exists s, run cfg t0 string = Returned s.
Proof.
  unfold run.
  destruct (lookup_lt_is_Some_2 (colors cfg) 0) as [pen ->]; [rewrite palette_full; lia|].
  destruct (lookup_lt_is_Some_2 (colors cfg) 1) as [fill ->]; [rewrite palette_full; lia|].
  assert (Hfin : forall s1, exists s, finish cfg s1 = Returned s).
  { intros s1. unfold finish. destruct (gif_on cfg) eqn:Hgif; [|eauto].
    destruct (Z.eqb_spec (draws_per_frame cfg) 0) as [Hz|_];
      [now apply frames_counted in Hz|].
    case_match; eauto. }
  destruct (loop cfg string (start cfg t0 pen fill)) as [s1|s1|e] eqn:Hloop;
    [apply Hfin | apply Hfin | now apply loop_no_raise in Hloop].
Qed.
End NoFault.

End InterpreterTheory.


(* ================================================================= *)
(** * The theorems on the rational turtle *)

Ltac evaluate := vm_compute; reflexivity.

(** C1 on ["F[+F>#3`f]"]: a draw, then a region that turns, draws,
    thickens the pen, recolours the fill and swaps the cases. *)
Lemma balanced_region_restores_witness :
  balanced "+F>#3`f" = true
  /\ keeps_stack "+F>#3`f" = true
  /\ exists s s',
       loop Q_plain "F" (Q_start Q_plain) = Next s
       /\ loop Q_plain ("F" ++ "[" ++ "+F>#3`f" ++ "]")%string (Q_start Q_plain) = Next s'
       /\ pos (t s') = pos (t s) /\ hdg (t s') = hdg (t s)
       /\ angle s' = angle s /\ length' s' = length' s
       /\ pen_color s' = pen_color s /\ fill_color s' = fill_color s
       /\ swap_signs s' = swap_signs s /\ swap_cases s' = swap_cases s
       /\ modify_fill s' = modify_fill s
       /\ stack s' = stack s.
Proof.
  assert (Hb : balanced "+F>#3`f" = true) by evaluate.
  assert (Hk : keeps_stack "+F>#3`f" = true) by evaluate.
  pose proof (goes_on_next (loop Q_plain "F" (Q_start Q_plain)) (Q_start Q_plain)
                ltac:(evaluate)) as H1.
  pose proof (goes_on_next
                (loop Q_plain ("F" ++ "[" ++ "+F>#3`f" ++ "]")%string (Q_start Q_plain))
                (Q_start Q_plain) ltac:(evaluate)) as H2.
  split; [exact Hb|]. split; [exact Hk|].
  eexists. eexists. split; [exact H1|]. split; [exact H2|].
  exact (balanced_region_restores Q_plain "F" "+F>#3`f" (Q_start Q_plain) _ _ Hb Hk H1 H2).
Defined.

(** C1 as it is written fails on ["[$&]"]: ['$'] empties the stack, the
    [']'] finds nothing to restore, and the swap of the signs made in the
    region is still there after it. *)
Lemma balanced_region_cleared_stack :
  balanced "$&" = true
  /\ (exists s, loop Q_plain "" (Q_start Q_plain) = Next s /\ swap_signs s = false)
  /\ (exists s', loop Q_plain ("" ++ "[" ++ "$&" ++ "]")%string (Q_start Q_plain) = Next s'
                 /\ swap_signs s' = true).
Proof.
  split; [evaluate|]. split.
  - eexists. split; [apply goes_on_next with (d := Q_start Q_plain); evaluate | evaluate].
  - eexists. split; [apply goes_on_next with (d := Q_start Q_plain); evaluate | evaluate].
Qed.

(** The thickness is pushed with the rest, but [']'] does not put it
    back: after ["[>]"] it is 2 and so is the width, where they were 1. *)
Example balanced_region_thickness :
  (exists s, loop Q_plain "" (Q_start Q_plain) = Next s /\ thickness s = 1%Q)
  /\ (exists s', loop Q_plain ("" ++ "[" ++ ">" ++ "]")%string (Q_start Q_plain) = Next s'
                 /\ thickness s' = 2%Q /\ width (t s') = 2%Q).
Proof.
  split.
  - eexists. split; [apply goes_on_next with (d := Q_start Q_plain); evaluate | evaluate].
  - eexists. split; [apply goes_on_next with (d := Q_start Q_plain); evaluate|].
    split; evaluate.
Qed.

(** C2 on ["FFFFF"] with a frame every 2 draws and at most 3 frames: 5
    draws, 4 frames attempted, 3 stored. *)
Lemma frames_stored_witness :
  gif_on (Q_gif 2 3) = true
  /\ 1 <= draws_per_frame (Q_gif 2 3)
  /\ 0 <= max_frames (Q_gif 2 3)
  /\ exists s,
       run (Q_gif 2 3) Q_turtle "FFFFF" = Returned s
       /\ draws s = 5
       /\ frames_attempted s = 4
       /\ Z.of_nat (length (gif_data s)) = 3
       /\ Z.of_nat (length (gif_data s))
          = Z.min (ceil_div (draws s) (draws_per_frame (Q_gif 2 3)) + 1) (max_frames (Q_gif 2 3)).
Proof.
  assert (Hg : gif_on (Q_gif 2 3) = true) by evaluate.
  assert (Hk : 1 <= draws_per_frame (Q_gif 2 3)) by (vm_compute; discriminate).
  assert (Hm : 0 <= max_frames (Q_gif 2 3)) by (vm_compute; discriminate).
  pose proof (returns_returned (run (Q_gif 2 3) Q_turtle "FFFFF") (Q_start (Q_gif 2 3))
                ltac:(evaluate)) as Hrun.
  split; [exact Hg|]. split; [exact Hk|]. split; [exact Hm|].
  eexists. split; [exact Hrun|].
  split; [evaluate|]. split; [evaluate|]. split; [evaluate|].
  exact (proj1 (frames_stored (Q_gif 2 3) Q_turtle "FFFFF" _ Hg Hk Hm Hrun)).
Defined.

(** C2 as it is written fails for a negative maximum: with
    [max_frames = -1] nothing is stored, and [min(ceil(0 / 1) + 1, -1)]
    is [-1]. *)
Lemma frames_stored_negative_maximum :
  gif_on (Q_gif 1 (-1)) = true
  /\ 1 <= draws_per_frame (Q_gif 1 (-1))
  /\ exists s,
       run (Q_gif 1 (-1)) Q_turtle "" = Returned s
       /\ draws s = 0
       /\ frames_attempted s = 1
       /\ Z.of_nat (length (gif_data s)) = 0
       /\ Z.of_nat (length (gif_data s))
          <> Z.min (ceil_div (draws s) (draws_per_frame (Q_gif 1 (-1))) + 1)
               (max_frames (Q_gif 1 (-1))).
Proof.
  split; [evaluate|]. split; [vm_compute; discriminate|].
  eexists.
  split; [apply returns_returned with (d := Q_start (Q_gif 1 (-1))); evaluate|].
  split; [evaluate|]. split; [evaluate|]. split; [evaluate|].
  vm_compute. discriminate.
Qed.

(** C4 on ["#F+[3f-,"]: the flag set by ['#'] is still set after
    ["F+["], slot 3 goes to the fill colour, and after ["f-"] the red
    move goes to the pen colour. *)
Lemma modify_fill_single_use_witness :
  length (colors Q_plain) = 10%nat
  /\ color_op "3" = Some (Slot 3)
  /\ color_op "," = Some (Shift Red true)
  /\ gap "F+[" = true
  /\ gap "f-" = true
  /\ occurs "#" "f-" = false
  /\ uses_flag (Slot 3) (fill_color (Q_start Q_plain)) = true
  /\ step Q_plain "#" (Q_start Q_plain) = Next (set_modify_fill true (Q_start Q_plain))
  /\ exists s0 s1 s1' s2,
       loop Q_plain "F+[" (set_modify_fill true (Q_start Q_plain)) = Next s0
       /\ modify_fill s0 = true
       /\ step Q_plain "3" s0 = Next s1
       /\ modify_fill s1 = false
       /\ pen_color s1 = pen_color (Q_start Q_plain)
       /\ color_after Q_plain (Slot 3) (fill_color (Q_start Q_plain)) = Some (fill_color s1)
       /\ loop Q_plain "f-" s1 = Next s1'
       /\ step Q_plain "," s1' = Next s2
       /\ modify_fill s2 = false
       /\ fill_color s2 = fill_color s1
       /\ color_after Q_plain (Shift Red true) (pen_color (Q_start Q_plain))
          = Some (pen_color s2).
Proof.
  assert (Hlen : length (colors Q_plain) = 10%nat) by evaluate.
  assert (H3 : color_op "3" = Some (Slot 3)) by evaluate.
  assert (Hc : color_op "," = Some (Shift Red true)) by evaluate.
  assert (Hgu : gap "F+[" = true) by evaluate.
  assert (Hgv : gap "f-" = true) by evaluate.
  assert (Hh : occurs "#" "f-" = false) by evaluate.
  assert (Hu : uses_flag (Slot 3) (fill_color (Q_start Q_plain)) = true) by evaluate.
  pose proof (goes_on_next (loop Q_plain "F+[" (set_modify_fill true (Q_start Q_plain)))
                (Q_start Q_plain) ltac:(evaluate)) as H0.
  destruct (modify_fill_single_use Q_plain "F+[" "f-" "3" "," (Slot 3) (Shift Red true)
              (Q_start Q_plain) _ Hlen H3 Hc Hgu Hgv Hh H0) as (Hhash & Hset & Hused & _).
  destruct (Hused Hu) as (s1 & Hs1 & Hm1 & Hp1 & Hc1 & Hnext).
  pose proof (goes_on_next (loop Q_plain "f-" s1) (Q_start Q_plain)) as H1.
  assert (Hgo : goes_on (loop Q_plain "f-" s1) = true).
  { match type of Hs1 with
    | ?r = _ => assert (E1 : state_of r (Q_start Q_plain) = s1) by (rewrite Hs1; reflexivity)
    end.
    rewrite <- E1. evaluate. }
  specialize (H1 Hgo).
  destruct (Hnext _ H1) as (s2 & Hs2 & Hm2 & Hf2 & Hc2).
  split_and!; try assumption.
  eexists _, s1, _, s2. split_and!; eassumption.
Defined.

(** The colours of that witness: the fill colour becomes slot 3, the pen
    colour loses one of red. *)
Example modify_fill_single_use_colors :
  color_after Q_plain (Slot 3) (fill_color (Q_start Q_plain)) = Some (Some (255, 128, 0))
  /\ color_after Q_plain (Shift Red true) (pen_color (Q_start Q_plain))
     = Some (Some (254, 255, 255)).
Proof. split; evaluate. Qed.

(** [']'] puts modify-fill back to what it was at its ['[']: on ["[#]3"]
    the flag set inside the brackets is gone after them and slot 3 goes
    to the pen colour; on ["#[3]4"] the flag used up inside the brackets
    is set again after them, and slot 4 goes to the fill colour as slot 3
    did. *)
Example modify_fill_restored_by_pop :
  (exists s, run Q_plain Q_turtle "[#]3" = Returned s
             /\ modify_fill s = false
             /\ pen_color s = Some (255, 128, 0)
             /\ fill_color s = Some (128, 128, 128))
  /\ (exists s, run Q_plain Q_turtle "#[3]4" = Returned s
                /\ modify_fill s = false
                /\ pen_color s = Some (255, 255, 255)
                /\ fill_color s = Some (255, 255, 0)).
Proof.
  split.
  - eexists. split; [apply returns_returned with (d := Q_start Q_plain); evaluate|].
    split; [evaluate|]. split; evaluate.
  - eexists. split; [apply returns_returned with (d := Q_start Q_plain); evaluate|].
    split; [evaluate|]. split; evaluate.
Qed.

(** C4 as it is written fails on ["#.3"] when there is no fill colour:
    the red move does nothing and leaves modify-fill set, and slot 3 then
    goes to the fill colour, not to the pen colour. *)
Lemma modify_fill_kept_without_fill :
  color_op "." = Some (Shift Red false)
  /\ color_op "3" = Some (Slot 3)
  /\ (exists s, run Q_no_fill Q_turtle "#." = Returned s
                /\ modify_fill s = true
                /\ pen_color s = Some (255, 255, 255)
                /\ fill_color s = None)
  /\ (exists s, run Q_no_fill Q_turtle "#.3" = Returned s
                /\ pen_color s = Some (255, 255, 255)
                /\ fill_color s = Some (255, 128, 0)).
Proof.
  split; [evaluate|]. split; [evaluate|]. split.
  - eexists. split; [apply returns_returned with (d := Q_start Q_no_fill); evaluate|].
    split; [evaluate|]. split; evaluate.
  - eexists. split; [apply returns_returned with (d := Q_start Q_no_fill); evaluate|].
    split; evaluate.
Qed.

(** C6 with increment 2, from the thickness 1.  ['<'] takes the
    thickness to -1 and passes the width 0; ['>'] takes it to 3 and passes
    the width 3.  After ["<<>"] the thickness is -1 and the width 0, after
    ["<>>"] they are both 3. *)
Lemma thickness_clamped_when_applied_witness :
  (exists s' w,
      step Q_thick "<" (Q_start Q_thick) = Next s'
      /\ thickness s' = (-1)%Q
      /\ calls (t s') = calls (t (Q_start Q_thick)) ++ [t_pensize w]
      /\ w = 0%Q)
  /\ (exists s' w,
        step Q_thick ">" (Q_start Q_thick) = Next s'
        /\ thickness s' = 3%Q
        /\ calls (t s') = calls (t (Q_start Q_thick)) ++ [t_pensize w]
        /\ w = 3%Q)
  /\ (exists s,
        run Q_thick Q_turtle "<<>" = Returned s
        /\ thickness s = (-1)%Q
        /\ width (t s) = 0%Q)
  /\ (exists s,
        run Q_thick Q_turtle "<>>" = Returned s
        /\ thickness s = 3%Q
        /\ width (t s) = 3%Q).
Proof.
  destruct (thickness_clamped_when_applied Q_thick) as (Hup & Hdown & _ & _ & Hrun).
  split_and!.
  - destruct (Hdown (Q_start Q_thick)) as (s' & w & Hs & _ & Hcalls & Hmax).
    assert (E : state_of (step Q_thick "<" (Q_start Q_thick)) (Q_start Q_thick) = s')
      by (rewrite Hs; reflexivity).
    exists s', w. split; [exact Hs|]. split; [rewrite <- E; evaluate|].
    split; [exact Hcalls|].
    rewrite <- E in Hmax. vm_compute in Hmax. exact Hmax.
  - destruct (Hup (Q_start Q_thick)) as (s' & w & Hs & _ & Hcalls & Hmax).
    assert (E : state_of (step Q_thick ">" (Q_start Q_thick)) (Q_start Q_thick) = s')
      by (rewrite Hs; reflexivity).
    exists s', w. split; [exact Hs|]. split; [rewrite <- E; evaluate|].
    split; [exact Hcalls|].
    rewrite <- E in Hmax. vm_compute in Hmax. exact Hmax.
  - pose proof (returns_returned (run Q_thick Q_turtle "<<>") (Q_start Q_thick)
                  ltac:(evaluate)) as H.
    destruct (Hrun Q_turtle "<<>" _ H) as (Hmax & _).
    eexists. split; [exact H|]. split; [evaluate|].
    vm_compute in Hmax. exact Hmax.
  - pose proof (returns_returned (run Q_thick Q_turtle "<>>") (Q_start Q_thick)
                  ltac:(evaluate)) as H.
    destruct (Hrun Q_turtle "<>>" _ H) as (Hmax & _).
    eexists. split; [exact H|]. split; [evaluate|].
    vm_compute in Hmax. exact Hmax.
Defined.

(** C8 on the state in which [run] enters its loop, where the stack is
    empty. *)
Lemma pop_empty_stack_witness :
  stack (Q_start Q_plain) = []
  /\ step Q_plain "]" (Q_start Q_plain) = Next (Q_start Q_plain).
Proof.
  assert (H : stack (Q_start Q_plain) = []) by evaluate.
  split; [exact H|]. exact (pop_empty_stack Q_plain (Q_start Q_plain) H).
Defined.

(** C9 on the example of the specification. *)
Lemma run_escape_witness :
  run (Q_gif 1 100) Q_turtle ("AB" ++ "\" ++ "CD")%string = run (Q_gif 1 100) Q_turtle "AB".
Proof. exact (run_escape (Q_gif 1 100) Q_turtle "AB" "CD"). Defined.

(** The defaults of [draw] meet the conditions of [run_returns]. *)
Example run_returns_example :
  exists s, run (Q_gif 1 100) Q_turtle "F+F-F-F+F" = Returned s.
Proof.
  apply run_returns; [evaluate | | discriminate].
  intros x. eexists. reflexivity.
Qed.

(* ================================================================= *)
(** * Further properties *)

(** ** Colours *)

Lemma clamp_range (v : Z) : 0 <= clamp v 0 255 <= 255.
Proof. unfold clamp. lia. Qed.

Lemma color_ok_spec (r g b : Z) :
  color_ok (r, g, b) = true <-> 0 <= r <= 255 /\ 0 <= g <= 255 /\ 0 <= b <= 255.
Proof.
  unfold color_ok. rewrite !andb_true_iff, !Z.leb_le. tauto.
Qed.

Lemma conform_color_ok (color : option (Z * Z * Z)) :
  opcolor_ok (conform_color color) = true.
Proof.
  destruct color as [[[r g] b]|]; [|reflexivity].
  apply color_ok_spec. pose proof (clamp_range r). pose proof (clamp_range g).
  pose proof (clamp_range b). tauto.
Qed.

(** X1.  [conform_color] returns [None] or a colour with its three
    channels between 0 and 255; it changes nothing in a colour that is
    already so, and so conforming twice is conforming once. *)
Theorem conform_color_in_range (color : option (Z * Z * Z)) :
  opcolor_ok (conform_color color) = true
  /\ conform_color (conform_color color) = conform_color color
  /\ (opcolor_ok color = true -> conform_color color = color).
Proof.
  assert (Hid : forall c, opcolor_ok c = true -> conform_color c = c).
  { intros [[[r g] b]|] Hok; [|reflexivity]. apply color_ok_spec in Hok.
    unfold conform_color, clamp. repeat f_equal; lia. }
  pose proof (conform_color_ok color) as Hok.
  split_and!; [exact Hok | now apply Hid | apply Hid].
Qed.

Lemma conform_color_in_range_witness :
  opcolor_ok (Some (10, 200, 255)) = true
  /\ conform_color (Some (10, 200, 255)) = Some (10, 200, 255)
  /\ conform_color (Some (300, -2, 4)) = Some (255, 0, 4).
Proof.
  split; [reflexivity|]. split; [|reflexivity].
  apply (conform_color_in_range (Some (10, 200, 255))). reflexivity.
Defined.

Lemma default_colors_ok (n : nat) :
  Forall (fun c => opcolor_ok c = true) (map Some (drop n DEFAULT_COLORS)).
Proof.
  assert (H : Forall (fun c => color_ok c = true) (drop n DEFAULT_COLORS)).
  { apply Forall_drop. repeat constructor. }
  induction H; constructor; assumption.
Qed.

Lemma make_colors_length (color fill_color : option (Z * Z * Z))
    (colors : option (list (option (Z * Z * Z)))) :
  length (make_colors color fill_color colors) = 10%nat.
Proof.
  destruct colors as [colors|]; [|reflexivity].
  rewrite make_colors_given.
  rewrite length_app, !length_map, length_drop, length_take.
  change (length DEFAULT_COLORS) with 10%nat. lia.
Qed.

(** X2.  Whatever the three arguments, the palette of [make_colors] has
    ten slots, and each slot is [None] or a colour with its channels
    between 0 and 255. *)
Theorem make_colors_in_range (color fill_color : option (Z * Z * Z))
    (colors : option (list (option (Z * Z * Z)))) :
  length (make_colors color fill_color colors) = 10%nat
  /\ Forall (fun c => opcolor_ok c = true) (make_colors color fill_color colors).
Proof.
  destruct colors as [colors|].
  - rewrite make_colors_given. split.
    + rewrite <- (make_colors_given color fill_color). apply make_colors_length.
    + apply Forall_app. split.
      * induction (take 10 colors) as [|c l IH]; constructor;
          [apply conform_color_ok | exact IH].
      * apply default_colors_ok.
  - split; [reflexivity|]. unfold make_colors.
    repeat (apply Forall_cons; split; [apply conform_color_ok|]).
    apply default_colors_ok.
Qed.

(** ** Expansion *)

Lemma lsystem_loop_add (a b : nat) (rules : gmap string string) (start : string) :
  lsystem_loop b rules (lsystem_loop a rules start) = lsystem_loop (a + b) rules start.
Proof.
  revert start. induction a as [|a IH]; intros start; [reflexivity|].
  cbn [lsystem_loop Nat.add]. apply IH.
Qed.

(** X3.  Expanding in two goes: for levels [a] and [b] that are not
    negative, expanding the level [a] string by [b] more levels gives the
    level [a + b] string. *)
Theorem lsystem_levels_add (start : string) (rules : gmap string string) (a b : Z) :
  0 <= a -> 0 <= b ->
  lsystem (lsystem start rules a) rules b = lsystem start rules (a + b).
Proof.
  intros Ha Hb. unfold lsystem. rewrite lsystem_loop_add.
  now rewrite Z2Nat.inj_add.
Qed.

Lemma lsystem_levels_add_witness :
  0 <= 1 /\ 0 <= 2
  /\ lsystem (lsystem "F" (dict [("F", "F+F-F-F+F")]) 1) (dict [("F", "F+F-F-F+F")]) 2
     = lsystem "F" (dict [("F", "F+F-F-F+F")]) (1 + 2).
Proof.
  split; [lia|]. split; [lia|].
  apply (lsystem_levels_add "F" (dict [("F", "F+F-F-F+F")]) 1 2); lia.
Defined.

(** X4.  Expansion is free of context: the expansion of a concatenation
    is the concatenation of the expansions, at every level. *)
Theorem lsystem_concat (s1 s2 : string) (rules : gmap string string) (level : Z) :
  lsystem (s1 ++ s2)%string rules level
  = (lsystem s1 rules level ++ lsystem s2 rules level)%string.
Proof.
  unfold lsystem. generalize (Z.to_nat level) as n. intros n.
  revert s1 s2. induction n as [|n IH]; intros s1 s2; [reflexivity|].
  cbn [lsystem_loop]. rewrite join_rules_app. apply IH.
Qed.

Lemma join_rules_no_key (rules : gmap string string) (s : string) :
  (forall c : ascii, rules !! String c "" = None) -> join_rules rules s = s.
Proof.
  intros Hnone. induction s as [|c s IH]; [reflexivity|].
  cbn [join_rules]. unfold rules_get. rewrite Hnone, IH. reflexivity.
Qed.

(** X5.  Only the rules whose symbol is one character are ever applied:
    when no rule has a one-character symbol (no rule at all, or only
    rules with longer symbols), [lsystem] returns the start string at
    every level. *)
Theorem lsystem_no_single_symbol (start : string) (rules : gmap string string) (level : Z) :
  (forall c : ascii, rules !! String c "" = None) ->
  lsystem start rules level = start.
Proof.
  intros Hnone. unfold lsystem. generalize (Z.to_nat level) as n. intros n.
  induction n as [|n IH]; [reflexivity|].
  cbn [lsystem_loop]. now rewrite join_rules_no_key.
Qed.

Lemma lsystem_no_single_symbol_witness :
  lsystem "FF+F" (make_rules (inl "FF F-F")) 3 = "FF+F".
Proof.
  apply (lsystem_no_single_symbol "FF+F" (make_rules (inl "FF F-F")) 3).
  intros c. change (make_rules (inl "FF F-F")) with (<[ "FF" := "F-F" ]> (∅ : gmap string string)).
  rewrite lookup_insert_ne by discriminate. apply lookup_empty.
Defined.

(** ** Rules *)

Lemma no_space_snoc (cur : string) (c : ascii) :
  no_space cur = true -> isspace c = false -> no_space (cur ++ String c "")%string = true.
Proof.
  intros Hcur Hc. induction cur as [|x cur IH].
  - change (negb (isspace c) && true = true). now rewrite Hc.
  - change (String x cur ++ String c "")%string with (String x (cur ++ String c "")%string).
    cbn [no_space] in *. apply andb_prop in Hcur as [Hx Hcur].
    now rewrite Hx, IH.
Qed.

Lemma snoc_not_empty (cur : string) (c : ascii) : (cur ++ String c "")%string <> "".
Proof. destruct cur; discriminate. Qed.

(** The tokens of [split]: every one is a token, whatever is being read. *)
Lemma split_from_tokens (s cur : string) :
  no_space cur = true -> Forall is_token (split_from cur s).
Proof.
  revert cur. induction s as [|c s IH]; intros cur Hcur; cbn [split_from].
  - destruct (String.eqb_spec cur ""); repeat constructor; assumption.
  - destruct (isspace c) eqn:Hc.
    + destruct (String.eqb_spec cur "").
      * now apply IH.
      * constructor; [split; assumption | now apply IH].
    + apply IH. now apply no_space_snoc.
Qed.

Lemma pair_by_position_in (tokens : list string) (k v : string) :
  In (k, v) (pair_by_position tokens) -> In k tokens /\ In v tokens.
Proof.
  induction tokens as [tokens IH] using (induction_ltof1 _ (@length string)).
  unfold ltof in IH.
  destruct tokens as [|a [|b rest]]; cbn [pair_by_position]; try (intros []).
  - injection H as -> ->. cbn. auto.
  - destruct (IH rest ltac:(cbn; lia) H) as [Hk Hv]. cbn. auto.
Qed.

Lemma dict_lookup_in (pairs : list (string * string)) (k v : string) :
  dict pairs !! k = Some v -> In (k, v) pairs.
Proof.
  unfold dict. induction pairs as [|[k' v'] pairs IH] using rev_ind.
  - cbn. rewrite lookup_empty. discriminate.
  - rewrite foldl_snoc. cbn [fst snd]. intros H.
    apply in_or_app.
    destruct (decide (k' = k)) as [->|Hne].
    + rewrite lookup_insert_eq in H. injection H as ->. right. now left.
    + rewrite lookup_insert_ne in H by exact Hne. left. now apply IH.
Qed.

(** X6.  In the rules made from a string, every symbol and every
    replacement is a token of the string: neither is empty and neither
    holds whitespace.  A rule string therefore cannot give a symbol an
    empty replacement. *)
Theorem make_rules_tokens (s k v : string) :
  make_rules (inl s) !! k = Some v ->
  In k (split s) /\ In v (split s) /\ is_token k /\ is_token v.
Proof.
  intros H. unfold make_rules in H. rewrite zip_slices in H.
  apply dict_lookup_in, pair_by_position_in in H as [Hk Hv].
  pose proof (split_from_tokens s "" eq_refl) as Htok.
  rewrite List.Forall_forall in Htok.
  split_and!; [exact Hk | exact Hv | now apply Htok | now apply Htok].
Qed.

Lemma make_rules_tokens_witness :
  make_rules (inl "  F F+F   X  [X] ") !! "X" = Some "[X]"
  /\ is_token "X" /\ is_token "[X]".
Proof.
  assert (H : make_rules (inl "  F F+F   X  [X] ") !! "X" = Some "[X]") by (vm_compute; reflexivity).
  split; [exact H|].
  exact (proj2 (proj2 (make_rules_tokens "  F F+F   X  [X] " "X" "[X]" H))).
Defined.

Lemma pair_by_position_snoc (tokens : list string) (k v : string) :
  Nat.Even (length tokens) ->
  pair_by_position (tokens ++ [k; v]) = pair_by_position tokens ++ [(k, v)].
Proof.
  induction tokens as [tokens IH] using (induction_ltof1 _ (@length string)).
  unfold ltof in IH. intros Hev.
  destruct tokens as [|a [|b rest]]; [reflexivity | |].
  - destruct Hev as [n Hn]. cbn in Hn. lia.
  - cbn. f_equal. apply IH; [cbn; lia|].
    destruct Hev as [n Hn]. cbn in Hn. exists (n - 1)%nat. lia.
Qed.

(** X7.  When the rule string ends with a symbol and its replacement
    (after an even number of tokens), that rule is in the dictionary,
    whatever rules for the same symbol came before it: of two rules for
    one symbol the later one is kept. *)
Theorem make_rules_last_wins (s : string) (tokens : list string) (k v : string) :
  split s = tokens ++ [k; v] ->
  Nat.Even (length tokens) ->
  make_rules (inl s) !! k = Some v.
Proof.
  intros Hs Hev. unfold make_rules. rewrite Hs, zip_slices.
  rewrite pair_by_position_snoc by exact Hev.
  unfold dict. rewrite foldl_snoc. apply lookup_insert_eq.
Qed.

Lemma make_rules_last_wins_witness :
  split "F F+F F F-F" = ["F"; "F+F"] ++ ["F"; "F-F"]
  /\ make_rules (inl "F F+F F F-F") !! "F" = Some "F-F".
Proof.
  assert (H : split "F F+F F F-F" = ["F"; "F+F"] ++ ["F"; "F-F"]) by (vm_compute; reflexivity).
  split; [exact H|].
  apply (make_rules_last_wins "F F+F F F-F" ["F"; "F+F"] "F" "F-F" H).
  exists 1%nat. reflexivity.
Defined.

(** ** Characters *)


Lemma qualifying_classify (c : ascii) :
  qualifying (classify c) = capital c || (c =? "}")%char || (c =? "@")%char.
Proof. destruct c as [[] [] [] [] [] [] [] []]; vm_compute; reflexivity. Qed.

Lemma classify_backtick (c : ascii) : classify c = Backtick -> c = "`"%char.
Proof.
  destruct c as [[] [] [] [] [] [] [] []]; vm_compute; intros H;
    first [discriminate H | reflexivity].
Qed.


Section InterpreterMore.
Context {A : Arith} {G : Geometry A}.
Variable cfg : Config.


(** X9.  Two backticks in a row, and two ['&'] in a row, leave the state
    as it was: the second toggle undoes the first. *)
Theorem toggles_cancel (s : Locals) :
  loop cfg "``" s = Next s /\ loop cfg "&&" s = Next s.
Proof.
  assert (Hb : forall x, step cfg "`" x = Next (set_swap_cases (negb (swap_cases x)) x)).
  { intros x. rewrite step_not_alpha by reflexivity. reflexivity. }
  assert (Ha : forall x, step cfg "&" x = Next (set_swap_signs (negb (swap_signs x)) x)).
  { intros x. rewrite step_not_alpha by reflexivity. reflexivity. }
  split; cbn [loop]; rewrite ?Hb, ?Ha; destruct s; unfold set_swap_cases, set_swap_signs;
    cbn; rewrite negb_involutive; reflexivity.
Qed.

(** X10.  Interpreting [p ++ q] is interpreting [p] and then [q] from the
    state that [p] leaves; when [p] stops at an escape or raises, so does
    [p ++ q], in the same state or with the same exception. *)
Theorem loop_concat (p q : string) (s : Locals) :
  (forall s', loop cfg p s = Next s' -> loop cfg (p ++ q)%string s = loop cfg q s')
  /\ (forall s', loop cfg p s = Break s' -> loop cfg (p ++ q)%string s = Break s')
  /\ (forall e, loop cfg p s = Raise e -> loop cfg (p ++ q)%string s = Raise e).
Proof.
  split_and!; intros x Hp; rewrite loop_app, Hp; reflexivity.
Qed.

(** ** [orient] *)

(** X11.  [orient] puts the turtle at the position and at the heading it
    is given and leaves alone the one it is not given; the pen is up or
    down as before, and the speed and the width are as before.  So the
    double quote takes the turtle to the position [run] was given and
    keeps its heading, and the single quote gives it the heading [run]
    was given and keeps its position. *)
Theorem orient_restores_pen (p : option (num * num)) (h : option num) (t0 : Turtle) :
  pos (orient p h t0) = default (pos t0) p
  /\ hdg (orient p h t0) = default (hdg t0) h
  /\ isdown (orient p h t0) = isdown t0
  /\ speed (orient p h t0) = speed t0
  /\ width (orient p h t0) = width t0
  /\ (forall s : Locals,
        exists s', step cfg "034" s = Next s'
                   /\ pos (t s') = position cfg /\ hdg (t s') = hdg (t s)
                   /\ isdown (t s') = isdown (t s))
  /\ (forall s : Locals,
        exists s', step cfg "'" s = Next s'
                   /\ pos (t s') = pos (t s) /\ hdg (t s') = heading cfg
                   /\ isdown (t s') = isdown (t s)).
Proof.
  assert (Ho : forall p h t0,
             pos (orient p h t0) = default (pos t0) p
             /\ hdg (orient p h t0) = default (hdg t0) h
             /\ isdown (orient p h t0) = isdown t0
             /\ speed (orient p h t0) = speed t0
             /\ width (orient p h t0) = width t0).
  { intros p' h' t'. unfold orient.
    destruct p', h', (isdown t') eqn:Hd; cbn; rewrite ?Hd; split_and!; reflexivity. }
  destruct (Ho p h t0) as (H1 & H2 & H3 & H4 & H5).
  split_and!; try assumption.
  - intros s. eexists. rewrite step_not_alpha by reflexivity.
    split; [reflexivity|].
    destruct (Ho (Some (position cfg)) None (t s)) as (Hp & Hh & Hd & _).
    split_and!; assumption.
  - intros s. eexists. rewrite step_not_alpha by reflexivity.
    split; [reflexivity|].
    destruct (Ho None (Some (heading cfg)) (t s)) as (Hp & Hh & Hd & _).
    split_and!; assumption.
Qed.

(** ** Calls made *)

Lemma made_refl (f : Call -> bool) (t0 : Turtle) : made f t0 t0.
Proof. exists []. split; [now rewrite app_nil_r | constructor]. Qed.

Lemma made_trans (f : Call -> bool) (t0 t1 t2 : Turtle) :
  made f t0 t1 -> made f t1 t2 -> made f t0 t2.
Proof.
  intros (l1 & Hl1 & Hf1) (l2 & Hl2 & Hf2). exists (l1 ++ l2). split.
  - rewrite Hl2, Hl1. now rewrite app_assoc.
  - apply Forall_app. split; assumption.
Qed.

Lemma made_call (f : Call -> bool) (c : Call) (t0 t1 : Turtle) :
  f c = true -> made f t0 t1 -> made f t0 (call c t1).
Proof.
  intros Hc H. eapply made_trans; [exact H|].
  exists [c]. split; [destruct c; reflexivity | repeat constructor; exact Hc].
Qed.

Lemma made_orient (f : Call -> bool) (p : option (num * num)) (h : option num)
    (t0 t1 : Turtle) :
  f t_penup = true -> f t_pendown = true ->
  (forall v, f (t_speed v) = true) ->
  (forall q, f (t_setposition q) = true) ->
  (forall a, f (t_setheading a) = true) ->
  made f t0 t1 -> made f t0 (orient p h t1).
Proof.
  intros Hup Hdown Hspeed Hpos Hhdg H. unfold orient.
  destruct p, h, (isdown t1); repeat (apply made_call; [auto|]); exact H.
Qed.

Ltac open_state :=
  cbn [t angle length' thickness pen_color fill_color swap_signs swap_cases modify_fill
       stack gif_data draws frames_attempted on_t set_angle set_length set_thickness
       set_pen_color set_fill_color set_swap_signs set_swap_cases set_modify_fill
       set_stack set_gif_data set_draws set_frames_attempted set_pensize] in *.

Ltac making :=
  repeat first
    [ apply made_refl
    | apply made_orient; [reflexivity | reflexivity | reflexivity | reflexivity | reflexivity |]
    | apply made_call; [first [reflexivity | assumption] |] ].

(** ** Without a gif *)

Lemma gif_off_step (c : ascii) (s s' : Locals) :
  gif_on cfg = false ->
  step cfg c s = Next s' \/ step cfg c s = Break s' ->
  draws s' = draws s
  /\ frames_attempted s' = frames_attempted s
  /\ gif_data s' = gif_data s
  /\ made not_save_eps (t s) (t s').
Proof.
  intros Hgif. unfold step.
  destruct (symbol_character (swap_cases s) c) as [c' ->].
  intros H.
  destruct (classify c') eqn:Hc; cbn [dispatch] in H;
    unfold gif_handler, set_color, increment_color, set_color in H; rewrite ?Hgif in H;
    destruct H as [H|H]; repeat case_match; simplify_eq; open_state;
    (split_and!; [reflexivity | reflexivity | reflexivity | making]).
Qed.

Lemma gif_off_loop (w : string) :
  forall s s' : Locals,
    gif_on cfg = false ->
    loop cfg w s = Next s' \/ loop cfg w s = Break s' ->
    draws s' = draws s
    /\ frames_attempted s' = frames_attempted s
    /\ gif_data s' = gif_data s
    /\ made not_save_eps (t s) (t s').
Proof.
  induction w as [|c w IH]; intros s s' Hgif H.
  - cbn in H. destruct H as [H|H]; [|discriminate]. simplify_eq.
    split_and!; try reflexivity. apply made_refl.
  - cbn [loop] in H. destruct (step cfg c s) as [s1|s1|e] eqn:Hstep.
    + destruct (gif_off_step c s s1 Hgif (or_introl Hstep)) as (H1 & H2 & H3 & H4).
      destruct (IH s1 s' Hgif H) as (H5 & H6 & H7 & H8).
      split_and!; try congruence. eapply made_trans; eauto.
    + destruct H as [H|H]; [discriminate|]. simplify_eq.
      apply (gif_off_step c s s' Hgif (or_intror Hstep)).
    + destruct H; discriminate.
Qed.

(** X12.  Without a gif (no name, or an empty one) a run that returns
    has captured no frame: no frame is stored or attempted, the draw
    counter is still 0, and none of the calls made is a capture. *)
Theorem run_without_gif (t0 : Turtle) (w : string) (s : Locals) :
  gif_on cfg = false ->
  run cfg t0 w = Returned s ->
  gif_data s = []
  /\ frames_attempted s = 0
  /\ draws s = 0
  /\ exists l, calls (t s) = calls t0 ++ l /\ Forall (fun c => not_save_eps c = true) l.
Proof.
  intros Hgif Hrun. unfold run in Hrun.
  destruct (colors cfg !! 0%nat) as [pen|]; [|discriminate].
  destruct (colors cfg !! 1%nat) as [fill|]; [|discriminate].
  assert (Hstart : draws (start cfg t0 pen fill) = 0
                   /\ frames_attempted (start cfg t0 pen fill) = 0
                   /\ gif_data (start cfg t0 pen fill) = []
                   /\ made not_save_eps t0 (t (start cfg t0 pen fill))).
  { unfold start. rewrite Hgif. destruct pen, fill; open_state;
      (split_and!; [reflexivity | reflexivity | reflexivity | making]). }
  destruct Hstart as (H1 & H2 & H3 & H4).
  assert (Hfin : exists s1,
             (loop cfg w (start cfg t0 pen fill) = Next s1
              \/ loop cfg w (start cfg t0 pen fill) = Break s1)
             /\ finish cfg s1 = Returned s).
  { destruct (loop cfg w (start cfg t0 pen fill)) as [s1|s1|e];
      [exists s1; auto | exists s1; auto | discriminate]. }
  destruct Hfin as (s1 & Hloop & Hfin).
  unfold finish in Hfin. rewrite Hgif in Hfin. simplify_eq.
  destruct (gif_off_loop w _ s Hgif Hloop) as (H5 & H6 & H7 & H8).
  split_and!; try congruence. exact (made_trans _ _ _ _ H4 H8).
Qed.

(** ** The stored frames *)

Lemma save_frame_numbered (s : Locals) :
  gif_data s = seq 0 (length (gif_data s)) ->
  Z.of_nat (length (gif_data s)) <= Z.max 0 (max_frames cfg) ->
  gif_data (save_frame cfg s) = seq 0 (length (gif_data (save_frame cfg s)))
  /\ Z.of_nat (length (gif_data (save_frame cfg s))) <= Z.max 0 (max_frames cfg).
Proof.
  intros Hseq Hlen. unfold save_frame. open_state.
  destruct (Z.ltb_spec (Z.of_nat (length (gif_data s))) (max_frames cfg)); open_state;
    [|auto].
  rewrite length_app. cbn [length]. split; [|lia].
  rewrite Nat.add_1_r, seq_S. cbn. now rewrite <- Hseq.
Qed.

Lemma step_numbered (c : ascii) (s s' : Locals) :
  step cfg c s = Next s' \/ step cfg c s = Break s' ->
  gif_data s = seq 0 (length (gif_data s)) ->
  Z.of_nat (length (gif_data s)) <= Z.max 0 (max_frames cfg) ->
  gif_data s' = seq 0 (length (gif_data s'))
  /\ Z.of_nat (length (gif_data s')) <= Z.max 0 (max_frames cfg).
Proof.
  unfold step.
  destruct (symbol_character (swap_cases s) c) as [c' ->].
  intros H Hseq Hlen.
  destruct (qualifying (classify c')) eqn:Hq.
  - assert (Hh : forall x, gif_data x = gif_data s ->
                           gif_handler cfg x = Next s' ->
                           gif_data s' = seq 0 (length (gif_data s'))
                           /\ Z.of_nat (length (gif_data s')) <= Z.max 0 (max_frames cfg)).
    { intros x Hx Hg. unfold gif_handler in Hg.
      repeat case_match; simplify_eq; open_state; rewrite ?Hx; auto.
      apply save_frame_numbered; open_state; now rewrite Hx. }
    destruct (classify c'); try discriminate Hq; cbn [dispatch] in H;
      (destruct H as [H|H];
       [ eapply Hh; [|exact H]; repeat case_match; reflexivity
       | unfold gif_handler in H; repeat case_match; discriminate H ]).
  - destruct (dispatch_counters cfg _ s s' Hq H) as (_ & _ & Hg). now rewrite Hg.
Qed.

Lemma loop_numbered (w : string) :
  forall s s' : Locals,
    loop cfg w s = Next s' \/ loop cfg w s = Break s' ->
    gif_data s = seq 0 (length (gif_data s)) ->
    Z.of_nat (length (gif_data s)) <= Z.max 0 (max_frames cfg) ->
    gif_data s' = seq 0 (length (gif_data s'))
    /\ Z.of_nat (length (gif_data s')) <= Z.max 0 (max_frames cfg).
Proof.
  induction w as [|c w IH]; intros s s' H Hseq Hlen.
  - cbn in H. destruct H as [H|H]; [|discriminate]. now simplify_eq.
  - cbn [loop] in H. destruct (step cfg c s) as [s1|s1|e] eqn:Hstep.
    + destruct (step_numbered c s s1 (or_introl Hstep) Hseq Hlen). now apply (IH s1 s').
    + destruct H as [H|H]; [discriminate|]. simplify_eq.
      apply (step_numbered c s s' (or_intror Hstep) Hseq Hlen).
    + destruct H; discriminate.
Qed.

Lemma run_numbered (t0 : Turtle) (w : string) (s : Locals) :
  run cfg t0 w = Returned s ->
  gif_data s = seq 0 (length (gif_data s))
  /\ Z.of_nat (length (gif_data s)) <= Z.max 0 (max_frames cfg).
Proof.
  intros Hrun. unfold run in Hrun.
  destruct (colors cfg !! 0%nat) as [pen|]; [|discriminate].
  destruct (colors cfg !! 1%nat) as [fill|]; [|discriminate].
  assert (Hstart : gif_data (start cfg t0 pen fill)
                   = seq 0 (length (gif_data (start cfg t0 pen fill)))
                   /\ Z.of_nat (length (gif_data (start cfg t0 pen fill)))
                      <= Z.max 0 (max_frames cfg)).
  { unfold start. destruct (gif_on cfg).
    - apply save_frame_numbered; destruct pen, fill; open_state; cbn; try reflexivity; lia.
    - destruct pen, fill; open_state; cbn; split; try reflexivity; lia. }
  destruct Hstart as (H1 & H2).
  assert (Hfin : exists s1,
             (loop cfg w (start cfg t0 pen fill) = Next s1
              \/ loop cfg w (start cfg t0 pen fill) = Break s1)
             /\ finish cfg s1 = Returned s).
  { destruct (loop cfg w (start cfg t0 pen fill)) as [s1|s1|e];
      [exists s1; auto | exists s1; auto | discriminate]. }
  destruct Hfin as (s1 & Hloop & Hfin).
  destruct (loop_numbered w _ s1 Hloop H1 H2) as (H3 & H4).
  unfold finish in Hfin.
  repeat case_match; simplify_eq; first [now apply save_frame_numbered | auto].
Qed.

(** X13.  Whatever the options, the frames a returned run has stored are
    numbered 0, 1, 2, ... in the order of their capture, so that no two
    of them share a file name, and there are never more of them than
    [max_frames] (none when [max_frames] is 0 or negative). *)
Theorem frames_numbered (t0 : Turtle) (w : string) (s : Locals) :
  run cfg t0 w = Returned s ->
  gif_data s = seq 0 (length (gif_data s))
  /\ NoDup (gif_data s)
  /\ Z.of_nat (length (gif_data s)) <= Z.max 0 (max_frames cfg).
Proof.
  intros Hrun. destruct (run_numbered t0 w s Hrun) as (H5 & H6).
  split_and!; [exact H5 | | exact H6].
  rewrite H5. apply NoDup_seq.
Qed.

(** ** Counting the draws *)

Lemma unswapped_dispatch (sym : Symbol) (s s' : Locals) :
  sym <> Backtick ->
  unswapped s ->
  dispatch cfg sym s = Next s' \/ dispatch cfg sym s = Break s' ->
  unswapped s'.
Proof.
  intros Hsym [Hswap Hstack] H. unfold unswapped.
  destruct sym; try congruence; cbn [dispatch] in H;
    unfold gif_handler, save_frame, increment_color, set_color in H;
    destruct H as [H|H]; repeat case_match; simplify_eq; open_state;
    try (split; assumption).
  - split; [exact Hswap | constructor].
  - split; [assumption | constructor; [exact Hswap | exact Hstack]].
  - split; [assumption|].
    match goal with Hs : stack _ = [] |- _ => rewrite Hs end. constructor.
  - apply Forall_cons in Hstack as [Htop Hrest]. split; assumption.
Qed.

Lemma draws_dispatch (sym : Symbol) (s s' : Locals) :
  gif_on cfg = true ->
  dispatch cfg sym s = Next s' \/ dispatch cfg sym s = Break s' ->
  draws s' = draws s + (if qualifying sym then 1 else 0).
Proof.
  intros Hgif H. destruct (qualifying sym) eqn:Hq.
  - assert (Hh : forall x, draws x = draws s ->
                           gif_handler cfg x = Next s' -> draws s' = draws s + 1).
    { intros x Hx Hg. unfold gif_handler in Hg. rewrite Hgif in Hg.
      repeat case_match; simplify_eq; rewrite ?(proj1 (save_frame_counts cfg _));
        open_state; now rewrite Hx. }
    destruct sym; try discriminate Hq; cbn [dispatch] in H;
      (destruct H as [H|H];
       [ eapply Hh; [|exact H]; repeat case_match; reflexivity
       | unfold gif_handler in H; repeat case_match; discriminate H ]).
  - destruct (dispatch_counters cfg sym s s' Hq H) as (Hd & _). lia.
Qed.

Lemma draws_loop (w : string) :
  forall s s' : Locals,
    gif_on cfg = true ->
    occurs "`" w = false ->
    unswapped s ->
    loop cfg w s = Next s' \/ loop cfg w s = Break s' ->
    draws s' = draws s + qualifying_draws w.
Proof.
  induction w as [|c w IH]; intros s s' Hgif Hw Hun H.
  - cbn in H. destruct H as [H|H]; [|discriminate]. simplify_eq. cbn. lia.
  - cbn [occurs] in Hw. apply orb_false_iff in Hw as [Hc Hw].
    cbn [loop] in H. cbn [qualifying_draws].
    assert (Hstep : step cfg c s = dispatch cfg (classify c) s).
    { unfold step. rewrite (proj1 Hun). reflexivity. }
    assert (Hnb : classify c <> Backtick).
    { intros Hb. apply classify_backtick in Hb. subst c. discriminate Hc. }
    destruct (Ascii.eqb_spec c "\") as [->|Hesc]; cbv iota.
    + rewrite Hstep in H. change (classify "\") with Backslash in H.
      cbn [dispatch] in H. destruct H as [H|H]; [discriminate|].
      simplify_eq. lia.
    + rewrite Hstep in H.
      destruct (dispatch cfg (classify c) s) as [s1|s1|e] eqn:Hd.
      * rewrite (IH s1 s' Hgif Hw); [| |exact H].
        -- rewrite (draws_dispatch _ s s1 Hgif (or_introl Hd)), qualifying_classify. lia.
        -- eapply unswapped_dispatch; [exact Hnb | exact Hun | left; exact Hd].
      * exfalso. pose proof (classify_stack_symbols false c) as Hcs.
        cbn [andb] in Hcs.
        destruct (classify c); cbn [dispatch] in Hd;
          try (unfold gif_handler in Hd; repeat case_match; discriminate Hd);
          try (repeat case_match; discriminate Hd).
        now apply Hesc.
      * destruct H; discriminate.
Qed.

(** X14.  With a gif and no backtick in the string, the draw counter of a
    returned run is the number of uppercase letters, ['}'] and ['@'] that
    the string has before its first escape. *)
Theorem draws_counted (t0 : Turtle) (w : string) (s : Locals) :
  gif_on cfg = true ->
  occurs "`" w = false ->
  run cfg t0 w = Returned s ->
  draws s = qualifying_draws w.
Proof.
  intros Hgif Hw Hrun. unfold run in Hrun.
  destruct (colors cfg !! 0%nat) as [pen|]; [|discriminate].
  destruct (colors cfg !! 1%nat) as [fill|]; [|discriminate].
  assert (Hstart : draws (start cfg t0 pen fill) = 0 /\ unswapped (start cfg t0 pen fill)).
  { unfold start, unswapped. rewrite Hgif. unfold save_frame.
    destruct pen, fill; repeat case_match; open_state;
      (split; [reflexivity | split; [reflexivity | constructor]]). }
  destruct Hstart as (H0 & Hun).
  assert (Hfin : exists s1,
             (loop cfg w (start cfg t0 pen fill) = Next s1
              \/ loop cfg w (start cfg t0 pen fill) = Break s1)
             /\ finish cfg s1 = Returned s).
  { destruct (loop cfg w (start cfg t0 pen fill)) as [s1|s1|e];
      [exists s1; auto | exists s1; auto | discriminate]. }
  destruct Hfin as (s1 & Hloop & Hfin).
  pose proof (draws_loop w _ s1 Hgif Hw Hun Hloop) as Hd.
  assert (Hs : draws s = draws s1).
  { unfold finish in Hfin. repeat case_match; simplify_eq;
      first [apply save_frame_counts | reflexivity]. }
  lia.
Qed.

(** ** Thickness and the stack *)

(** X15.  [']'] leaves the thickness alone: after [p ++ "]"] the
    thickness, and the width of the turtle, are what they were after [p],
    whatever thickness the popped state was pushed with. *)
Theorem pop_keeps_thickness (p : string) (s s' : Locals) :
  loop cfg (p ++ "]")%string s = Next s' ->
  exists s1,
    loop cfg p s = Next s1
    /\ thickness s' = thickness s1
    /\ width (t s') = width (t s1).
Proof.
  intros H. rewrite loop_app in H.
  destruct (loop cfg p s) as [s1| |]; try discriminate.
  exists s1. split; [reflexivity|].
  cbn [loop] in H. destruct (step cfg "]" s1) as [s2| |] eqn:Hstep; try discriminate.
  simplify_eq. rewrite step_not_alpha in Hstep by reflexivity.
  destruct (dispatch_quiet cfg RBracket s1 s') as (Hth & Hw & _);
    [discriminate | discriminate | discriminate | left; exact Hstep |].
  split; assumption.
Qed.

(** X16.  In a string that holds no ['$'] and no escape and never closes
    a bracket that is not open, each ['['] that is still open at the end
    has left one state on the stack, above the states that were there. *)
Theorem stack_depth (w : string) (depth : nat) (s s' : Locals) :
  keeps_stack w = true ->
  nesting 0 w = Some depth ->
  loop cfg w s = Next s' ->
  exists pushed, stack s' = pushed ++ stack s /\ length pushed = depth.
Proof.
  intros Hk Hn Hloop.
  exact (loop_nesting cfg w 0 depth s s' [] (stack s) Hk Hn eq_refl eq_refl Hloop).
Qed.

(** ** Colours stay in range *)

Lemma incremented_ok (channel : Channel) (decrement : bool) (lst : Color) :
  color_ok lst = true -> color_ok (incremented cfg channel decrement lst) = true.
Proof.
  destruct lst as [[r g] b]. intros H. apply color_ok_spec in H.
  unfold incremented.
  match goal with |- context [clamp ?v 0 255] => pose proof (clamp_range v) end.
  destruct channel; cbn [set_channel get_channel] in *; apply color_ok_spec; lia.
Qed.

Lemma set_color_tidy (color : OpColor) (s : Locals) :
  opcolor_ok color = true -> tidy s ->
  tidy (set_color color s) /\ made call_ok (t s) (t (set_color color s)).
Proof.
  intros Hc (Hp & Hf & Hs). unfold set_color, tidy.
  destruct (modify_fill s), color as [c|]; open_state; cbn [opcolor_ok] in *;
    (split; [split_and!; first [assumption | reflexivity] | making]).
Qed.

Lemma increment_color_tidy (channel : Channel) (decrement : bool) (s : Locals) :
  tidy s ->
  tidy (increment_color cfg channel decrement s)
  /\ made call_ok (t s) (t (increment_color cfg channel decrement s)).
Proof.
  intros Hs. unfold increment_color.
  destruct (if modify_fill s then fill_color s else pen_color s) as [lst|] eqn:Hlst.
  - apply set_color_tidy; [|exact Hs]. cbn [opcolor_ok]. apply incremented_ok.
    destruct Hs as (Hp & Hf & _).
    destruct (modify_fill s); [rewrite Hlst in Hf | rewrite Hlst in Hp]; assumption.
  - split; [exact Hs | apply made_refl].
Qed.

Lemma save_frame_tidy (s : Locals) :
  tidy s -> tidy (save_frame cfg s) /\ made call_ok (t s) (t (save_frame cfg s)).
Proof.
  intros Hs. unfold save_frame. case_match; unfold tidy in *; open_state;
    (split; [exact Hs | making]).
Qed.

Lemma gif_handler_tidy (s s' : Locals) :
  tidy s -> gif_handler cfg s = Next s' -> tidy s' /\ made call_ok (t s) (t s').
Proof.
  intros Hs H. unfold gif_handler in H. repeat case_match; simplify_eq.
  - apply (save_frame_tidy (set_draws (draws s + 1) s)). exact Hs.
  - split; [exact Hs | apply made_refl].
  - split; [exact Hs | apply made_refl].
Qed.

Lemma dispatch_tidy (sym : Symbol) (s s' : Locals) :
  Forall (fun c => opcolor_ok c = true) (colors cfg) ->
  tidy s ->
  dispatch cfg sym s = Next s' \/ dispatch cfg sym s = Break s' ->
  tidy s' /\ made call_ok (t s) (t s').
Proof.
  intros Hpal Hs H.
  assert (Hh : forall x, tidy x -> made call_ok (t s) (t x) ->
                         gif_handler cfg x = Next s' ->
                         tidy s' /\ made call_ok (t s) (t s')).
  { intros x Hx Hm Hg. destruct (gif_handler_tidy x s' Hx Hg) as [H1 H2].
    split; [exact H1 | eapply made_trans; eassumption]. }
  pose proof Hs as (Hp & Hf & Hst).
  destruct sym; cbn [dispatch] in H; destruct H as [H|H];
    try discriminate H;
    try (unfold gif_handler in H; repeat case_match; discriminate H).
  all: try (repeat case_match; simplify_eq; unfold tidy in *; open_state;
            (split; [split_and!; first [assumption | constructor] | making]); fail).
  all: try (simplify_eq; apply increment_color_tidy; exact Hs).
  - (* an uppercase letter *)
    eapply Hh; [| |exact H]; repeat case_match; unfold tidy in *; open_state;
      first [split_and!; assumption | making].
  - (* a digit *)
    destruct (colors cfg !! n) as [color|] eqn:Hn; [|discriminate]. simplify_eq.
    apply set_color_tidy; [|exact Hs].
    rewrite List.Forall_forall in Hpal. apply Hpal.
    apply list_elem_of_In. eapply list_elem_of_lookup_2. exact Hn.
  - (* the end of a fill *)
    eapply Hh; [| |exact H]; repeat case_match; unfold tidy in *; open_state;
      first [split_and!; assumption | making].
  - (* a dot *)
    destruct (fill_color s) as [c|] eqn:Hc.
    + eapply Hh; [| |exact H]; unfold tidy in *; open_state;
        [rewrite Hc; split_and!; assumption | cbn [opcolor_ok] in Hf; making].
    + eapply Hh; [exact Hs | apply made_refl | exact H].
  - (* a push *)
    simplify_eq. unfold tidy. open_state. split; [|making].
    split_and!; try assumption. constructor; [|exact Hst].
    unfold state_ok, snapshot. cbn. now rewrite Hp, Hf.
  - (* a pop *)
    destruct (stack s) as [|state rest] eqn:Hstack; simplify_eq;
      [split; [exact Hs | apply made_refl]|].
    apply Forall_cons in Hst as [Htop Hrest].
    unfold state_ok in Htop. apply andb_prop in Htop as [Hsp Hsf].
    unfold tidy. open_state. split; [split_and!; assumption | making].
Qed.

Lemma loop_tidy (w : string) :
  forall s s' : Locals,
    Forall (fun c => opcolor_ok c = true) (colors cfg) ->
    tidy s ->
    loop cfg w s = Next s' \/ loop cfg w s = Break s' ->
    tidy s' /\ made call_ok (t s) (t s').
Proof.
  induction w as [|c w IH]; intros s s' Hpal Hs H.
  - cbn in H. destruct H as [H|H]; [|discriminate]. simplify_eq.
    split; [exact Hs | apply made_refl].
  - cbn [loop] in H. destruct (step cfg c s) as [s1|s1|e] eqn:Hstep.
    + destruct (dispatch_tidy _ s s1 Hpal Hs (or_introl Hstep)) as [H1 H2].
      destruct (IH s1 s' Hpal H1 H) as [H3 H4].
      split; [exact H3 | eapply made_trans; eassumption].
    + destruct H as [H|H]; [discriminate|]. simplify_eq.
      apply (dispatch_tidy _ s s' Hpal Hs (or_intror Hstep)).
    + destruct H; discriminate.
Qed.

(** X17.  With a palette whose colours are all in range, as
    [make_colors] builds it, a returned run leaves a pen colour and a fill
    colour that are [None] or have their channels between 0 and 255, and
    every colour it has passed to [pencolor], [fillcolor] and [dot] is
    between 0 and 255 too, however many channel moves were made. *)
Theorem run_colors_in_range (t0 : Turtle) (w : string) (s : Locals) :
  Forall (fun c => opcolor_ok c = true) (colors cfg) ->
  run cfg t0 w = Returned s ->
  opcolor_ok (pen_color s) = true
  /\ opcolor_ok (fill_color s) = true
  /\ exists l, calls (t s) = calls t0 ++ l /\ Forall (fun c => call_ok c = true) l.
Proof.
  intros Hpal Hrun. unfold run in Hrun.
  destruct (colors cfg !! 0%nat) as [pen|] eqn:Hpen; [|discriminate].
  destruct (colors cfg !! 1%nat) as [fill|] eqn:Hfill; [|discriminate].
  assert (Hin : opcolor_ok pen = true /\ opcolor_ok fill = true).
  { rewrite List.Forall_forall in Hpal.
    split; apply Hpal, list_elem_of_In; eapply list_elem_of_lookup_2; eassumption. }
  destruct Hin as [Hp Hf].
  assert (Hstart : tidy (start cfg t0 pen fill)
                   /\ made call_ok t0 (t (start cfg t0 pen fill))).
  { unfold start.
    match goal with |- context [save_frame cfg ?x] => set (s0 := x) end.
    assert (H0 : tidy s0 /\ made call_ok t0 (t s0)).
    { subst s0. unfold tidy. destruct pen, fill; open_state; cbn [opcolor_ok] in *;
        (split; [split_and!; first [assumption | reflexivity | constructor] | making]). }
    destruct H0 as [H1 H2]. destruct (gif_on cfg); [|auto].
    destruct (save_frame_tidy s0 H1) as [H3 H4].
    split; [exact H3 | eapply made_trans; eassumption]. }
  destruct Hstart as [H1 H2].
  assert (Hfin : exists s1,
             (loop cfg w (start cfg t0 pen fill) = Next s1
              \/ loop cfg w (start cfg t0 pen fill) = Break s1)
             /\ finish cfg s1 = Returned s).
  { destruct (loop cfg w (start cfg t0 pen fill)) as [s1|s1|e];
      [exists s1; auto | exists s1; auto | discriminate]. }
  destruct Hfin as (s1 & Hloop & Hfin).
  destruct (loop_tidy w _ s1 Hpal H1 Hloop) as [H3 H4].
  assert (Hs : tidy s /\ made call_ok (t s1) (t s)).
  { unfold finish in Hfin. repeat case_match; simplify_eq;
      first [now apply save_frame_tidy | split; [exact H3 | apply made_refl]]. }
  destruct Hs as [(H5 & H6 & _) H7].
  split_and!; [exact H5 | exact H6 |].
  exact (made_trans _ _ _ _ (made_trans _ _ _ _ H2 H4) H7).
Qed.

End InterpreterMore.

(** ** The padding rectangle *)

Section PaddingRect.
Variable image : Image.

(** The two loops visit the pixels row by row. *)
Lemma foldl_rows {X : Type} (f : X -> Z -> Z -> X) (xs ys : list Z) (b : X) :
  foldl (fun b y => foldl (fun b x => f b y x) b xs) b ys
  = foldl (fun b p => f b p.2 p.1) b (flat_map (fun y => map (fun x => (x, y)) xs) ys).
Proof.
  assert (Hrow : forall y b,
             foldl (fun b p => f b p.2 p.1) b (map (fun x => (x, y)) xs)
             = foldl (fun b x => f b y x) b xs).
  { intros y. induction xs as [|x xs' IHx]; intros b0; [reflexivity|].
    cbn [foldl map]. apply IHx. }
  revert b. induction ys as [|y ys IH]; intros b; [reflexivity|].
  cbn [foldl flat_map]. rewrite foldl_app, Hrow. apply IH.
Qed.

Lemma range_spec (n x : Z) : In x (range n) <-> 0 <= x < n.
Proof.
  unfold range. rewrite in_map_iff. split.
  - intros (k & <- & Hk). apply in_seq in Hk. lia.
  - intros Hx. exists (Z.to_nat x). split; [lia|]. apply in_seq. lia.
Qed.

Lemma pixels_spec (x y : Z) :
  In (x, y) (flat_map (fun y => map (fun x => (x, y)) (range (im_width image)))
               (range (im_height image)))
  <-> 0 <= x < im_width image /\ 0 <= y < im_height image.
Proof.
  rewrite in_flat_map. split.
  - intros (y' & Hy & Hin). apply in_map_iff in Hin as (x' & Heq & Hx).
    injection Heq as -> ->. apply range_spec in Hy, Hx. tauto.
  - intros [Hx Hy]. exists y. split; [now apply range_spec|].
    apply in_map_iff. exists x. split; [reflexivity | now apply range_spec].
Qed.

Lemma scanned_foldl (l : list (Z * Z)) (b0 : Bounds) :
  empty b0 = true ->
  (forall x y, In (x, y) l ->
               x <= x_min b0 /\ x_max b0 <= x /\ y <= y_min b0 /\ y_max b0 <= y) ->
  scanned image l b0 (foldl (fun b p => look image p.2 p.1 b) b0 l).
Proof.
  intros He Hin. induction l as [|[x y] l IH] using rev_ind.
  - split_and!; [intros x y [] | reflexivity | cbn; congruence].
  - rewrite foldl_snoc. cbn [fst snd].
    assert (Hl : forall x y, In (x, y) l ->
                   x <= x_min b0 /\ x_max b0 <= x /\ y <= y_min b0 /\ y_max b0 <= y).
    { intros x' y' H'. apply Hin, in_or_app. now left. }
    specialize (IH Hl). destruct IH as (Hcov & Hemp & Hatt).
    specialize (Hin x y ltac:(apply in_or_app; right; now left)).
    set (b := foldl (fun b p => look image p.2 p.1 b) b0 l) in *.
    unfold look. destruct (Z.eqb_spec (alpha image x y) 0) as [Hz|Hnz]; cbn [negb].
    + split_and!.
      * intros x' y' H' Ha. apply in_app_or in H' as [H'|[H'|[]]]; [now apply Hcov|].
        injection H' as <- <-. contradiction.
      * exact Hemp.
      * intros Hb. destruct (Hatt Hb) as ((ya & Ha1 & Ha2) & (yb & Hb1 & Hb2)
                                          & (xc & Hc1 & Hc2) & (xd & Hd1 & Hd2)).
        split_and!; eexists; (split; [apply in_or_app; left; eassumption | assumption]).
    + split_and!.
      * intros x' y' H' Ha. cbn [x_min x_max y_min y_max empty].
        apply in_app_or in H' as [H'|[H'|[]]].
        -- destruct (Hcov x' y' H' Ha) as (_ & Hx & Hy). split; [reflexivity | lia].
        -- injection H' as <- <-. split; [reflexivity | lia].
      * cbn [empty]. discriminate.
      * intros _. cbn [x_min x_max y_min y_max].
        destruct (empty b) eqn:Hb.
        -- rewrite (Hemp eq_refl).
           replace (Z.min (x_min b0) x) with x by lia.
           replace (Z.max (x_max b0) x) with x by lia.
           replace (Z.min (y_min b0) y) with y by lia.
           replace (Z.max (y_max b0) y) with y by lia.
           split_and!; eexists; (split; [apply in_or_app; right; left; reflexivity | exact Hnz]).
        -- destruct (Hatt eq_refl) as ((ya & Ha1 & Ha2) & (yb & Hb1 & Hb2)
                                       & (xc & Hc1 & Hc2) & (xd & Hd1 & Hd2)).
           split_and!.
           ++ destruct (Z.min_spec (x_min b) x) as [[_ ->]|[_ ->]];
                eexists; (split; [apply in_or_app | eassumption]);
                [left; eassumption | right; left; reflexivity].
           ++ destruct (Z.max_spec (x_max b) x) as [[_ ->]|[_ ->]];
                eexists; (split; [apply in_or_app | eassumption]);
                [right; left; reflexivity | left; eassumption].
           ++ destruct (Z.min_spec (y_min b) y) as [[_ ->]|[_ ->]];
                eexists; (split; [apply in_or_app | eassumption]);
                [left; eassumption | right; left; reflexivity].
           ++ destruct (Z.max_spec (y_max b) y) as [[_ ->]|[_ ->]];
                eexists; (split; [apply in_or_app | eassumption]);
                [right; left; reflexivity | left; eassumption].
Qed.

End PaddingRect.

Lemma scan_scanned (image : Image) :
  exists b0,
    empty b0 = true
    /\ scanned image
         (flat_map (fun y => map (fun x => (x, y)) (range (im_width image)))
            (range (im_height image)))
         b0 (scan image).
Proof.
  eexists. split; [|unfold scan; rewrite (foldl_rows (fun b y x => look image y x b));
                    apply scanned_foldl].
  - reflexivity.
  - reflexivity.
  - intros x y Hin. apply pixels_spec in Hin. cbn. lia.
Qed.

(** X18.  The rectangle of [get_padding_rect] is never empty, whatever
    the padding, negative ones included: its right edge is beyond its
    left edge and its bottom edge beyond its top edge.  With a padding
    that is not negative, every pixel of the image that is not fully
    transparent lies in the rectangle, [padding] pixels or more away from
    each of its four edges. *)
Theorem padding_rect_contains (image : Image) (padding x0 y0 x1 y1 : Z) :
  get_padding_rect image padding = (x0, y0, x1, y1) ->
  (x0 < x1 /\ y0 < y1)
  /\ (0 <= padding ->
      forall x y : Z,
        opaque image x y ->
        (x0 <= x < x1 /\ y0 <= y < y1)
        /\ (x0 <= x - padding /\ x + padding < x1 /\ y0 <= y - padding /\ y + padding < y1)).
Proof.
  intros H. unfold get_padding_rect in H.
  destruct (scan_scanned image) as (b0 & _ & Hcov & _).
  split.
  - injection H as <- <- <- <-. lia.
  - intros Hpad x y (Hx & Hy & Ha).
    destruct (Hcov x y (proj2 (pixels_spec image x y) (conj Hx Hy)) Ha) as (He & Hbx & Hby).
    rewrite He in H. injection H as <- <- <- <-. lia.
Qed.

(** With a negative padding the rectangle is cut inwards, and a pixel
    that is not transparent can lie outside it: for the one pixel at
    [(2, 1)] and the padding -5 the rectangle is the pixel [(7, 6)]. *)
Example padding_rect_negative :
  get_padding_rect one_pixel (-5) = (7, 6, 8, 7).
Proof. vm_compute. reflexivity. Qed.

(** X19.  When the image has a pixel that is not fully transparent and
    the padding is not negative, the rectangle is tight: each of its four
    edges, taken [padding] pixels inwards, goes through such a pixel. *)
Theorem padding_rect_tight (image : Image) (padding x0 y0 x1 y1 x y : Z) :
  opaque image x y ->
  0 <= padding ->
  get_padding_rect image padding = (x0, y0, x1, y1) ->
  (exists y', opaque image (x0 + padding) y')
  /\ (exists y', opaque image (x1 - 1 - padding) y')
  /\ (exists x', opaque image x' (y0 + padding))
  /\ (exists x', opaque image x' (y1 - 1 - padding)).
Proof.
  intros (Hx & Hy & Ha) Hpad H. unfold get_padding_rect in H.
  destruct (scan_scanned image) as (b0 & _ & Hcov & _ & Hatt).
  destruct (Hcov x y (proj2 (pixels_spec image x y) (conj Hx Hy)) Ha) as (He & Hbx & Hby).
  rewrite He in H.
  destruct (Hatt He) as ((ya & Ha1 & Ha2) & (yb & Hb1 & Hb2)
                         & (xc & Hc1 & Hc2) & (xd & Hd1 & Hd2)).
  apply pixels_spec in Ha1, Hb1, Hc1, Hd1.
  injection H as <- <- <- <-.
  replace (x_min (scan image) - padding + padding) with (x_min (scan image)) by lia.
  replace (y_min (scan image) - padding + padding) with (y_min (scan image)) by lia.
  replace (Z.max (x_max (scan image) + padding) (x_min (scan image) - padding) + 1 - 1 - padding)
    with (x_max (scan image)) by lia.
  replace (Z.max (y_max (scan image) + padding) (y_min (scan image) - padding) + 1 - 1 - padding)
    with (y_max (scan image)) by lia.
  unfold opaque. split_and!;
    [exists ya | exists yb | exists xc | exists xd]; tauto.
Qed.

(** X20.  For an image in which every pixel is fully transparent, and for
    an image without pixels, the rectangle is put around the middle of
    the image: with a padding that is not negative it is the square of
    side [2 * padding + 1] around the pixel at half the width and half
    the height. *)
Theorem padding_rect_transparent (image : Image) (padding : Z) :
  (forall x y : Z, 0 <= x < im_width image -> 0 <= y < im_height image ->
                   alpha image x y = 0) ->
  0 <= padding ->
  get_padding_rect image padding
  = (im_width image / 2 - padding, im_height image / 2 - padding,
     im_width image / 2 + padding + 1, im_height image / 2 + padding + 1).
Proof.
  intros Hclear Hpad. unfold get_padding_rect.
  destruct (scan_scanned image) as (b0 & _ & _ & _ & Hatt).
  destruct (empty (scan image)) eqn:He.
  - cbn [x_min y_min x_max y_max]. repeat f_equal; lia.
  - destruct (Hatt eq_refl) as ((ya & Ha1 & Ha2) & _).
    apply pixels_spec in Ha1. exfalso. apply Ha2. apply Hclear; tauto.
Qed.

(** ** The frames of a gif *)

Section SaveGifTheory.
Context {Img Rect : Type}.
Variable save_png : nat -> option Rect -> Img * option Rect.

Lemma render_later (data : list nat) :
  forall (i : nat) (rect : option Rect) (images : list Img),
    render save_png (S i) data rect images
    = images ++ map (fun eps => (save_png eps rect).1) data.
Proof.
  induction data as [|eps data IH]; intros i rect images; cbn [render map].
  - now rewrite app_nil_r.
  - destruct (save_png eps rect) as [image r]. rewrite IH. cbn [fst].
    now rewrite <- app_assoc.
Qed.

Lemma render_reversed (earlier : list nat) (final : nat) :
  rev (render save_png 0 (rev (earlier ++ [final])) None [])
  = in_order save_png earlier final.
Proof.
  rewrite rev_app_distr. cbn [rev app render]. unfold in_order.
  destruct (save_png final None) as [image r]. rewrite render_later. cbn [fst snd app].
  rewrite map_rev. change (image :: rev (map (fun eps => (save_png eps r).1) earlier))
    with ([image] ++ rev (map (fun eps => (save_png eps r).1) earlier)).
  rewrite rev_app_distr, rev_involutive. reflexivity.
Qed.

Lemma omap_lookup_seq (l : list Img) (k : nat) :
  forall a : nat,
    (a + k <= length l)%nat ->
    omap (fun i => l !! i) (seq a k) = take k (drop a l).
Proof.
  induction k as [|k IH]; intros a Ha; [reflexivity|].
  destruct (lookup_lt_is_Some_2 l a ltac:(lia)) as [x Hx].
  rewrite (drop_S l x a Hx). cbn [take].
  change (seq a (S k)) with ([a] ++ seq (S a) k). rewrite omap_app.
  cbn [omap list_omap]. rewrite Hx. cbn [app]. f_equal. apply IH. lia.
Qed.

Lemma omap_rev {X Y : Type} (f : X -> option Y) (l : list X) :
  omap f (rev l) = rev (omap f l).
Proof.
  induction l as [|x l IH]; [reflexivity|].
  cbn [rev]. rewrite omap_app, IH.
  change (omap f (x :: l)) with (match f x with Some y => y :: omap f l | None => omap f l end).
  change (omap f [x]) with (match f x with Some y => [y] | None => [] end).
  destruct (f x); [reflexivity | apply app_nil_r].
Qed.

(** The slice taken for [alternate]: the images without the first and
    the last, backwards. *)
Lemma back_slice_interior (images : list Img) :
  back_slice images = rev (removelast (tail images)).
Proof.
  unfold back_slice. rewrite omap_rev. f_equal.
  rewrite removelast_firstn_len.
  destruct images as [|x images]; [reflexivity|].
  cbn [tail length]. rewrite omap_lookup_seq by (cbn; lia).
  cbn [drop]. f_equal. lia.
Qed.

(** X21.  Without [alternate], the frames of a gif are its images in the
    order of capture, or in the opposite order with [reverse]; the image
    that comes first is repeated [defer // duration] times before them
    and the one that comes last [pause // duration] times after them.
    The rectangle every frame is cut to is the one of the last frame
    captured. *)
Theorem gif_frames_order (earlier : list nat) (final : nat) (duration pause defer : Z)
    (reverse : bool) :
  duration <> 0 ->
  exists first final_image,
    head (if reverse then rev (in_order save_png earlier final)
          else in_order save_png earlier final) = Some first
    /\ last (if reverse then rev (in_order save_png earlier final)
             else in_order save_png earlier final) = Some final_image
    /\ save_gif_frames save_png (earlier ++ [final]) duration pause defer reverse false
       = inr (replicate (Z.to_nat (defer / duration)) first
              ++ (if reverse then rev (in_order save_png earlier final)
                  else in_order save_png earlier final)
              ++ replicate (Z.to_nat (pause / duration)) final_image).
Proof.
  intros Hd. unfold save_gif_frames.
  assert (Himg : (if reverse then render save_png 0 (rev (earlier ++ [final])) None []
                  else rev (render save_png 0 (rev (earlier ++ [final])) None []))
                 = if reverse then rev (in_order save_png earlier final)
                   else in_order save_png earlier final).
  { destruct reverse; [|apply render_reversed].
    rewrite <- render_reversed. now rewrite rev_involutive. }
  rewrite Himg.
  set (images := if reverse then _ else _).
  assert (Hne : images <> []).
  { subst images. unfold in_order. destruct reverse.
    - rewrite rev_app_distr. discriminate.
    - intros H. apply app_eq_nil in H as [_ H]. discriminate. }
  destruct (head images) as [first|] eqn:Hhead;
    [|destruct images; [congruence | discriminate]].
  destruct (last images) as [final_image|] eqn:Hlast;
    [|apply last_None in Hlast; congruence].
  exists first, final_image. split_and!; try reflexivity.
  destruct (Z.eqb_spec duration 0); [contradiction | reflexivity].
Qed.

(** X22.  With [alternate] the images are followed by the images between
    the first and the last, backwards: the gif plays forth and back, and
    neither end is shown twice in a row.  For [n >= 2] images that makes
    [2 * n - 2] of them.  Stated with [pause] and [defer] at 0, so that
    the list holds no repeated end image. *)
Theorem gif_frames_alternate (gif_data : list nat) (duration : Z)
    (reverse : bool) (frames plain : list Img) :
  save_gif_frames save_png gif_data duration 0 0 reverse false = inr plain ->
  save_gif_frames save_png gif_data duration 0 0 reverse true = inr frames ->
  frames = plain ++ rev (removelast (tail plain))
  /\ length frames = (length plain + (length plain - 2))%nat.
Proof.
  unfold save_gif_frames. intros Hplain Hframes.
  set (images := if reverse then _ else _) in *.
  rewrite back_slice_interior in Hframes.
  destruct (head images), (last images); try discriminate.
  destruct (head (images ++ rev (removelast (tail images)))),
    (last (images ++ rev (removelast (tail images)))); try discriminate.
  destruct (Z.eqb_spec duration 0); [discriminate|].
  rewrite !Zdiv_0_l in *. cbn [Z.to_nat replicate app] in *.
  rewrite app_nil_r in *. simplify_eq. split; [reflexivity|].
  change (Z.to_nat 0) with 0%nat. cbn [replicate app].
  rewrite length_app, length_rev, removelast_firstn_len, length_take.
  destruct images; cbn [tail length]; lia.
Qed.

(** X23.  With no stored frame [save_gif] raises [IndexError], whatever
    the duration; with frames and a duration of 0 it raises
    [ZeroDivisionError]; in every other case it has its frames. *)
Theorem gif_frames_errors (gif_data : list nat) (duration pause defer : Z)
    (reverse alternate : bool) :
  (gif_data = [] ->
   save_gif_frames save_png gif_data duration pause defer reverse alternate = inl IndexError)
  /\ (gif_data <> [] -> duration = 0 ->
      save_gif_frames save_png gif_data duration pause defer reverse alternate
      = inl ZeroDivisionError)
  /\ (gif_data <> [] -> duration <> 0 ->
      exists frames,
        save_gif_frames save_png gif_data duration pause defer reverse alternate
        = inr frames).
Proof.
  assert (Hlen : forall data i rect images,
             length (render save_png i data rect images)
             = (length images + length data)%nat).
  { induction data as [|eps data IH]; intros i rect images; cbn [render length]; [lia|].
    destruct (save_png eps rect). rewrite IH, length_app. cbn. lia. }
  assert (Hsome : gif_data <> [] ->
                  exists first final_image,
                    head ((fun images => if alternate then images ++ back_slice images
                                         else images)
                            (if reverse then render save_png 0 (rev gif_data) None []
                             else rev (render save_png 0 (rev gif_data) None [])))
                    = Some first
                    /\ last ((fun images => if alternate then images ++ back_slice images
                                            else images)
                               (if reverse then render save_png 0 (rev gif_data) None []
                                else rev (render save_png 0 (rev gif_data) None [])))
                       = Some final_image).
  { intros Hne.
    set (images := if reverse then _ else _).
    assert (Hi : images <> []).
    { intros Hnil. apply (f_equal length) in Hnil. subst images.
      destruct reverse; rewrite ?length_rev, Hlen, length_rev in Hnil;
        destruct gif_data; [congruence | discriminate | congruence | discriminate]. }
    cbn beta. set (all := if alternate then _ else _).
    assert (Ha : all <> []).
    { subst all. destruct alternate; [|exact Hi].
      intros Hnil. apply app_eq_nil in Hnil as [Hnil _]. contradiction. }
    destruct (head all) as [first|] eqn:Hh; [|destruct all; [congruence | discriminate]].
    destruct (last all) as [fin|] eqn:Hl; [|apply last_None in Hl; congruence].
    eauto. }
  split_and!.
  - intros ->. unfold save_gif_frames. cbn. destruct reverse, alternate; reflexivity.
  - intros Hne ->. destruct (Hsome Hne) as (first & fin & Hh & Hl).
    unfold save_gif_frames. cbn beta in Hh, Hl. rewrite Hh, Hl. reflexivity.
  - intros Hne Hd. destruct (Hsome Hne) as (first & fin & Hh & Hl).
    unfold save_gif_frames. cbn beta in Hh, Hl. rewrite Hh, Hl.
    destruct (Z.eqb_spec duration 0); [contradiction | eauto].
Qed.

End SaveGifTheory.

(** X24.  When [max_frames] is 0 or negative a returned run has stored no
    frame, and [save_gif] on what it returns raises [IndexError]: no gif
    is written. *)
Theorem gif_without_frames {A : Arith} {G : Geometry A} {Img Rect : Type}
    (save_png : nat -> option Rect -> Img * option Rect)
    (cfg : Config) (t0 : Turtle) (w : string) (s : Locals)
    (duration pause defer : Z) (reverse alternate : bool) :
  max_frames cfg <= 0 ->
  run cfg t0 w = Returned s ->
  gif_data s = []
  /\ save_gif_frames save_png (gif_data s) duration pause defer reverse alternate
     = inl IndexError.
Proof.
  intros Hm Hrun. destruct (run_numbered cfg t0 w s Hrun) as (_ & Hlen).
  assert (Hnil : gif_data s = []).
  { destruct (gif_data s); [reflexivity | cbn in Hlen; lia]. }
  split; [exact Hnil|]. rewrite Hnil.
  unfold save_gif_frames. cbn. destruct reverse, alternate; reflexivity.
Qed.

(* ================================================================= *)
(** * The further properties on samples *)


Lemma loop_concat_witness :
  exists s',
    loop Q_plain "F+" (Q_start Q_plain) = Next s'
    /\ loop Q_plain ("F+" ++ "F")%string (Q_start Q_plain) = loop Q_plain "F" s'.
Proof.
  pose proof (goes_on_next (loop Q_plain "F+" (Q_start Q_plain)) (Q_start Q_plain)
                ltac:(evaluate)) as H.
  eexists. split; [exact H|].
  exact (proj1 (loop_concat Q_plain "F+" "F" (Q_start Q_plain)) _ H).
Defined.

Lemma run_without_gif_witness :
  gif_on Q_plain = false
  /\ exists s,
       run Q_plain Q_turtle "F}@F" = Returned s
       /\ gif_data s = [] /\ frames_attempted s = 0 /\ draws s = 0.
Proof.
  assert (Hg : gif_on Q_plain = false) by evaluate.
  pose proof (returns_returned (run Q_plain Q_turtle "F}@F") (Q_start Q_plain)
                ltac:(evaluate)) as Hrun.
  split; [exact Hg|]. eexists. split; [exact Hrun|].
  destruct (run_without_gif Q_plain Q_turtle "F}@F" _ Hg Hrun) as (H1 & H2 & H3 & _).
  split_and!; assumption.
Defined.

Lemma frames_numbered_witness :
  exists s,
    run (Q_gif 1 3) Q_turtle "FFFFF" = Returned s
    /\ gif_data s = [0; 1; 2]%nat
    /\ gif_data s = seq 0 (length (gif_data s))
    /\ Z.of_nat (length (gif_data s)) <= Z.max 0 (max_frames (Q_gif 1 3)).
Proof.
  pose proof (returns_returned (run (Q_gif 1 3) Q_turtle "FFFFF") (Q_start (Q_gif 1 3))
                ltac:(evaluate)) as Hrun.
  eexists. split; [exact Hrun|]. split; [evaluate|].
  destruct (frames_numbered (Q_gif 1 3) Q_turtle "FFFFF" _ Hrun) as (H1 & _ & H3).
  split; assumption.
Defined.

Lemma draws_counted_witness :
  gif_on (Q_gif 2 100) = true
  /\ occurs "`" "Ff+[F@]{F}x\FF" = false
  /\ qualifying_draws "Ff+[F@]{F}x\FF" = 5
  /\ exists s,
       run (Q_gif 2 100) Q_turtle "Ff+[F@]{F}x\FF" = Returned s
       /\ draws s = qualifying_draws "Ff+[F@]{F}x\FF".
Proof.
  assert (Hg : gif_on (Q_gif 2 100) = true) by evaluate.
  assert (Hb : occurs "`" "Ff+[F@]{F}x\FF" = false) by evaluate.
  pose proof (returns_returned (run (Q_gif 2 100) Q_turtle "Ff+[F@]{F}x\FF")
                (Q_start (Q_gif 2 100)) ltac:(evaluate)) as Hrun.
  split; [exact Hg|]. split; [exact Hb|]. split; [evaluate|].
  eexists. split; [exact Hrun|].
  exact (draws_counted (Q_gif 2 100) Q_turtle "Ff+[F@]{F}x\FF" _ Hg Hb Hrun).
Defined.

Lemma pop_keeps_thickness_witness :
  exists s' s1,
    loop Q_plain ("[>>" ++ "]")%string (Q_start Q_plain) = Next s'
    /\ loop Q_plain "[>>" (Q_start Q_plain) = Next s1
    /\ thickness s1 = 3%Q
    /\ thickness s' = thickness s1
    /\ width (t s') = width (t s1).
Proof.
  pose proof (goes_on_next (loop Q_plain ("[>>" ++ "]")%string (Q_start Q_plain))
                (Q_start Q_plain) ltac:(evaluate)) as H.
  destruct (pop_keeps_thickness Q_plain "[>>" (Q_start Q_plain) _ H) as (s1 & H1 & H2 & H3).
  eexists. exists s1. split; [exact H|]. split; [exact H1|].
  split; [|split; [exact H2 | exact H3]].
  assert (Hs1 : state_of (loop Q_plain "[>>" (Q_start Q_plain)) (Q_start Q_plain) = s1)
    by (rewrite H1; reflexivity).
  rewrite <- Hs1. evaluate.
Defined.

Lemma stack_depth_witness :
  keeps_stack "F[[+F]-F[F" = true
  /\ nesting 0 "F[[+F]-F[F" = Some 2%nat
  /\ exists s' pushed,
       loop Q_plain "F[[+F]-F[F" (Q_start Q_plain) = Next s'
       /\ stack s' = pushed ++ stack (Q_start Q_plain)
       /\ length pushed = 2%nat.
Proof.
  assert (Hk : keeps_stack "F[[+F]-F[F" = true) by evaluate.
  assert (Hn : nesting 0 "F[[+F]-F[F" = Some 2%nat) by evaluate.
  pose proof (goes_on_next (loop Q_plain "F[[+F]-F[F" (Q_start Q_plain)) (Q_start Q_plain)
                ltac:(evaluate)) as H.
  split; [exact Hk|]. split; [exact Hn|].
  destruct (stack_depth Q_plain "F[[+F]-F[F" 2 (Q_start Q_plain) _ Hk Hn H) as (pushed & H1 & H2).
  eexists. exists pushed. split; [exact H|]. split; [exact H1 | exact H2].
Defined.

Lemma run_colors_in_range_witness :
  Forall (fun c => opcolor_ok c = true) (colors Q_plain)
  /\ exists s,
       run Q_plain Q_turtle "0,,,#9!!!F@" = Returned s
       /\ pen_color s = Some (252, 255, 255)
       /\ fill_color s = Some (255, 0, 255)
       /\ opcolor_ok (pen_color s) = true
       /\ opcolor_ok (fill_color s) = true.
Proof.
  assert (Hpal : Forall (fun c => opcolor_ok c = true) (colors Q_plain)).
  { repeat constructor. }
  pose proof (returns_returned (run Q_plain Q_turtle "0,,,#9!!!F@") (Q_start Q_plain)
                ltac:(evaluate)) as Hrun.
  split; [exact Hpal|]. eexists. split; [exact Hrun|].
  split; [evaluate|]. split; [evaluate|].
  destruct (run_colors_in_range Q_plain Q_turtle "0,,,#9!!!F@" _ Hpal Hrun) as (H1 & H2 & _).
  split; assumption.
Defined.

Lemma padding_rect_contains_witness :
  get_padding_rect one_pixel 1 = (1, 0, 4, 3)
  /\ opaque one_pixel 2 1
  /\ (1 < 4 /\ 0 < 3)
  /\ (1 <= 2 < 4 /\ 0 <= 1 < 3)
  /\ (1 <= 2 - 1 /\ 2 + 1 < 4 /\ 0 <= 1 - 1 /\ 1 + 1 < 3).
Proof.
  assert (H : get_padding_rect one_pixel 1 = (1, 0, 4, 3)) by (vm_compute; reflexivity).
  assert (Ho : opaque one_pixel 2 1).
  { unfold opaque. cbn. split_and!; lia. }
  assert (Hp : 0 <= 1) by lia.
  destruct (padding_rect_contains one_pixel 1 1 0 4 3 H) as [Hne Hin].
  split; [exact H|]. split; [exact Ho|]. split; [exact Hne|]. exact (Hin Hp 2 1 Ho).
Defined.

Lemma padding_rect_tight_witness :
  opaque one_pixel 2 1
  /\ 0 <= 1
  /\ get_padding_rect one_pixel 1 = (1, 0, 4, 3)
  /\ (exists y', opaque one_pixel (1 + 1) y')
  /\ (exists y', opaque one_pixel (4 - 1 - 1) y')
  /\ (exists x', opaque one_pixel x' (0 + 1))
  /\ (exists x', opaque one_pixel x' (3 - 1 - 1)).
Proof.
  assert (H : get_padding_rect one_pixel 1 = (1, 0, 4, 3)) by (vm_compute; reflexivity).
  assert (Ho : opaque one_pixel 2 1).
  { unfold opaque. cbn. split_and!; lia. }
  assert (Hp : 0 <= 1) by lia.
  split; [exact Ho|]. split; [exact Hp|]. split; [exact H|].
  exact (padding_rect_tight one_pixel 1 1 0 4 3 2 1 Ho Hp H).
Defined.

Lemma padding_rect_transparent_witness :
  0 <= 3 /\ get_padding_rect clear_image 3 = (4 / 2 - 3, 2 / 2 - 3, 4 / 2 + 3 + 1, 2 / 2 + 3 + 1).
Proof.
  split; [lia|].
  apply (padding_rect_transparent clear_image 3); [reflexivity | lia].
Defined.

Lemma gif_frames_order_witness :
  20 <> 0
  /\ save_gif_frames told_save_png ([0; 1] ++ [2])%nat 20 50 0 false false
     = inr [(0, Some 2); (1, Some 2); (2, None); (2, None); (2, None)]%nat.
Proof.
  assert (Hd : 20 <> 0) by lia.
  split; [exact Hd|].
  destruct (gif_frames_order told_save_png [0; 1]%nat 2%nat 20 50 0 false Hd)
    as (first & final_image & Hh & Hl & Hf).
  rewrite Hf. vm_compute in Hh, Hl. injection Hh as <-. injection Hl as <-.
  vm_compute. reflexivity.
Defined.

Lemma gif_frames_alternate_witness :
  save_gif_frames told_save_png [0; 1; 2; 3]%nat 20 0 0 false false
  = inr [(0, Some 3); (1, Some 3); (2, Some 3); (3, None)]%nat
  /\ save_gif_frames told_save_png [0; 1; 2; 3]%nat 20 0 0 false true
     = inr [(0, Some 3); (1, Some 3); (2, Some 3); (3, None); (2, Some 3); (1, Some 3)]%nat
  /\ length [(0, Some 3); (1, Some 3); (2, Some 3); (3, None); (2, Some 3); (1, Some 3)]%nat
     = (4 + (4 - 2))%nat.
Proof.
  assert (H1 : save_gif_frames told_save_png [0; 1; 2; 3]%nat 20 0 0 false false
               = inr [(0, Some 3); (1, Some 3); (2, Some 3); (3, None)]%nat)
    by (vm_compute; reflexivity).
  assert (H2 : save_gif_frames told_save_png [0; 1; 2; 3]%nat 20 0 0 false true
               = inr [(0, Some 3); (1, Some 3); (2, Some 3); (3, None);
                      (2, Some 3); (1, Some 3)]%nat)
    by (vm_compute; reflexivity).
  split; [exact H1|]. split; [exact H2|].
  exact (proj2 (gif_frames_alternate told_save_png [0; 1; 2; 3]%nat 20 false _ _ H1 H2)).
Defined.

Lemma gif_frames_errors_witness :
  save_gif_frames told_save_png [] 20 500 0 false false = inl IndexError
  /\ save_gif_frames told_save_png [0; 1]%nat 0 500 0 false false = inl ZeroDivisionError
  /\ exists frames,
       save_gif_frames told_save_png [0; 1]%nat 20 500 0 false false = inr frames.
Proof.
  destruct (gif_frames_errors told_save_png [] 20 500 0 false false) as (He & _ & _).
  destruct (gif_frames_errors told_save_png [0; 1]%nat 0 500 0 false false) as (_ & Hz & _).
  destruct (gif_frames_errors told_save_png [0; 1]%nat 20 500 0 false false) as (_ & _ & Hf).
  split; [exact (He eq_refl)|].
  split; [apply Hz; [discriminate | reflexivity]|].
  apply Hf; [discriminate | lia].
Defined.

Lemma gif_without_frames_witness :
  max_frames (Q_gif 1 0) <= 0
  /\ exists s,
       run (Q_gif 1 0) Q_turtle "FF" = Returned s
       /\ frames_attempted s = 3
       /\ gif_data s = []
       /\ save_gif_frames told_save_png (gif_data s) 20 500 0 false false = inl IndexError.
Proof.
  assert (Hm : max_frames (Q_gif 1 0) <= 0) by (vm_compute; discriminate).
  pose proof (returns_returned (run (Q_gif 1 0) Q_turtle "FF") (Q_start (Q_gif 1 0))
                ltac:(evaluate)) as Hrun.
  split; [exact Hm|]. eexists. split; [exact Hrun|]. split; [evaluate|].
  exact (gif_without_frames told_save_png (Q_gif 1 0) Q_turtle "FF" _ 20 500 0 false false
           Hm Hrun).
Defined.

(* ================================================================= *)
(** * [init], [draw] and [wait] *)

Lemma message_printed (g : Globals) (m : Message) :
  Forall (fun e => is_printed e = true) (message g m)
  /\ drawing_numbers (message g m) = []
  /\ filter is_main_loop (message g m) = [].
Proof. unfold message. destruct (SILENT g); repeat constructor. Qed.

Section PackageTheory.
Context {A : Arith} {G : Geometry A}.
Variable new_turtle : DrawArgs -> Turtle.



(** What [draw] does to the variables and what it lets happen, whatever
    [run] comes to. *)
Lemma draw_effect (guess : string) (a : DrawArgs) (g : Globals) :
  exists g1 events,
    (forall s : Locals,
        run (run_config a) (draw_turtle new_turtle a) (draw_string a) = Returned s ->
        draw new_turtle guess a g
        = (g1, events,
           if WAITED g then Return None else Return (Some (draw_string a, t s))))
    /\ (forall e : Error,
          run (run_config a) (draw_turtle new_turtle a) (draw_string a) = Raised e ->
          draw new_turtle guess a g
          = (g1, events, if WAITED g then Return None else Throw e))
    /\ DRAW_NUMBER g1 = DRAW_NUMBER g + 1
    /\ WAITED g1 = WAITED g
    /\ drawing_numbers events = (if WAITED g then [] else [DRAW_NUMBER g + 1])
    /\ filter is_main_loop events = []
    /\ (WAITED g = true ->
        INITIALIZED g1 = INITIALIZED g
        /\ GHOSTSCRIPT g1 = GHOSTSCRIPT g
        /\ Forall (fun e => is_printed e = true) events)
    /\ (WAITED g = false ->
        (a_skip_init a = false -> INITIALIZED g1 = true)
        /\ (In window_setup events <-> a_skip_init a = false /\ INITIALIZED g = false)).
Proof.
  destruct g as [number initialized waited silent ghostscript].
  unfold draw. set (r := run _ _ _). clearbody r.
  cbn [DRAW_NUMBER INITIALIZED WAITED SILENT GHOSTSCRIPT].
  destruct waited.
  - eexists _, _. unfold message. cbn [SILENT].
    split_and!; try reflexivity; try discriminate.
    + destruct silent; reflexivity.
    + destruct silent; reflexivity.
    + intros _. split_and!; try reflexivity. destruct silent; repeat constructor.
  - unfold init, message.
    cbn [DRAW_NUMBER INITIALIZED WAITED SILENT GHOSTSCRIPT negb andb].
    destruct (a_skip_init a), initialized, (named (a_png a) || named (a_gif a));
      cbn [negb andb DRAW_NUMBER INITIALIZED WAITED SILENT GHOSTSCRIPT default];
      repeat case_match; simplify_eq;
      cbn [negb andb DRAW_NUMBER INITIALIZED WAITED SILENT GHOSTSCRIPT default app];
      eexists _, _;
      (split_and!;
       [ intros s0 Hr0; first [discriminate Hr0 | injection Hr0 as <-; reflexivity]
       | intros e0 Hr0; first [discriminate Hr0 | injection Hr0 as <-; reflexivity]
       | reflexivity
       | reflexivity
       | reflexivity
       | reflexivity
       | discriminate
       | intros _; split;
         [ first [reflexivity | discriminate]
         | split; [intros Hin; cbn in Hin; intuition (first [discriminate | reflexivity])
                  | intros [H1 H2]; first [discriminate | cbn; auto]] ] ]).
Qed.

(** What one call does to the variables and what it lets happen. *)
Lemma call_effect (guess : string) (c : Api) (g g1 : Globals) (events : list Event) :
  match c with
  | call_init ghostscript silent => init ghostscript silent g
  | call_draw a => let '(g1, events, _) := draw new_turtle guess a g in (g1, events)
  | call_wait exit_on_click skip_init => wait exit_on_click skip_init g
  end = (g1, events) ->
  DRAW_NUMBER g1 = DRAW_NUMBER g + (if is_draw c then 1 else 0)
  /\ WAITED g1 = WAITED g || is_wait c
  /\ drawing_numbers events
     = (if negb (WAITED g) && is_draw c then [DRAW_NUMBER g + 1] else [])
  /\ length (filter is_main_loop events)
     = (if negb (WAITED g) && is_wait c then 1 else 0)%nat
  /\ (WAITED g = true ->
      INITIALIZED g1 = INITIALIZED g
      /\ GHOSTSCRIPT g1 = GHOSTSCRIPT g
      /\ Forall (fun e => is_printed e = true) events).
Proof.
  intros H.
  assert (Hfin : forall (P Q R S : Prop) (T : Prop),
             P -> Q -> R -> S -> T -> P /\ Q /\ R /\ S /\ T) by tauto.
  destruct c as [gs quiet_|a|exit_on_click skip_init].
  - destruct g as [number initialized waited silent ghostscript].
    unfold init, message in H; cbn in H.
    destruct waited, quiet_; cbn in H; simplify_eq;
      (apply Hfin; cbn; [lia | reflexivity | reflexivity | reflexivity |]);
      first [discriminate | intros _; split_and!; repeat constructor].
  - destruct (draw_effect guess a g)
      as (g1' & events' & Hret & Hraise & Hn & Hw & Hd & Hm & Hfrozen & _).
    assert (Hdraw : exists o, draw new_turtle guess a g = (g1', events', o)).
    { destruct (run (run_config a) (draw_turtle new_turtle a) (draw_string a)) as [s0|e0] eqn:Hrun;
        [rewrite (Hret s0 eq_refl) | rewrite (Hraise e0 eq_refl)]; eauto. }
    destruct Hdraw as [o Hdraw]. rewrite Hdraw in H. simplify_eq.
    cbn [is_draw is_wait]. rewrite orb_false_r, andb_false_r, andb_true_r, Hm.
    split_and!; [exact Hn | exact Hw | | reflexivity | exact Hfrozen].
    rewrite Hd. destruct (WAITED g); reflexivity.
  - destruct g as [number initialized waited silent ghostscript].
    unfold wait, init, message in H; cbn in H.
    destruct skip_init, initialized, waited, silent; cbn in H; simplify_eq;
      (apply Hfin; cbn; [lia | reflexivity | reflexivity | reflexivity |]);
      first [discriminate | intros _; split_and!; repeat constructor].
Qed.

Lemma session_cons (guess : string) (c : Api) (rest : list Api) (g g2 : Globals)
    (events : list Event) :
  session new_turtle guess (c :: rest) g = (g2, events) ->
  exists g1 first more,
    match c with
    | call_init ghostscript silent => init ghostscript silent g
    | call_draw a => let '(g1, events, _) := draw new_turtle guess a g in (g1, events)
    | call_wait exit_on_click skip_init => wait exit_on_click skip_init g
    end = (g1, first)
    /\ session new_turtle guess rest g1 = (g2, more)
    /\ events = first ++ more.
Proof.
  cbn [session]. intros H.
  destruct (match c with
            | call_init ghostscript silent => init ghostscript silent g
            | call_draw a => let '(g1, events, _) := draw new_turtle guess a g in (g1, events)
            | call_wait exit_on_click skip_init => wait exit_on_click skip_init g
            end) as [g1 first] eqn:Hfirst.
  destruct (session new_turtle guess rest g1) as [g2' more] eqn:Hmore. simplify_eq.
  exists g1, first, more. split_and!; [reflexivity | exact Hmore | reflexivity].
Qed.

(** X26.  Once [wait] has been called nothing is drawn any more: in every
    sequence of calls that goes on from there, each [draw] returns [None]
    without running a turtle, no window is set up, no drawing is made and
    no main loop is entered; the only events are messages, and the module
    stays initialised or not as it was, with the same ghostscript. *)
Theorem nothing_after_wait (guess : string) (calls : list Api) (g g' : Globals)
    (events : list Event) :
  WAITED g = true ->
  session new_turtle guess calls g = (g', events) ->
  WAITED g' = true
  /\ INITIALIZED g' = INITIALIZED g
  /\ GHOSTSCRIPT g' = GHOSTSCRIPT g
  /\ Forall (fun e => is_printed e = true) events
  /\ (forall a : DrawArgs, (draw new_turtle guess a g).2 = Return None).
Proof.
  intros Hw Hs.
  assert (Hnone : forall a, (draw new_turtle guess a g).2 = Return None).
  { intros a. unfold draw. cbn [WAITED]. rewrite Hw. reflexivity. }
  revert g g' events Hw Hs Hnone.
  induction calls as [|c rest IH]; intros g g' events Hw Hs Hnone.
  - cbn in Hs. simplify_eq. split_and!; auto.
  - apply session_cons in Hs as (g1 & first & more & H1 & H2 & ->).
    apply call_effect in H1 as (_ & Hw1 & _ & _ & Hfrozen).
    destruct (Hfrozen Hw) as (Hi & Hg & Hp).
    rewrite Hw in Hw1. cbn in Hw1.
    destruct (IH g1 g' more Hw1 H2) as (H3 & H4 & H5 & H6 & _).
    { intros a. unfold draw. cbn [WAITED]. rewrite Hw1. reflexivity. }
    split_and!; [exact H3 | congruence | congruence | | exact Hnone].
    apply Forall_app. split; assumption.
Qed.

(** X27.  Whatever the calls, the main loop is entered once at most: by
    the first [wait], and not at all when [wait] had been called before
    or is not called. *)
Theorem main_loop_once (guess : string) (calls : list Api) (g g' : Globals)
    (events : list Event) :
  session new_turtle guess calls g = (g', events) ->
  length (filter is_main_loop events)
  = (if negb (WAITED g) && existsb is_wait calls then 1 else 0)%nat
  /\ WAITED g' = WAITED g || existsb is_wait calls.
Proof.
  revert g g' events. induction calls as [|c rest IH]; intros g g' events Hs.
  - cbn in Hs. simplify_eq. cbn. rewrite andb_false_r, orb_false_r. auto.
  - apply session_cons in Hs as (g1 & first & more & H1 & H2 & ->).
    apply call_effect in H1 as (_ & Hw1 & _ & Hm & _).
    destruct (IH g1 g' more H2) as (Hm2 & Hw2).
    rewrite filter_app, length_app, Hm, Hm2, Hw2, Hw1. cbn [existsb].
    destruct (WAITED g), (is_wait c), (existsb is_wait rest); split; reflexivity.
Qed.

Lemma session_numbers (guess : string) (calls : list Api) :
  forall (g g' : Globals) (events : list Event),
    session new_turtle guess calls g = (g', events) ->
    DRAW_NUMBER g' = DRAW_NUMBER g + Z.of_nat (length (filter is_draw calls))
    /\ Forall (fun n => DRAW_NUMBER g < n <= DRAW_NUMBER g') (drawing_numbers events)
    /\ StronglySorted Z.lt (drawing_numbers events).
Proof.
  induction calls as [|c rest IH]; intros g g' events Hs.
  - cbn in Hs. simplify_eq. cbn. split_and!; [lia | constructor | constructor].
  - apply session_cons in Hs as (g1 & first & more & H1 & H2 & ->).
    apply call_effect in H1 as (Hn & _ & Hd & _ & _).
    destruct (IH g1 g' more H2) as (Hn2 & Hb2 & Hs2).
    assert (Hlen : DRAW_NUMBER g' = DRAW_NUMBER g
                                    + Z.of_nat (length (filter is_draw (c :: rest)))).
    { destruct c; cbn [is_draw] in Hn.
      - rewrite filter_cons_False by (cbn; tauto). lia.
      - rewrite filter_cons_True by exact I. cbn [length]. lia.
      - rewrite filter_cons_False by (cbn; tauto). lia. }
    split; [exact Hlen|].
    assert (Hmore : Forall (fun n => DRAW_NUMBER g1 < n <= DRAW_NUMBER g')
                      (drawing_numbers more)) by exact Hb2.
    unfold drawing_numbers in *. rewrite omap_app, Hd.
    destruct (negb (WAITED g) && is_draw c) eqn:Hcase; cbn [app].
    + apply andb_prop in Hcase as [_ Hc]. rewrite Hc in Hn.
      split.
      * constructor; [lia|]. eapply Forall_impl; [exact Hmore|].
        intros n Hn1. cbn beta in *. lia.
      * constructor; [exact Hs2|]. eapply Forall_impl; [exact Hmore|].
        intros n Hn1. cbn beta in *. lia.
    + split; [|exact Hs2]. eapply Forall_impl; [exact Hmore|].
      intros n Hn1. cbn beta in *. destruct (is_draw c); lia.
Qed.

(** X28.  [_DRAW_NUMBER] counts the calls of [draw], those that come after
    [wait] and draw nothing included: after a sequence of calls it has
    grown by the number of [draw] calls in it. *)
Theorem draw_number_counts (guess : string) (calls : list Api) (g g' : Globals)
    (events : list Event) :
  session new_turtle guess calls g = (g', events) ->
  DRAW_NUMBER g' = DRAW_NUMBER g + Z.of_nat (length (filter is_draw calls)).
Proof. intros Hs. apply (session_numbers guess calls g g' events Hs). Qed.

(** X29.  The drawings of a sequence of calls carry numbers that grow
    strictly from one drawing to the next, all above the number the
    sequence started with: no two drawings use the same draw directory. *)
Theorem drawings_numbered (guess : string) (calls : list Api) (g g' : Globals)
    (events : list Event) :
  session new_turtle guess calls g = (g', events) ->
  StronglySorted Z.lt (drawing_numbers events)
  /\ NoDup (drawing_numbers events)
  /\ Forall (fun n => DRAW_NUMBER g < n <= DRAW_NUMBER g') (drawing_numbers events).
Proof.
  intros Hs. destruct (session_numbers guess calls g g' events Hs) as (_ & Hb & Hsorted).
  split_and!; [exact Hsorted | | exact Hb].
  clear Hb. induction Hsorted as [|n l Hl IH Hn]; constructor; [|exact IH].
  intros Hin. rewrite List.Forall_forall in Hn.
  apply list_elem_of_In in Hin. specialize (Hn n Hin). lia.
Qed.


End PackageTheory.

(** ** Letters and the case swap *)

Lemma classify_letters (c : ascii) :
  (capital c = true ->
   isalpha c = true /\ classify c = Upper /\ swapped c = Lower)
  /\ (small c = true ->
      isalpha c = true /\ classify c = Lower /\ swapped c = Upper).
Proof.
  destruct c as [[] [] [] [] [] [] [] []]; vm_compute; split; intros H;
    first [discriminate H | split_and!; reflexivity].
Qed.

(** X25.  While the cases are not swapped an uppercase letter ([A] to
    [Z]) takes the drawing branch and a lowercase letter ([a] to [z]) the
    moving branch; while they are swapped it is the other way round: a
    lowercase letter draws and counts as a draw, an uppercase letter
    moves with the pen up. *)
Theorem swapped_letters {A : Arith} {G : Geometry A} (cfg : Config) (c : ascii) (s : Locals) :
  (capital c = true ->
   step cfg c s = dispatch cfg (if swap_cases s then Lower else Upper) s)
  /\ (small c = true ->
      step cfg c s = dispatch cfg (if swap_cases s then Upper else Lower) s).
Proof.
  destruct (classify_letters c) as [Hup Hlow]. unfold step.
  split; intros Hc.
  - destruct (Hup Hc) as (-> & H1 & H2). destruct (swap_cases s); cbn [andb].
    + now rewrite H2.
    + now rewrite H1.
  - destruct (Hlow Hc) as (-> & H1 & H2). destruct (swap_cases s); cbn [andb].
    + now rewrite H2.
    + now rewrite H1.
Qed.

Lemma swapped_letters_witness :
  capital "F" = true
  /\ step Q_plain "F" (set_swap_cases true (Q_start Q_plain))
     = dispatch Q_plain Lower (set_swap_cases true (Q_start Q_plain))
  /\ small "f" = true
  /\ step Q_plain "f" (set_swap_cases true (Q_start Q_plain))
     = dispatch Q_plain Upper (set_swap_cases true (Q_start Q_plain)).
Proof.
  assert (Hu : capital "F" = true) by evaluate.
  assert (Hl : small "f" = true) by evaluate.
  split; [exact Hu|].
  split; [exact (proj1 (swapped_letters Q_plain "F" (set_swap_cases true (Q_start Q_plain))) Hu)|].
  split; [exact Hl|].
  exact (proj2 (swapped_letters Q_plain "f" (set_swap_cases true (Q_start Q_plain))) Hl).
Defined.

(** ** Programs *)

Lemma nothing_after_wait_witness :
  WAITED waited_module = true
  /\ session Q_new_turtle "gs"
       [call_draw koch_args; call_init (Some "gs") true; call_wait true false]
       waited_module
     = ({| DRAW_NUMBER := 1; INITIALIZED := true; WAITED := true; SILENT := true;
           GHOSTSCRIPT := "" |},
        [printed did_not_draw])
  /\ (draw Q_new_turtle "gs" koch_args waited_module).2 = Return None.
Proof.
  assert (Hw : WAITED waited_module = true) by evaluate.
  assert (Hs : session Q_new_turtle "gs"
                 [call_draw koch_args; call_init (Some "gs") true; call_wait true false]
                 waited_module
               = ({| DRAW_NUMBER := 1; INITIALIZED := true; WAITED := true; SILENT := true;
                     GHOSTSCRIPT := "" |},
                  [printed did_not_draw])) by evaluate.
  split; [exact Hw|]. split; [exact Hs|].
  exact (proj2 (proj2 (proj2 (proj2 (nothing_after_wait Q_new_turtle "gs" _ _ _ _ Hw Hs))))
           koch_args).
Defined.

Lemma main_loop_once_witness :
  length (filter is_main_loop (session Q_new_turtle "gs" late_program loaded).2) = 1%nat
  /\ WAITED (session Q_new_turtle "gs" late_program loaded).1 = true.
Proof.
  exact (main_loop_once Q_new_turtle "gs" late_program loaded _ _
           (surjective_pairing (session Q_new_turtle "gs" late_program loaded))).
Defined.

Lemma draw_number_counts_witness :
  DRAW_NUMBER (session Q_new_turtle "gs" late_program loaded).1 = 0 + 3.
Proof.
  exact (draw_number_counts Q_new_turtle "gs" late_program loaded _ _
           (surjective_pairing (session Q_new_turtle "gs" late_program loaded))).
Defined.

Lemma drawings_numbered_witness :
  drawing_numbers (session Q_new_turtle "gs" late_program loaded).2 = [1; 2]
  /\ StronglySorted Z.lt (drawing_numbers (session Q_new_turtle "gs" late_program loaded).2).
Proof.
  split; [evaluate|].
  exact (proj1 (drawings_numbered Q_new_turtle "gs" late_program loaded _ _
                  (surjective_pairing (session Q_new_turtle "gs" late_program loaded)))).
Defined.

